(** * Calibration and proximity engine of the camp-site map

    A shallow embedding of [services/geo.ts], of the proximity effect and
    the detail-view wiring of [App.tsx], and of the eligibility test of
    [components/SpotDetailModal.tsx].

    Numbers.  A JavaScript [number] is modelled as an extended real: a
    finite value is a real number, and the three special values of
    IEEE-754 (+Infinity, -Infinity, NaN) are kept with their arithmetic
    and comparison rules, because the program relies on them ([minDist]
    starts at [Infinity], a division by a zero pixel distance, the
    truthiness of [0] and [NaN]).  Rounding is not modelled: finite
    arithmetic is exact.  Zero is unsigned and stands for [+0], which is
    the only zero the modelled divisions can meet (a divisor is either
    guarded by [|det| >= 1e-9] or the result of [Math.sqrt] of a sum of
    squares).  A statement that rests on exact arithmetic says so: the
    code's binary64 operations round, and an identity between real
    numbers holds in the code only up to that rounding.

    Binary64.  [getDistanceMeters] is embedded a second time, in module
    [Double], over the binary64 numbers of the processor with every
    operation rounded, because what the function returns at the edge of
    its domain is decided by the rounding.  The host's [Math.sin],
    [Math.cos] and [Math.atan2] are parameters there; module [Fdlibm]
    gives those of fdlibm, the library that JavaScript engines port. *)

From Stdlib Require Import Floats.
From Stdlib Require Import Reals Lra Lia Psatz Ascii.
From stdpp Require Import base list strings gmap.

#[local] Open Scope R_scope.

(** ** JavaScript numbers *)

Inductive number : Type :=
| Fin (r : R)
| PInf
| NInf
| NaN.

Definition Rltb (a b : R) : bool := if Rlt_dec a b then true else false.
Definition Reqb (a b : R) : bool := if Req_dec_T a b then true else false.

Module Num.

Definition neg (a : number) : number :=
  match a with
  | Fin r => Fin (- r)
  | PInf => NInf
  | NInf => PInf
  | NaN => NaN
  end.

Definition add (a b : number) : number :=
  match a, b with
  | NaN, _ | _, NaN => NaN
  | Fin r, Fin s => Fin (r + s)
  | PInf, NInf | NInf, PInf => NaN
  | PInf, _ | _, PInf => PInf
  | NInf, _ | _, NInf => NInf
  end.

Definition sub (a b : number) : number := add a (neg b).

(** [inf_sign r] is the infinity carrying the sign of [r], NaN at zero:
    the value of [Infinity * r]. *)
Definition inf_sign (r : R) : number :=
  if Rltb 0 r then PInf else if Rltb r 0 then NInf else NaN.

Definition mul (a b : number) : number :=
  match a, b with
  | NaN, _ | _, NaN => NaN
  | Fin r, Fin s => Fin (r * s)
  | PInf, Fin r | Fin r, PInf => inf_sign r
  | NInf, Fin r | Fin r, NInf => inf_sign (- r)
  | PInf, PInf | NInf, NInf => PInf
  | PInf, NInf | NInf, PInf => NInf
  end.

(** Division; a zero divisor is [+0]. *)
Definition div (a b : number) : number :=
  match a, b with
  | NaN, _ | _, NaN => NaN
  | Fin r, Fin s => if Reqb s 0 then inf_sign r else Fin (r / s)
  | Fin _, PInf | Fin _, NInf => Fin 0
  | PInf, Fin s => if Rltb s 0 then NInf else PInf
  | NInf, Fin s => if Rltb s 0 then PInf else NInf
  | PInf, PInf | PInf, NInf | NInf, PInf | NInf, NInf => NaN
  end.

(** [a < b]: false as soon as one side is NaN. *)
Definition lt (a b : number) : bool :=
  match a, b with
  | NaN, _ | _, NaN => false
  | Fin r, Fin s => Rltb r s
  | NInf, Fin _ | NInf, PInf | Fin _, PInf => true
  | _, _ => false
  end.

(** [a === b] on numbers: NaN is not equal to itself. *)
Definition strict_eq (a b : number) : bool :=
  match a, b with
  | Fin r, Fin s => Reqb r s
  | PInf, PInf | NInf, NInf => true
  | _, _ => false
  end.

(** ToBoolean on a number: [0] and [NaN] are falsy. *)
Definition truthy (a : number) : bool :=
  match a with
  | Fin r => negb (Reqb r 0)
  | PInf | NInf => true
  | NaN => false
  end.

Definition is_finite (a : number) : Prop :=
  match a with Fin _ => True | _ => False end.

End Num.

Declare Scope num_scope.
Delimit Scope num_scope with num.
Bind Scope num_scope with number.
Infix "+" := Num.add : num_scope.
Infix "-" := Num.sub : num_scope.
Infix "*" := Num.mul : num_scope.
Infix "/" := Num.div : num_scope.
Infix "<?" := Num.lt : num_scope.
Infix "===" := Num.strict_eq (at level 70) : num_scope.

(** ** The [Math] object *)

Module Math.

Definition PI : number := Fin Rtrigo1.PI.

Definition abs (a : number) : number :=
  match a with
  | Fin r => Fin (Rabs r)
  | PInf | NInf => PInf
  | NaN => NaN
  end.

Definition sqrt (a : number) : number :=
  match a with
  | Fin r => if Rltb r 0 then NaN else Fin (R_sqrt.sqrt r)
  | PInf => PInf
  | NInf | NaN => NaN
  end.

Definition sin (a : number) : number :=
  match a with
  | Fin r => Fin (Rtrigo_def.sin r)
  | _ => NaN
  end.

Definition cos (a : number) : number :=
  match a with
  | Fin r => Fin (Rtrigo_def.cos r)
  | _ => NaN
  end.

(** [Math.pow(a, n)] for a natural exponent [n]; [Math.pow(a, 0)] is 1
    for every [a], NaN included. *)
Fixpoint pow (a : number) (n : nat) : number :=
  match n with
  | O => Fin 1
  | S O => a
  | S m => (a * pow a m)%num
  end.

(** [Math.atan2(y, x)], by the cases of the language definition. *)
Definition atan2 (y x : number) : number :=
  match y, x with
  | NaN, _ | _, NaN => NaN
  | Fin b, Fin a =>
      if Rltb 0 a then Fin (atan (b / a))
      else if Rltb a 0 then
        (if Rltb b 0 then Fin (atan (b / a) - Rtrigo1.PI)
         else Fin (atan (b / a) + Rtrigo1.PI))
      else if Rltb 0 b then Fin (Rtrigo1.PI / 2)
      else if Rltb b 0 then Fin (- Rtrigo1.PI / 2)
      else Fin 0
  | Fin b, PInf => Fin 0
  | Fin b, NInf => if Rltb b 0 then Fin (- Rtrigo1.PI) else Fin Rtrigo1.PI
  | PInf, Fin _ => Fin (Rtrigo1.PI / 2)
  | NInf, Fin _ => Fin (- Rtrigo1.PI / 2)
  | PInf, PInf => Fin (Rtrigo1.PI / 4)
  | PInf, NInf => Fin (3 * Rtrigo1.PI / 4)
  | NInf, PInf => Fin (- Rtrigo1.PI / 4)
  | NInf, NInf => Fin (- 3 * Rtrigo1.PI / 4)
  end.

End Math.

(** ** Data model ([types.ts]) *)

Module Coord.
Record t : Type := mk { lat : number; lng : number }.
End Coord.

Module PixelCoord.
Record t : Type := mk { x : number; y : number }.
End PixelCoord.

Module CalibrationPoint.
Record t : Type := mk {
  id : number;
  pixel_x : number;
  pixel_y : number;
  lat : number;
  lng : number
}.
End CalibrationPoint.

Inductive SpotType : Type := facility | scenery | tent.

Module Spot.
Record t : Type := mk {
  id : string;
  name : string;
  desc : string;
  speech_text : option string;
  pixel_x : number;
  pixel_y : number;
  has_mission : bool;
  type : SpotType
}.
End Spot.

Module AppData.
Record t : Type := mk {
  calibration_points : list CalibrationPoint.t;
  spots : list Spot.t
}.
End AppData.

(** ** [services/geo.ts] *)

Module AffineTransform.
Record t : Type := mk { A : number; B : number; C : number;
                        D : number; E : number; F : number }.
End AffineTransform.

(** The determinant of the solver, from the latitudes and longitudes of
    three points. *)
Definition det3 (p1 p2 p3 : CalibrationPoint.t) : number :=
  let lat := CalibrationPoint.lat in
  let lng := CalibrationPoint.lng in
  (lat p1 * (lng p2 - lng p3) +
   lat p2 * (lng p3 - lng p1) +
   lat p3 * (lng p1 - lng p2))%num.

Definition getAffineTransform (points : list CalibrationPoint.t)
  : option AffineTransform.t :=
  if (length points <? 3)%nat then None else
  match points !! 0%nat, points !! 1%nat, points !! 2%nat with
  | Some p1, Some p2, Some p3 =>
      let lat := CalibrationPoint.lat in
      let lng := CalibrationPoint.lng in
      let pixel_x := CalibrationPoint.pixel_x in
      let pixel_y := CalibrationPoint.pixel_y in
      let det := det3 p1 p2 p3 in
      if (Math.abs det <? Fin 1e-9)%num then None else
      let A := ((pixel_x p1 * (lng p2 - lng p3) +
                 pixel_x p2 * (lng p3 - lng p1) +
                 pixel_x p3 * (lng p1 - lng p2)) / det)%num in
      let B := ((pixel_x p1 * (lat p3 - lat p2) +
                 pixel_x p2 * (lat p1 - lat p3) +
                 pixel_x p3 * (lat p2 - lat p1)) / det)%num in
      let C := ((pixel_x p1 * (lat p2 * lng p3 - lat p3 * lng p2) +
                 pixel_x p2 * (lat p3 * lng p1 - lat p1 * lng p3) +
                 pixel_x p3 * (lat p1 * lng p2 - lat p2 * lng p1)) / det)%num in
      let D := ((pixel_y p1 * (lng p2 - lng p3) +
                 pixel_y p2 * (lng p3 - lng p1) +
                 pixel_y p3 * (lng p1 - lng p2)) / det)%num in
      let E := ((pixel_y p1 * (lat p3 - lat p2) +
                 pixel_y p2 * (lat p1 - lat p3) +
                 pixel_y p3 * (lat p2 - lat p1)) / det)%num in
      let F := ((pixel_y p1 * (lat p2 * lng p3 - lat p3 * lng p2) +
                 pixel_y p2 * (lat p3 * lng p1 - lat p1 * lng p3) +
                 pixel_y p3 * (lat p1 * lng p2 - lat p2 * lng p1)) / det)%num in
      Some (AffineTransform.mk A B C D E F)
  | _, _, _ => None
  end.

Definition latLngToPixel (lat lng : number)
    (transform : option AffineTransform.t) : option PixelCoord.t :=
  match transform with
  | None => None
  | Some (AffineTransform.mk A B C D E F) =>
      let x := (A * lat + B * lng + C)%num in
      let y := (D * lat + E * lng + F)%num in
      Some (PixelCoord.mk x y)
  end.

(** The haversine intermediate value [a] of [getDistanceMeters]. *)
Definition haversine (c1 c2 : Coord.t) : number :=
  let φ1 := (Coord.lat c1 * Math.PI / Fin 180)%num in
  let φ2 := (Coord.lat c2 * Math.PI / Fin 180)%num in
  let Δφ := ((Coord.lat c2 - Coord.lat c1) * Math.PI / Fin 180)%num in
  let Δλ := ((Coord.lng c2 - Coord.lng c1) * Math.PI / Fin 180)%num in
  (Math.sin (Δφ / Fin 2) * Math.sin (Δφ / Fin 2) +
   Math.cos φ1 * Math.cos φ2 *
   Math.sin (Δλ / Fin 2) * Math.sin (Δλ / Fin 2))%num.

(** The inverse-trig step: the central angle [c] from [a]. *)
Definition centralAngle (a : number) : number :=
  (Fin 2 * Math.atan2 (Math.sqrt a) (Math.sqrt (Fin 1 - a)))%num.

Definition getDistanceMeters (c1 c2 : Coord.t) : number :=
  let R := Fin 6371e3 in
  let a := haversine c1 c2 in
  let c := centralAngle a in
  (R * c)%num.

(** ** [App.tsx]: session state *)

Definition AUTO_SPEECH_DISTANCE : number := Fin 20.

Module AppState.
Record t : Type := mk {
  data : option AppData.t;
  selectedSpot : option Spot.t;
  completedMissions : gset string;
  readSpeeches : gset string;
  userGeo : option Coord.t;
  userPixel : option PixelCoord.t;
  nearestSpotDist : option number
}.
End AppState.

(** The [useMemo] that derives the transform from the data. *)
Definition transform (data : option AppData.t) : option AffineTransform.t :=
  match data with
  | None => None
  | Some d =>
      if (length (AppData.calibration_points d) <? 3)%nat then None
      else getAffineTransform (AppData.calibration_points d)
  end.

(** ** [App.tsx]: nearest spot and auto-speech effect *)

Definition pixelDist (userPixel : PixelCoord.t) (spot : Spot.t) : number :=
  let dx := (PixelCoord.x userPixel - Spot.pixel_x spot)%num in
  let dy := (PixelCoord.y userPixel - Spot.pixel_y spot)%num in
  Math.sqrt (dx * dx + dy * dy)%num.

Definition metersPerPixel (p1 p2 : CalibrationPoint.t) : number :=
  let distMeters :=
    getDistanceMeters
      (Coord.mk (CalibrationPoint.lat p1) (CalibrationPoint.lng p1))
      (Coord.mk (CalibrationPoint.lat p2) (CalibrationPoint.lng p2)) in
  let distPixels :=
    Math.sqrt
      (Math.pow (CalibrationPoint.pixel_x p1 - CalibrationPoint.pixel_x p2) 2 +
       Math.pow (CalibrationPoint.pixel_y p1 - CalibrationPoint.pixel_y p2) 2)%num in
  (distMeters / distPixels)%num.

(** One iteration of [data.spots.forEach]; the accumulator is
    [(minDist, closest)]. *)
Definition nearestStep (userPixel : option PixelCoord.t)
    (transform : option AffineTransform.t) (data : AppData.t)
    (acc : number * option Spot.t) (spot : Spot.t) : number * option Spot.t :=
  match userPixel, transform with
  | Some up, Some _ =>
      if (2 <=? length (AppData.calibration_points data))%nat then
        match AppData.calibration_points data !! 0%nat,
              AppData.calibration_points data !! 1%nat with
        | Some p1, Some p2 =>
            let distM := (pixelDist up spot * metersPerPixel p1 p2)%num in
            if (distM <? acc.1)%num then (distM, Some spot) else acc
        | _, _ => acc
        end
      else acc
  | _, _ => acc
  end.

Definition nearest (userPixel : option PixelCoord.t)
    (transform : option AffineTransform.t) (data : AppData.t)
  : number * option Spot.t :=
  fold_left (nearestStep userPixel transform data) (AppData.spots data)
            (PInf, None).

(** What the effect hands to the speech synthesiser: the text spoken,
    tagged with the id of the spot it belongs to. *)
Inductive Event : Type :=
| Speak (spot_id : string) (text : string).

(** ToBoolean on [speech_text]: absent and empty are falsy. *)
Definition spoken_text (s : Spot.t) : option string :=
  match Spot.speech_text s with
  | Some t => if bool_decide (t = EmptyString) then None else Some t
  | None => None
  end.

Definition proximityEffect (st : AppState.t) : AppState.t * list Event :=
  match AppState.userGeo st, AppState.data st with
  | Some _, Some d =>
      let '(minDist, closest) :=
        nearest (AppState.userPixel st) (transform (AppState.data st)) d in
      let dist := if (minDist === PInf)%num then None else Some minDist in
      let st1 :=
        AppState.mk (AppState.data st) (AppState.selectedSpot st)
          (AppState.completedMissions st) (AppState.readSpeeches st)
          (AppState.userGeo st) (AppState.userPixel st) dist in
      match closest with
      | Some s =>
          if (minDist <? AUTO_SPEECH_DISTANCE)%num then
            match spoken_text s with
            | Some text =>
                if bool_decide (Spot.id s ∈ AppState.readSpeeches st)
                then (st1, [])
                else
                  (AppState.mk (AppState.data st) (AppState.selectedSpot st)
                     (AppState.completedMissions st)
                     ({[ Spot.id s ]} ∪ AppState.readSpeeches st)
                     (AppState.userGeo st) (AppState.userPixel st) dist,
                   [Speak (Spot.id s) text])
            | None => (st1, [])
            end
          else (st1, [])
      | None => (st1, [])
      end
  | _, _ => (st, [])
  end.

(** ** [App.tsx] and [SpotDetailModal.tsx]: check-in eligibility *)

(** The [userDistance] prop handed to the detail view. *)
Definition userDistance (st : AppState.t) : option number :=
  match AppState.selectedSpot st, AppState.nearestSpotDist st,
        AppState.userPixel st with
  | Some selectedSpot, Some nearestSpotDist, Some userPixel =>
      if Num.truthy nearestSpotDist then
        Some (Math.sqrt
                (Math.pow (Spot.pixel_x selectedSpot - PixelCoord.x userPixel) 2 +
                 Math.pow (Spot.pixel_y selectedSpot - PixelCoord.y userPixel) 2)%num)
      else None
  | _, _, _ => None
  end.

Definition isNear (userDistance : option number) : bool :=
  match userDistance with
  | None => false
  | Some d => (d <? Fin 30)%num
  end.

(** ** Sessions: external updates interleaved with the effect *)

(** What the environment may change between two runs of the effect: the
    position stream, the projected pixel, the stored data, the selection.
    The narrated set is written by the effect only. *)
Module Update.
Record t : Type := mk {
  data : option AppData.t;
  selectedSpot : option Spot.t;
  userGeo : option Coord.t;
  userPixel : option PixelCoord.t
}.
End Update.

Definition applyUpdate (st : AppState.t) (u : Update.t) : AppState.t :=
  AppState.mk (Update.data u) (Update.selectedSpot u)
    (AppState.completedMissions st) (AppState.readSpeeches st)
    (Update.userGeo u) (Update.userPixel u) (AppState.nearestSpotDist st).

(** The trace of a session: for each update, the state the effect ran in
    and the events it produced. *)
Fixpoint runSession (st : AppState.t) (us : list Update.t)
  : list (AppState.t * list Event) :=
  match us with
  | [] => []
  | u :: us' =>
      let st1 := applyUpdate st u in
      (st1, (proximityEffect st1).2) :: runSession (proximityEffect st1).1 us'
  end.

Definition initialState : AppState.t :=
  AppState.mk None None ∅ ∅ None None None.

(** ** Vocabulary of the statements *)

(** A coordinate made of real numbers. *)
Definition finite_coord (c : Coord.t) : Prop :=
  Num.is_finite (Coord.lat c) /\ Num.is_finite (Coord.lng c).

(** A calibration point made of real numbers throughout. *)
Definition finite_point (p : CalibrationPoint.t) : Prop :=
  Num.is_finite (CalibrationPoint.pixel_x p) /\
  Num.is_finite (CalibrationPoint.pixel_y p) /\
  Num.is_finite (CalibrationPoint.lat p) /\
  Num.is_finite (CalibrationPoint.lng p).

(** The determinant over the reals, for points with real coordinates. *)
Definition geo_det (la1 ln1 la2 ln2 la3 ln3 : R) : R :=
  la1 * (ln2 - ln3) + la2 * (ln3 - ln1) + la3 * (ln1 - ln2).

(** The haversine intermediate value over the reals. *)
Definition hav_R (la1 ln1 la2 ln2 : R) : R :=
  let φ1 := la1 * PI / 180 in
  let φ2 := la2 * PI / 180 in
  let Δφ := (la2 - la1) * PI / 180 in
  let Δλ := (ln2 - ln1) * PI / 180 in
  sin (Δφ / 2) * sin (Δφ / 2) + cos φ1 * cos φ2 * sin (Δλ / 2) * sin (Δλ / 2).

(** The distance in meters that the loop computes for a spot, from the
    user's pixel and the first two calibration points. *)
Definition spotDistM (up : PixelCoord.t) (p1 p2 : CalibrationPoint.t)
    (spot : Spot.t) : number :=
  (pixelDist up spot * metersPerPixel p1 p2)%num.

(** The comparison-and-replace of the loop, for a distance function [f]. *)
Definition pick (f : Spot.t -> number) (acc : number * option Spot.t)
    (spot : Spot.t) : number * option Spot.t :=
  if (f spot <? acc.1)%num then (f spot, Some spot) else acc.

(** The scale cannot be computed from the calibration points: fewer than
    two of them, or the first two at the same pixel. *)
Definition scale_unavailable (d : AppData.t) : Prop :=
  (length (AppData.calibration_points d) < 2)%nat \/
  exists p1 p2 rest,
    AppData.calibration_points d = p1 :: p2 :: rest /\
    CalibrationPoint.pixel_x p1 = CalibrationPoint.pixel_x p2 /\
    CalibrationPoint.pixel_y p1 = CalibrationPoint.pixel_y p2.

(** The spot whose narration is due in a state: the nearest spot, when it
    is below the trigger distance and carries a narration text. *)
Definition dueSpot (st : AppState.t) : option (Spot.t * string) :=
  match AppState.userGeo st, AppState.data st with
  | Some _, Some d =>
      match nearest (AppState.userPixel st) (transform (AppState.data st)) d with
      | (minDist, Some s) =>
          if (minDist <? AUTO_SPEECH_DISTANCE)%num then
            match spoken_text s with
            | Some text => Some (s, text)
            | None => None
            end
          else None
      | (_, None) => None
      end
  | _, _ => None
  end.

(** The narration of the spot [id] is due in a state. *)
Definition narrationDue (st : AppState.t) (id : string) : Prop :=
  exists s text, dueSpot st = Some (s, text) /\ Spot.id s = id.

(** The events narrate the spot [id]. *)
Definition narrates (evs : list Event) (id : string) : Prop :=
  exists text, Speak id text ∈ evs.

(** ** Concrete inputs used by the examples *)

Definition coord_of_reals (la ln : R) : Coord.t := Coord.mk (Fin la) (Fin ln).

(** A calibration point given by four reals. *)
Definition point_of_reals (px py la ln : R) : CalibrationPoint.t :=
  CalibrationPoint.mk (Fin 0) (Fin px) (Fin py) (Fin la) (Fin ln).

(** Three calibration points at the corners of a one-degree cell, and a
    fourth one that the solver never reads. *)
Definition sample_points : list CalibrationPoint.t :=
  [ point_of_reals 0 0 0 0; point_of_reals 10 0 0 1;
    point_of_reals 0 10 1 0; point_of_reals 7 7 5 5 ].

Definition origin_pixel : PixelCoord.t := PixelCoord.mk (Fin 0) (Fin 0).

Definition spot_at (id : string) (x y : R) (text : option string)
    (mission : bool) : Spot.t :=
  Spot.mk id id EmptyString text (Fin x) (Fin y) mission scenery.

(** Calibration on two antipodal points of the equator, [w] pixels apart,
    and a third point at the pole: the scale is half the circumference of
    the Earth over [w]. *)
Definition antipodal_points (w : R) : list CalibrationPoint.t :=
  [ point_of_reals 0 0 0 0; point_of_reals w 0 0 180; point_of_reals 0 w 90 0 ].

Definition half_circumference : R := 6371e3 * PI.

(** Data with a scale of [m] meters per pixel. *)
Definition data_with_scale (m : R) (spots : list Spot.t) : AppData.t :=
  AppData.mk (antipodal_points (half_circumference / m)) spots.

(** A visitor at the pixel origin. *)
Definition visitor_state (d : AppData.t) (selected : option Spot.t)
    (read : gset string) : AppState.t :=
  AppState.mk (Some d) selected ∅ read (Some (coord_of_reals 0 0))
    (Some origin_pixel) None.

(** Spots at pixel distances 10, 5 and 5 from the origin. *)
Definition spot_far : Spot.t := spot_at "far" 10 0 None false.
Definition spot_first : Spot.t := spot_at "first" 5 0 None false.
Definition spot_second : Spot.t := spot_at "second" 0 5 None false.

(** First two calibration points on the same pixel. *)
Definition degenerate_data : AppData.t :=
  AppData.mk
    [ point_of_reals 3 4 0 0; point_of_reals 3 4 0 1; point_of_reals 0 10 1 0 ]
    [ spot_first ].

(** A spot with a narration, 5 pixels from the origin, and the position
    update that puts the visitor at the origin of a map with a scale of 1
    meter per pixel. *)
Definition spot_guide : Spot.t := spot_at "guide" 5 0 (Some "welcome") false.

Definition update_near_guide : Update.t :=
  Update.mk (Some (data_with_scale 1 [spot_guide])) None
    (Some (coord_of_reals 0 0)) (Some origin_pixel).

(** A mission spot 20 pixels from the origin, and one at the origin. *)
Definition spot_mission : Spot.t := spot_at "mission" 20 0 None true.
Definition spot_here : Spot.t := spot_at "here" 0 0 None true.

(** ** [App.tsx]: zoom, pan and the screen transform *)

(** [Math.max(a, b)] and [Math.min(a, b)]: NaN as soon as one argument
    is NaN. *)
Definition Math_max (a b : number) : number :=
  match a, b with
  | NaN, _ | _, NaN => NaN
  | _, _ => if (a <? b)%num then b else a
  end.

Definition Math_min (a b : number) : number :=
  match a, b with
  | NaN, _ | _, NaN => NaN
  | _, _ => if (b <? a)%num then b else a
  end.

Module ViewState.
Record t : Type := mk { x : number; y : number; scale : number }.
End ViewState.

(** A position on the screen ([clientX], [clientY], [lastPos]). *)
Module ScreenPos.
Record t : Type := mk { x : number; y : number }.
End ScreenPos.

(** The view state together with the two refs of the drag. *)
Module MapView.
Record t : Type := mk {
  viewState : ViewState.t;
  isDragging : bool;
  lastPos : ScreenPos.t
}.
End MapView.

Definition initialView : MapView.t :=
  MapView.mk (ViewState.mk (Fin 0) (Fin 0) (Fin 1)) false
    (ScreenPos.mk (Fin 0) (Fin 0)).

Definition handleWheel (deltaY : number) (prev : ViewState.t) : ViewState.t :=
  let scaleChange := if (Fin 0 <? deltaY)%num then Fin 0.9 else Fin 1.1 in
  ViewState.mk (ViewState.x prev) (ViewState.y prev)
    (Math_min (Math_max (ViewState.scale prev * scaleChange)%num (Fin 0.5)) (Fin 5)).

Definition handlePointerDown (clientX clientY : number) (v : MapView.t)
  : MapView.t :=
  MapView.mk (MapView.viewState v) true (ScreenPos.mk clientX clientY).

Definition handlePointerMove (clientX clientY : number) (v : MapView.t)
  : MapView.t :=
  if negb (MapView.isDragging v) then v else
  let dx := (clientX - ScreenPos.x (MapView.lastPos v))%num in
  let dy := (clientY - ScreenPos.y (MapView.lastPos v))%num in
  let prev := MapView.viewState v in
  MapView.mk
    (ViewState.mk (ViewState.x prev + dx)%num (ViewState.y prev + dy)%num
       (ViewState.scale prev))
    (MapView.isDragging v) (ScreenPos.mk clientX clientY).

Definition handlePointerUp (v : MapView.t) : MapView.t :=
  MapView.mk (MapView.viewState v) false (MapView.lastPos v).

(** [handleImageLoad]: the initial view, when the container ref is set
    ([container] is its [clientWidth] and [clientHeight]). *)
Definition handleImageLoad (naturalWidth naturalHeight : number)
    (container : option (number * number)) (vs : ViewState.t) : ViewState.t :=
  match container with
  | Some (cw, ch) =>
      let scale := Math_min (cw / naturalWidth)%num (ch / naturalHeight)%num in
      ViewState.mk ((cw - naturalWidth * scale) / Fin 2)%num
                   ((ch - naturalHeight * scale) / Fin 2)%num scale
  | None => vs
  end.

(** The style of the map layer, [translate(x, y) scale(s)] with origin
    [0 0]: where a point of the image lands in the container. *)
Definition naturalToScreen (vs : ViewState.t) (p : PixelCoord.t) : ScreenPos.t :=
  ScreenPos.mk (PixelCoord.x p * ViewState.scale vs + ViewState.x vs)%num
               (PixelCoord.y p * ViewState.scale vs + ViewState.y vs)%num.

(** The first lines of [handleMapClick]: from a position in the
    container ([clientX - rect.left], [clientY - rect.top]) to the
    coordinates of the image. *)
Definition screenToNatural (vs : ViewState.t) (screen : ScreenPos.t)
  : PixelCoord.t :=
  PixelCoord.mk ((ScreenPos.x screen - ViewState.x vs) / ViewState.scale vs)%num
                ((ScreenPos.y screen - ViewState.y vs) / ViewState.scale vs)%num.

(** The button that centres the view on the user; [None] when it shows
    the alert instead. *)
Definition centerOnUser (clientWidth clientHeight : number)
    (userGeo : option Coord.t) (userPixel : option PixelCoord.t)
    (prev : ViewState.t) : option ViewState.t :=
  match userGeo, userPixel with
  | Some _, Some up =>
      if Num.truthy (ViewState.scale prev) then
        Some (ViewState.mk
                (clientWidth / Fin 2 - PixelCoord.x up * ViewState.scale prev)%num
                (clientHeight / Fin 2 - PixelCoord.y up * ViewState.scale prev)%num
                (ViewState.scale prev))
      else None
  | _, _ => None
  end.

(** ** [MapMarker.tsx] *)

(** The counter-scale of a marker. *)
Definition inverseScale (scale : number) : number :=
  Math_max (Fin 0.5) (Fin 1 / scale)%num.

(** A view given by three reals, and a drag: pointer down at one
    position, then a pointer move to each position of a list. *)
Definition view_of_reals (x y s : R) : ViewState.t :=
  ViewState.mk (Fin x) (Fin y) (Fin s).

Definition pointerMoves (moves : list (R * R)) (v : MapView.t) : MapView.t :=
  fold_left (fun v p => handlePointerMove (Fin p.1) (Fin p.2) v) moves v.

(** ** [App.tsx] and [SpotDetailModal.tsx]: performing a check-in *)

(** The [isCompleted] prop of the detail view. *)
Definition isCompleted (st : AppState.t) : bool :=
  match AppState.selectedSpot st with
  | Some selectedSpot =>
      bool_decide (Spot.id selectedSpot ∈ AppState.completedMissions st)
  | None => false
  end.

(** The check-in button is rendered ([has_mission && !isCompleted]) and
    not disabled ([isNear]). *)
Definition checkInEnabled (st : AppState.t) : bool :=
  match AppState.selectedSpot st with
  | Some spot =>
      Spot.has_mission spot && negb (isCompleted st) && isNear (userDistance st)
  | None => false
  end.

Definition onCheckIn (st : AppState.t) : AppState.t :=
  match AppState.selectedSpot st with
  | Some selectedSpot =>
      AppState.mk (AppState.data st) None
        ({[ Spot.id selectedSpot ]} ∪ AppState.completedMissions st)
        (AppState.readSpeeches st) (AppState.userGeo st)
        (AppState.userPixel st) (AppState.nearestSpotDist st)
  | None => st
  end.

(** What happens during a visit: the environment changes and the effect
    runs, or the visitor presses the check-in button. *)
Inductive VisitEvent : Type :=
| Moved (u : Update.t)
| PressCheckIn.

(** One event: the next state and the mission completed by it, if any.
    A press on an absent or disabled button does nothing. *)
Definition visitStep (st : AppState.t) (ev : VisitEvent)
  : AppState.t * option string :=
  match ev with
  | Moved u => ((proximityEffect (applyUpdate st u)).1, None)
  | PressCheckIn =>
      match AppState.selectedSpot st with
      | Some spot =>
          if checkInEnabled st then (onCheckIn st, Some (Spot.id spot))
          else (st, None)
      | None => (st, None)
      end
  end.

(** The trace of a visit: for each event, the state it was handled in and
    the mission it completed. *)
Fixpoint runVisit (st : AppState.t) (evs : list VisitEvent)
  : list (AppState.t * option string) :=
  match evs with
  | [] => []
  | ev :: evs' => (st, (visitStep st ev).2) :: runVisit (visitStep st ev).1 evs'
  end.

(** A visitor 20 pixels from a selected mission spot, on a map with a
    scale of 2 meters per pixel, who presses the check-in button twice. *)
Definition update_select_mission : Update.t :=
  Update.mk (Some (data_with_scale 2 [spot_mission])) (Some spot_mission)
    (Some (coord_of_reals 0 0)) (Some origin_pixel).

Definition visit_with_two_presses : list VisitEvent :=
  [Moved update_select_mission; PressCheckIn; PressCheckIn].

(** ** [App.tsx]: the administrator's clicks *)

Inductive AppMode : Type := USER | ADMIN_CALIBRATE | ADMIN_ADD_SPOT.

(** The session state together with the mode, the view and the position
    of the spot being created. *)
Module Ui.
Record t : Type := mk {
  app : AppState.t;
  mode : AppMode;
  view : MapView.t;
  newSpotPos : option PixelCoord.t
}.
End Ui.

Definition setData (ui : Ui.t) (newData : AppData.t) : Ui.t :=
  let st := Ui.app ui in
  Ui.mk
    (AppState.mk (Some newData) (AppState.selectedSpot st)
       (AppState.completedMissions st) (AppState.readSpeeches st)
       (AppState.userGeo st) (AppState.userPixel st)
       (AppState.nearestSpotDist st))
    (Ui.mode ui) (Ui.view ui) (Ui.newSpotPos ui).

(** [s.split(',')]. *)
Fixpoint split_comma (s : string) : list string :=
  match s with
  | EmptyString => [EmptyString]
  | String c rest =>
      if Ascii.eqb c ","%char then EmptyString :: split_comma rest
      else
        match split_comma rest with
        | part :: parts => String c part :: parts
        | [] => [String c EmptyString]
        end
  end.

Section HostFunctions.

(** [parseFloat] on a string is the host's. *)
Variable parseFloat : string -> number.

(** [parseFloat(parts[i])]: a missing part is [undefined] and parses to
    NaN. *)
Definition parsePart (parts : list string) (i : nat) : number :=
  match parts !! i with
  | Some part => parseFloat part
  | None => NaN
  end.

(** The latitude and longitude of a new calibration point: the current
    position when there is one and the administrator confirms, the manual
    entry otherwise; [None] when the prompt is cancelled or left empty.
    [confirmed] and [manual] are the answers to the two dialogs. *)
Definition calibrationLatLng (userGeo : option Coord.t) (confirmed : bool)
    (manual : option string) : option (number * number) :=
  let fromPrompt :=
    match manual with
    | Some m =>
        if bool_decide (m = EmptyString) then None
        else let parts := split_comma m in
             Some (parsePart parts 0, parsePart parts 1)
    | None => None
    end in
  match userGeo with
  | Some g => if confirmed then Some (Coord.lat g, Coord.lng g) else fromPrompt
  | None => fromPrompt
  end.

(** [handleMapClick]: [rect] is the bounding rectangle of the container
    (absent when the ref is not set) and [now] is [Date.now()]. *)
Definition handleMapClick (clientX clientY : number)
    (rect : option (number * number)) (confirmed : bool)
    (manual : option string) (now : number) (ui : Ui.t) : Ui.t :=
  if MapView.isDragging (Ui.view ui) then ui else
  match rect with
  | None => ui
  | Some (rectLeft, rectTop) =>
      let screenX := (clientX - rectLeft)%num in
      let screenY := (clientY - rectTop)%num in
      let click :=
        screenToNatural (MapView.viewState (Ui.view ui))
          (ScreenPos.mk screenX screenY) in
      match Ui.mode ui with
      | ADMIN_CALIBRATE =>
          match AppState.data (Ui.app ui) with
          | None => ui
          | Some data =>
              match calibrationLatLng (AppState.userGeo (Ui.app ui))
                      confirmed manual with
              | None => ui
              | Some (lat, lng) =>
                  let newPoint :=
                    CalibrationPoint.mk now (PixelCoord.x click)
                      (PixelCoord.y click) lat lng in
                  let updatedPoints :=
                    AppData.calibration_points data ++ [newPoint] in
                  setData ui (AppData.mk updatedPoints (AppData.spots data))
              end
          end
      | ADMIN_ADD_SPOT =>
          Ui.mk (Ui.app ui) (Ui.mode ui) (Ui.view ui) (Some click)
      | USER => ui
      end
  end.

End HostFunctions.

(** ** [AdminSpotModal.tsx] and [handleSaveSpot] *)

(** What the form hands to [onSave]: a spot without id and position. *)
Module SpotData.
Record t : Type := mk {
  name : string;
  desc : string;
  speech_text : option string;
  type : SpotType;
  has_mission : bool
}.
End SpotData.

(** The state of the form. *)
Module SpotForm.
Record t : Type := mk {
  name : string;
  desc : string;
  speechText : string;
  type : SpotType;
  hasMission : bool
}.
End SpotForm.

(** [handleSubmit]: [None] when the name is empty and [onSave] is not
    called. *)
Definition handleSubmit (form : SpotForm.t) : option SpotData.t :=
  if bool_decide (SpotForm.name form = EmptyString) then None
  else Some (SpotData.mk (SpotForm.name form) (SpotForm.desc form)
               (Some (SpotForm.speechText form)) (SpotForm.type form)
               (SpotForm.hasMission form)).

(** [handleSaveSpot]; [stamp] is the text of [Date.now()] in the id. *)
Definition handleSaveSpot (stamp : string) (spotData : SpotData.t) (ui : Ui.t)
  : Ui.t :=
  match Ui.newSpotPos ui, AppState.data (Ui.app ui) with
  | Some newSpotPos, Some data =>
      let newSpot :=
        Spot.mk ("spot_" ++ stamp) (SpotData.name spotData)
          (SpotData.desc spotData) (SpotData.speech_text spotData)
          (PixelCoord.x newSpotPos) (PixelCoord.y newSpotPos)
          (SpotData.has_mission spotData) (SpotData.type spotData) in
      let saved := setData ui (AppData.mk (AppData.calibration_points data)
                                 (AppData.spots data ++ [newSpot])) in
      Ui.mk (Ui.app saved) (Ui.mode saved) (Ui.view saved) None
  | _, _ => ui
  end.

(** The state of the interface once the position stream has delivered
    the position [(latitude, longitude)]. *)
Definition withPosition (latitude longitude : number) (ui : Ui.t) : Ui.t :=
  let st := Ui.app ui in
  Ui.mk
    (AppState.mk (AppState.data st) (AppState.selectedSpot st)
       (AppState.completedMissions st) (AppState.readSpeeches st)
       (Some (Coord.mk latitude longitude)) (AppState.userPixel st)
       (AppState.nearestSpotDist st))
    (Ui.mode ui) (Ui.view ui) (Ui.newSpotPos ui).

(** The effect that projects the position: it runs when the position or
    the transform changes and sets the user's pixel when both are there. *)
Definition projectionEffect (st : AppState.t) : AppState.t :=
  match AppState.userGeo st, transform (AppState.data st) with
  | Some userGeo, Some t =>
      let pix := latLngToPixel (Coord.lat userGeo) (Coord.lng userGeo) (Some t) in
      AppState.mk (AppState.data st) (AppState.selectedSpot st)
        (AppState.completedMissions st) (AppState.readSpeeches st)
        (AppState.userGeo st) pix (AppState.nearestSpotDist st)
  | _, _ => st
  end.

(** The administrator walks to a place, waits for the position and clicks
    the map where they stand, confirming the use of the position. *)
Definition calibrateHere (parseFloat : string -> number)
    (latitude longitude clientX clientY : number) (rect : number * number)
    (now : number) (ui : Ui.t) : Ui.t :=
  handleMapClick parseFloat clientX clientY (Some rect) true None now
    (withPosition latitude longitude ui).

(** An administrator in calibration mode, with loaded data and a view. *)
Definition calibrating_ui (d : AppData.t) (vs : ViewState.t) : Ui.t :=
  Ui.mk (AppState.mk (Some d) None ∅ ∅ None None None) ADMIN_CALIBRATE
    (MapView.mk vs false (ScreenPos.mk (Fin 0) (Fin 0))) None.

(** An administrator in spot-creation mode. *)
Definition adding_spot_ui (d : AppData.t) (vs : ViewState.t) : Ui.t :=
  Ui.mk (AppState.mk (Some d) None ∅ ∅ None None None) ADMIN_ADD_SPOT
    (MapView.mk vs false (ScreenPos.mk (Fin 0) (Fin 0))) None.

(** ** [App.tsx]: geolocation tracking *)

Module GeoStatus.
Record t : Type := mk {
  userGeo : option Coord.t;
  gpsAccuracy : option number;
  geoError : option string
}.
End GeoStatus.

Definition handleSuccess (latitude longitude accuracy : number)
    (s : GeoStatus.t) : GeoStatus.t :=
  GeoStatus.mk (Some (Coord.mk latitude longitude)) (Some accuracy) None.

(** [handleError]; the codes [PERMISSION_DENIED], [POSITION_UNAVAILABLE]
    and [TIMEOUT] are 1, 2 and 3. *)
Definition handleError (code : number) (message : string) (s : GeoStatus.t)
  : GeoStatus.t :=
  let msg :=
    if (code === Fin 1)%num then "定位權限被拒絕"%string
    else if (code === Fin 2)%num then "無法取得 GPS 訊號"%string
    else if (code === Fin 3)%num then "定位連線逾時"%string
    else message in
  GeoStatus.mk (GeoStatus.userGeo s) (GeoStatus.gpsAccuracy s) (Some msg).

(** What the position stream delivers. *)
Inductive GeoEvent : Type :=
| Position (latitude longitude accuracy : number)
| Failure (code : number) (message : string).

Definition geoStep (s : GeoStatus.t) (ev : GeoEvent) : GeoStatus.t :=
  match ev with
  | Position latitude longitude accuracy =>
      handleSuccess latitude longitude accuracy s
  | Failure code message => handleError code message s
  end.

(** The last position delivered by a sequence of events, if any. *)
Fixpoint lastPosition (evs : list GeoEvent) : option (Coord.t * number) :=
  match evs with
  | [] => None
  | ev :: evs' =>
      match lastPosition evs' with
      | Some p => Some p
      | None =>
          match ev with
          | Position latitude longitude accuracy =>
              Some (Coord.mk latitude longitude, accuracy)
          | Failure _ _ => None
          end
      end
  end.

(** ** [services/storage.ts] *)

(** A [Partial<AppData>]: each field may be missing. *)
Module PartialData.
Record t : Type := mk {
  calibration_points : option (list CalibrationPoint.t);
  spots : option (list Spot.t)
}.
End PartialData.

Definition toPartial (d : AppData.t) : PartialData.t :=
  PartialData.mk (Some (AppData.calibration_points d)) (Some (AppData.spots d)).

(** What [response.json()] and [JSON.parse] give: a failure (the call
    throws), [null], or an object. *)
Inductive Body : Type :=
| BodyInvalid
| BodyNull
| BodyObject (c : PartialData.t).

(** The outcome of [fetch]: it throws, or a response arrives with its
    [ok] flag and its body. *)
Inductive Fetched : Type :=
| NetworkError
| Responded (ok : bool) (body : Body).

(** The entry of the local storage under the key of the application,
    and whether [setItem] throws. *)
Module LocalStorage.
Record t : Type := mk { item : option string; full : bool }.
End LocalStorage.

(** [localStorage.setItem] inside a [try]: a throw leaves the storage as
    it was. *)
Definition setItem (value : string) (storage : LocalStorage.t) : LocalStorage.t :=
  if LocalStorage.full storage then storage
  else LocalStorage.mk (Some value) (LocalStorage.full storage).

(** [{ ...DEFAULT_DATA, ...cloudData }]. *)
Definition spreadOver (DEFAULT_DATA : AppData.t) (cloudData : option PartialData.t)
  : AppData.t :=
  match cloudData with
  | None => DEFAULT_DATA
  | Some c =>
      AppData.mk
        (default (AppData.calibration_points DEFAULT_DATA)
                 (PartialData.calibration_points c))
        (default (AppData.spots DEFAULT_DATA) (PartialData.spots c))
  end.

Section Storage.

(** The constant of [constants.ts], and the JSON codec of the host. *)
Variable DEFAULT_DATA : AppData.t.
Variable stringify : PartialData.t -> string.
Variable parse : string -> Body.

Definition fetchAppData (response : Fetched) (storage : LocalStorage.t)
  : AppData.t * LocalStorage.t :=
  (* 1. Try Network *)
  let '(cloudData, storage1) :=
    match response with
    | Responded true (BodyObject c) => (Some c, setItem (stringify c) storage)
    | _ => (None, storage)
    end in
  (* 2. Try Local Storage if Cloud failed or empty *)
  let cloudData2 :=
    match cloudData with
    | Some c => Some c
    | None =>
        match LocalStorage.item storage1 with
        | Some local =>
            if bool_decide (local = EmptyString) then None
            else match parse local with
                 | BodyObject c => Some c
                 | _ => None
                 end
        | None => None
        end
    end in
  (* 3. Merge with default to ensure structure *)
  (spreadOver DEFAULT_DATA cloudData2, storage1).

(** [saveAppData]: [response] is the outcome of the POST. *)
Definition saveAppData (data : AppData.t) (response : Fetched)
    (storage : LocalStorage.t) : bool * LocalStorage.t :=
  let storage1 := setItem (stringify (toPartial data)) storage in
  match response with
  | Responded ok _ => (ok, storage1)
  | NetworkError => (false, storage1)
  end.

(** A response from which [fetchAppData] takes no data. *)
Definition offline (response : Fetched) : Prop :=
  match response with
  | Responded true (BodyObject _) => False
  | _ => True
  end.

End Storage.

(** A toy JSON codec that stores one known value under one text, and the
    data it is about. *)
Definition stored_data : AppData.t := AppData.mk sample_points [spot_guide].

Definition toy_stringify (c : PartialData.t) : string := "{stored}".

Definition toy_parse (text : string) : Body := BodyObject (toPartial stored_data).

(** ** [services/geo.ts] in the arithmetic of the code

    The same function over binary64 numbers, with every operation rounded
    as the processor rounds it.  [Math.sin], [Math.cos] and [Math.atan2]
    belong to the host; the function takes them as a record. *)

Module Double.
Import PrimFloat.
#[local] Open Scope float_scope.

Module Coord.
Record t := mk { lat : float; lng : float }.
End Coord.

(** The part of the host's [Math] object that [getDistanceMeters] calls. *)
Module MathLib.
Record t := mk {
  sin : float -> float;
  cos : float -> float;
  atan2 : float -> float -> float }.
End MathLib.

(** [Math.PI], the binary64 number nearest to pi. *)
Definition Math_PI : float := 0x1.921fb54442d18p+1.

(** [Math.sqrt] is the correctly rounded square root of IEEE-754. *)
Definition Math_sqrt : float -> float := sqrt.

(** [x === y] on two numbers. *)
Definition strict_eq (x y : float) : bool := x =? y.

Section Host.
Variable Math : MathLib.t.

(** The haversine intermediate value [a] of [getDistanceMeters]. *)
Definition haversine (c1 c2 : Coord.t) : float :=
  let φ1 := Coord.lat c1 * Math_PI / 180 in
  let φ2 := Coord.lat c2 * Math_PI / 180 in
  let Δφ := (Coord.lat c2 - Coord.lat c1) * Math_PI / 180 in
  let Δλ := (Coord.lng c2 - Coord.lng c1) * Math_PI / 180 in
  MathLib.sin Math (Δφ / 2) * MathLib.sin Math (Δφ / 2) +
  MathLib.cos Math φ1 * MathLib.cos Math φ2 *
  MathLib.sin Math (Δλ / 2) * MathLib.sin Math (Δλ / 2).

(** The inverse-trig step: the central angle [c] from [a]. *)
Definition centralAngle (a : float) : float :=
  2 * MathLib.atan2 Math (Math_sqrt a) (Math_sqrt (1 - a)).

Definition getDistanceMeters (c1 c2 : Coord.t) : float :=
  let R := 6371e3 in
  let a := haversine c1 c2 in
  let c := centralAngle a in
  R * c.

End Host.
End Double.

(** ** A host's [Math]: fdlibm

    JavaScript engines carry ports of fdlibm for [Math.sin], [Math.cos]
    and [Math.atan2] (V8 in [src/base/ieee754.cc], SpiderMonkey in
    [modules/fdlibm]).  The functions below follow fdlibm's [k_sin.c],
    [k_cos.c], [e_rem_pio2.c], [s_sin.c], [s_cos.c], [s_atan.c] and
    [e_atan2.c] operation by operation, with the tests on the words of a
    number written on [high_word] and [low_word].  [atan] and [atan2] are
    complete.  [sin] and [cos] are given for arguments below [3*pi/4] in
    magnitude and for infinite and NaN arguments; the argument reduction
    of larger arguments is not part of this development, and they return
    [None] there. *)

Module Fdlibm.
Import PrimFloat.
#[local] Open Scope float_scope.

(** [__HI(x) & 0x7fffffff]: the high 32 bits of [x] without the sign.
    NaN is the quiet NaN [0x7ff80000_00000000]. *)
Definition high_word (x : float) : Z :=
  match Prim2SF x with
  | S754_zero _ => 0
  | S754_infinity _ => 0x7ff00000
  | S754_nan => 0x7ff80000
  | S754_finite _ m e =>
      if (Z.pos m <? 2 ^ 52)%Z then (Z.pos m / 2 ^ 32)%Z
      else ((e + 1075) * 2 ^ 20 + (Z.pos m - 2 ^ 52) / 2 ^ 32)%Z
  end.

(** [__LO(x)]: the low 32 bits of [x]. *)
Definition low_word (x : float) : Z :=
  match Prim2SF x with
  | S754_finite _ m _ => (Z.pos m mod 2 ^ 32)%Z
  | _ => 0
  end.

(** The positive normal number with high word [hi] and low word 0. *)
Definition of_high_word (hi : Z) : float :=
  SF2Prim (S754_finite false (Z.to_pos (2 ^ 52 + (hi mod 2 ^ 20) * 2 ^ 32))
             (hi / 2 ^ 20 - 1075)).

Definition S1 : float := -0x1.5555555555549p-3.
Definition S2 : float := 0x1.111111110f8a6p-7.
Definition S3 : float := -0x1.a01a019c161d5p-13.
Definition S4 : float := 0x1.71de357b1fe7dp-19.
Definition S5 : float := -0x1.ae5e68a2b9cebp-26.
Definition S6 : float := 0x1.5d93a5acfd57cp-33.

(** [__kernel_sin(x, y, iy)]: sine of [x + y] for [|x| <= pi/4].  Below
    [2^-27] the test [(int)x == 0] of the source holds and [x] is
    returned. *)
Definition kernel_sin (x y : float) (iy : bool) : float :=
  let ix := high_word x in
  if (ix <? 0x3e400000)%Z then x
  else
    let z := x * x in
    let v := z * x in
    let r := S2 + z * (S3 + z * (S4 + z * (S5 + z * S6))) in
    if iy then x - ((z * (0.5 * y - v * r) - y) - v * S1)
    else x + v * (S1 + z * r).

Definition C1 : float := 0x1.555555555554cp-5.
Definition C2 : float := -0x1.6c16c16c15177p-10.
Definition C3 : float := 0x1.a01a019cb1590p-16.
Definition C4 : float := -0x1.27e4f809c52adp-22.
Definition C5 : float := 0x1.1ee9ebdb4b1c4p-29.
Definition C6 : float := -0x1.8fae9be8838d4p-37.

(** [__kernel_cos(x, y)]: cosine of [x + y] for [|x| <= pi/4].  Below
    [2^-27] the test [(int)x == 0] of the source holds and 1 is
    returned. *)
Definition kernel_cos (x y : float) : float :=
  let ix := high_word x in
  if (ix <? 0x3e400000)%Z then 1
  else
    let z := x * x in
    let r := z * (C1 + z * (C2 + z * (C3 + z * (C4 + z * (C5 + z * C6))))) in
    if (ix <? 0x3FD33333)%Z then 1 - (0.5 * z - (z * r - x * y))
    else
      let qx := if (0x3fe90000 <? ix)%Z then 0.28125
                else of_high_word (ix - 0x00200000) in
      let hz := 0.5 * z - qx in
      let a := 1 - qx in
      a - (hz - (z * r - x * y)).

Definition pio2_1 : float := 0x1.921fb54400000p+0.
Definition pio2_1t : float := 0x1.0b4611a626331p-34.
Definition pio2_2 : float := 0x1.0b4611a600000p-34.
Definition pio2_2t : float := 0x1.3198a2e037073p-69.

(** [__ieee754_rem_pio2(x, y)] in its special case [|x| < 3*pi/4]: the
    quadrant [n = +-1] and the remainder [y[0] + y[1]]. *)
Definition rem_pio2 (x : float) : Z * float * float :=
  let ix := high_word x in
  if negb (get_sign x) then
    let z := x - pio2_1 in
    if negb (ix =? 0x3ff921fb)%Z then
      let y0 := z - pio2_1t in
      let y1 := (z - y0) - pio2_1t in
      (1%Z, y0, y1)
    else
      let z := z - pio2_2 in
      let y0 := z - pio2_2t in
      let y1 := (z - y0) - pio2_2t in
      (1%Z, y0, y1)
  else
    let z := x + pio2_1 in
    if negb (ix =? 0x3ff921fb)%Z then
      let y0 := z + pio2_1t in
      let y1 := (z - y0) + pio2_1t in
      ((-1)%Z, y0, y1)
    else
      let z := z + pio2_2 in
      let y0 := z + pio2_2t in
      let y1 := (z - y0) + pio2_2t in
      ((-1)%Z, y0, y1).

Definition sin (x : float) : option float :=
  let ix := high_word x in
  if (ix <=? 0x3fe921fb)%Z then Some (kernel_sin x 0 false)
  else if (0x7ff00000 <=? ix)%Z then Some (x - x)
  else if (ix <? 0x4002d97c)%Z then
    let '(n, y0, y1) := rem_pio2 x in
    match Z.land n 3 with
    | 0%Z => Some (kernel_sin y0 y1 true)
    | 1%Z => Some (kernel_cos y0 y1)
    | 2%Z => Some (- kernel_sin y0 y1 true)
    | _ => Some (- kernel_cos y0 y1)
    end
  else None.

Definition cos (x : float) : option float :=
  let ix := high_word x in
  if (ix <=? 0x3fe921fb)%Z then Some (kernel_cos x 0)
  else if (0x7ff00000 <=? ix)%Z then Some (x - x)
  else if (ix <? 0x4002d97c)%Z then
    let '(n, y0, y1) := rem_pio2 x in
    match Z.land n 3 with
    | 0%Z => Some (kernel_cos y0 y1)
    | 1%Z => Some (- kernel_sin y0 y1 true)
    | 2%Z => Some (- kernel_cos y0 y1)
    | _ => Some (kernel_sin y0 y1 true)
    end
  else None.

Definition atanhi (id : Z) : float :=
  match id with
  | 0%Z => 0x1.dac670561bb4fp-2
  | 1%Z => 0x1.921fb54442d18p-1
  | 2%Z => 0x1.f730bd281f69bp-1
  | _ => 0x1.921fb54442d18p+0
  end.

Definition atanlo (id : Z) : float :=
  match id with
  | 0%Z => 0x1.a2b7f222f65e2p-56
  | 1%Z => 0x1.1a62633145c07p-55
  | 2%Z => 0x1.007887af0cbbdp-56
  | _ => 0x1.1a62633145c07p-54
  end.

Definition aT0 : float := 0x1.555555555550dp-2.
Definition aT1 : float := -0x1.999999998ebc4p-3.
Definition aT2 : float := 0x1.24924920083ffp-3.
Definition aT3 : float := -0x1.c71c6fe231671p-4.
Definition aT4 : float := 0x1.745cdc54c206ep-4.
Definition aT5 : float := -0x1.3b0f2af749a6dp-4.
Definition aT6 : float := 0x1.10d66a0d03d51p-4.
Definition aT7 : float := -0x1.dde2d52defd9ap-5.
Definition aT8 : float := 0x1.97b4b24760debp-5.
Definition aT9 : float := -0x1.2b4442c6a6c2fp-5.
Definition aT10 : float := 0x1.0ad3ae322da11p-6.

(** [huge = 1.0e300] and [tiny = 1.0e-300]. *)
Definition huge : float := 0x1.7e43c8800759cp+996.
Definition tiny : float := 0x1.56e1fc2f8f359p-997.

(** The polynomial of [atan] after the argument reduction to [x], with
    [id] the interval of the reduction ([-1] for none) and [neg] the sign
    of the argument. *)
Definition atan_poly (id : Z) (neg : bool) (x : float) : float :=
  let z := x * x in
  let w := z * z in
  let s1 := z * (aT0 + w * (aT2 + w * (aT4 + w * (aT6 + w * (aT8 + w * aT10))))) in
  let s2 := w * (aT1 + w * (aT3 + w * (aT5 + w * (aT7 + w * aT9)))) in
  if (id <? 0)%Z then x - x * (s1 + s2)
  else
    let z := atanhi id - ((x * (s1 + s2) - atanlo id) - x) in
    if neg then - z else z.

Definition atan (x : float) : float :=
  let ix := high_word x in
  let neg := get_sign x in
  if (0x44100000 <=? ix)%Z then
    if (0x7ff00000 <? ix)%Z || ((ix =? 0x7ff00000)%Z && negb (low_word x =? 0)%Z)
    then x + x
    else if neg then - atanhi 3 - atanlo 3 else atanhi 3 + atanlo 3
  else if (ix <? 0x3fdc0000)%Z then
    if (ix <? 0x3e200000)%Z && (1 <? huge + x) then x
    else atan_poly (-1) neg x
  else
    let x := abs x in
    if (ix <? 0x3ff30000)%Z then
      if (ix <? 0x3fe60000)%Z then atan_poly 0 neg ((2 * x - 1) / (2 + x))
      else atan_poly 1 neg ((x - 1) / (x + 1))
    else
      if (ix <? 0x40038000)%Z then atan_poly 2 neg ((x - 1.5) / (1 + 1.5 * x))
      else atan_poly 3 neg (-1 / x).

Definition pi : float := 0x1.921fb54442d18p+1.
Definition pi_o_2 : float := 0x1.921fb54442d18p+0.
Definition pi_o_4 : float := 0x1.921fb54442d18p-1.
Definition pi_lo : float := 0x1.1a62633145c07p-53.

Definition atan2 (y x : float) : float :=
  let ix := high_word x in
  let lx := low_word x in
  let iy := high_word y in
  let ly := low_word y in
  if (0x7ff00000 <? ix)%Z || (0x7ff00000 <? iy)%Z then x + y
  else if negb (get_sign x) && (ix =? 0x3ff00000)%Z && (lx =? 0)%Z then atan y
  else
    let m := ((if get_sign y then 1 else 0) + (if get_sign x then 2 else 0))%Z in
    if (iy =? 0)%Z && (ly =? 0)%Z then
      match m with
      | 0%Z | 1%Z => y
      | 2%Z => pi + tiny
      | _ => - pi - tiny
      end
    else if (ix =? 0)%Z && (lx =? 0)%Z then
      if get_sign y then - pi_o_2 - tiny else pi_o_2 + tiny
    else if (ix =? 0x7ff00000)%Z then
      if (iy =? 0x7ff00000)%Z then
        match m with
        | 0%Z => pi_o_4 + tiny
        | 1%Z => - pi_o_4 - tiny
        | 2%Z => 3 * pi_o_4 + tiny
        | _ => -3 * pi_o_4 - tiny
        end
      else
        match m with
        | 0%Z => 0
        | 1%Z => -0
        | 2%Z => pi + tiny
        | _ => - pi - tiny
        end
    else if (iy =? 0x7ff00000)%Z then
      if get_sign y then - pi_o_2 - tiny else pi_o_2 + tiny
    else
      let k := ((iy - ix) / 2 ^ 20)%Z in
      let z := if (60 <? k)%Z then pi_o_2 + 0.5 * pi_lo
               else if get_sign x && (k <? -60)%Z then 0
               else atan (abs (y / x)) in
      match m with
      | 0%Z => z
      | 1%Z => - z
      | 2%Z => pi - (z - pi_lo)
      | _ => (z - pi_lo) - pi
      end.

(** The host made of these functions.  Where [sin] and [cos] are not
    given, NaN stands for the missing value. *)
Definition host : Double.MathLib.t :=
  Double.MathLib.mk (fun x => default nan (sin x))
                    (fun x => default nan (cos x))
                    atan2.

End Fdlibm.

(** * Properties *)

(** ** Comparisons on the reals *)

Lemma Rltb_true (a b : R) : Rltb a b = true <-> a < b.
Proof. unfold Rltb. destruct (Rlt_dec a b); split; (congruence || tauto). Qed.

Lemma Rltb_false (a b : R) : Rltb a b = false <-> b <= a.
Proof.
  unfold Rltb. destruct (Rlt_dec a b); split; try congruence; try lra.
Qed.

Lemma Reqb_true (a b : R) : Reqb a b = true <-> a = b.
Proof. unfold Reqb. destruct (Req_dec_T a b); split; (congruence || tauto). Qed.

Lemma Reqb_false (a b : R) : Reqb a b = false <-> a <> b.
Proof. unfold Reqb. destruct (Req_dec_T a b); split; (congruence || tauto). Qed.

(** Case analysis on every real comparison met in the goal. *)
Ltac case_R :=
  repeat match goal with
    | |- context [Rltb ?a ?b] =>
        let H := fresh "Hlt" in
        destruct (Rltb a b) eqn:H;
        [apply Rltb_true in H | apply Rltb_false in H]
    | |- context [Reqb ?a ?b] =>
        let H := fresh "Heq" in
        destruct (Reqb a b) eqn:H;
        [apply Reqb_true in H | apply Reqb_false in H]
    end.

(** ** The solver: [getAffineTransform] and [latLngToPixel] *)

Lemma finite_inv (a : number) : Num.is_finite a -> exists r, a = Fin r.
Proof. destruct a; simpl; intros H; try contradiction. eauto. Qed.

Lemma det3_finite (i1 i2 i3 : number) (x1 y1 la1 ln1 x2 y2 la2 ln2 x3 y3 la3 ln3 : R) :
  det3 (CalibrationPoint.mk i1 (Fin x1) (Fin y1) (Fin la1) (Fin ln1))
       (CalibrationPoint.mk i2 (Fin x2) (Fin y2) (Fin la2) (Fin ln2))
       (CalibrationPoint.mk i3 (Fin x3) (Fin y3) (Fin la3) (Fin ln3))
  = Fin (geo_det la1 ln1 la2 ln2 la3 ln3).
Proof. unfold det3, geo_det. simpl. f_equal; try ring. Qed.

Lemma getAffineTransform_short (points : list CalibrationPoint.t) :
  (length points < 3)%nat -> getAffineTransform points = None.
Proof.
  intros H. unfold getAffineTransform.
  destruct (Nat.ltb_spec (length points) 3); [reflexivity | lia].
Qed.

Lemma getAffineTransform_cons3 (p1 p2 p3 : CalibrationPoint.t)
    (rest : list CalibrationPoint.t) :
  getAffineTransform (p1 :: p2 :: p3 :: rest) = getAffineTransform [p1; p2; p3].
Proof. reflexivity. Qed.

(** C8. The solver reads the first three points only: on a sequence of at
    least three points it returns what it returns on the first three, and
    two sequences that agree on their first three points get the same
    transform. *)
Theorem getAffineTransform_first_three (points : list CalibrationPoint.t) :
  (3 <= length points)%nat ->
  getAffineTransform points = getAffineTransform (take 3 points) /\
  (forall points' : list CalibrationPoint.t,
      take 3 points' = take 3 points ->
      getAffineTransform points' = getAffineTransform points).
Proof.
  intros Hlen.
  destruct points as [|p1 [|p2 [|p3 rest]]]; simpl in Hlen; try lia.
  split; [apply getAffineTransform_cons3 |].
  intros points' Htake.
  destruct points' as [|q1 [|q2 [|q3 rest']]]; simpl in Htake; try discriminate.
  injection Htake as -> -> ->.
  now rewrite !getAffineTransform_cons3.
Qed.

Lemma getAffineTransform_first_three_witness :
  (3 <= length sample_points)%nat /\
  getAffineTransform sample_points = getAffineTransform (take 3 sample_points) /\
  (forall points' : list CalibrationPoint.t,
      take 3 points' = take 3 sample_points ->
      getAffineTransform points' = getAffineTransform sample_points).
Proof.
  assert (Hlen : (3 <= length sample_points)%nat) by (simpl; lia).
  exact (conj Hlen (getAffineTransform_first_three sample_points Hlen)).
Defined.

(** With three points or more the test on the determinant decides. *)
Lemma getAffineTransform_cases (p1 p2 p3 : CalibrationPoint.t)
    (rest : list CalibrationPoint.t) :
  if (Math.abs (det3 p1 p2 p3) <? Fin 1e-9)%num
  then getAffineTransform (p1 :: p2 :: p3 :: rest) = None
  else exists t, getAffineTransform (p1 :: p2 :: p3 :: rest) = Some t.
Proof.
  unfold getAffineTransform. cbn [length Nat.ltb Nat.leb lookup list_lookup].
  destruct (Math.abs (det3 p1 p2 p3) <? Fin 1e-9)%num; [reflexivity |].
  eexists. reflexivity.
Qed.

(** C2. The solver returns null exactly on a degenerate input: fewer than
    three points, or a determinant of the first three points with
    [|det| < 1e-9]; on every other input it returns a transform. *)
Theorem getAffineTransform_null_iff (points : list CalibrationPoint.t) :
  getAffineTransform points = None <->
  ((length points < 3)%nat \/
   exists p1 p2 p3 rest,
     points = p1 :: p2 :: p3 :: rest /\
     (Math.abs (det3 p1 p2 p3) <? Fin 1e-9)%num = true).
Proof.
  split.
  - intros Hnone.
    destruct points as [|p1 [|p2 [|p3 rest]]]; simpl; try (left; lia).
    right. exists p1, p2, p3, rest. split; [reflexivity |].
    pose proof (getAffineTransform_cases p1 p2 p3 rest) as H.
    destruct (Math.abs (det3 p1 p2 p3) <? Fin 1e-9)%num; [reflexivity |].
    destruct H as [t Ht]. congruence.
  - intros [Hlen | (p1 & p2 & p3 & rest & -> & Hdet)].
    + now apply getAffineTransform_short.
    + pose proof (getAffineTransform_cases p1 p2 p3 rest) as H.
      now rewrite Hdet in H.
Qed.

(** Over real coordinates the degeneracy test is [|det| < 1e-9] on the
    real determinant; three points on one parallel are degenerate. *)
Lemma degenerate_finite (i1 i2 i3 : number)
    (x1 y1 la1 ln1 x2 y2 la2 ln2 x3 y3 la3 ln3 : R) :
  (Math.abs
     (det3 (CalibrationPoint.mk i1 (Fin x1) (Fin y1) (Fin la1) (Fin ln1))
           (CalibrationPoint.mk i2 (Fin x2) (Fin y2) (Fin la2) (Fin ln2))
           (CalibrationPoint.mk i3 (Fin x3) (Fin y3) (Fin la3) (Fin ln3)))
   <? Fin 1e-9)%num = true
  <-> Rabs (geo_det la1 ln1 la2 ln2 la3 ln3) < 1e-9.
Proof. rewrite det3_finite. simpl. apply Rltb_true. Qed.

Lemma getAffineTransform_same_latitude (la x1 y1 ln1 x2 y2 ln2 x3 y3 ln3 : R)
    (rest : list CalibrationPoint.t) :
  getAffineTransform
    (point_of_reals x1 y1 la ln1 ::
     point_of_reals x2 y2 la ln2 ::
     point_of_reals x3 y3 la ln3 :: rest) = None.
Proof.
  pose proof (getAffineTransform_cases
                (point_of_reals x1 y1 la ln1) (point_of_reals x2 y2 la ln2)
                (point_of_reals x3 y3 la ln3) rest) as H.
  assert (Hdet : (Math.abs (det3 (point_of_reals x1 y1 la ln1)
                                 (point_of_reals x2 y2 la ln2)
                                 (point_of_reals x3 y3 la ln3)) <? Fin 1e-9)%num
                 = true).
  { unfold point_of_reals. apply degenerate_finite. unfold geo_det.
    replace (la * (ln2 - ln3) + la * (ln3 - ln1) + la * (ln1 - ln2)) with 0
      by ring.
    rewrite Rabs_R0. lra. }
  now rewrite Hdet in H.
Qed.

Lemma finite_point_inv (p : CalibrationPoint.t) :
  finite_point p ->
  exists i x y la ln,
    p = CalibrationPoint.mk i (Fin x) (Fin y) (Fin la) (Fin ln).
Proof.
  destruct p as [i px py la ln]. unfold finite_point. simpl.
  intros (Hx & Hy & Hla & Hln).
  apply finite_inv in Hx as [x ->]. apply finite_inv in Hy as [y ->].
  apply finite_inv in Hla as [a ->]. apply finite_inv in Hln as [b ->].
  now exists i, x, y, a, b.
Qed.

(** The transform of three real points, when the solver returns one: the
    real determinant is away from zero and the coefficients are Cramer's. *)
Lemma getAffineTransform_finite (i1 i2 i3 : number)
    (x1 y1 la1 ln1 x2 y2 la2 ln2 x3 y3 la3 ln3 : R)
    (rest : list CalibrationPoint.t) (t : AffineTransform.t) :
  getAffineTransform
    (CalibrationPoint.mk i1 (Fin x1) (Fin y1) (Fin la1) (Fin ln1) ::
     CalibrationPoint.mk i2 (Fin x2) (Fin y2) (Fin la2) (Fin ln2) ::
     CalibrationPoint.mk i3 (Fin x3) (Fin y3) (Fin la3) (Fin ln3) :: rest)
  = Some t ->
  let det := geo_det la1 ln1 la2 ln2 la3 ln3 in
  1e-9 <= Rabs det /\
  t = AffineTransform.mk
        (Fin ((x1 * (ln2 - ln3) + x2 * (ln3 - ln1) + x3 * (ln1 - ln2)) / det))
        (Fin ((x1 * (la3 - la2) + x2 * (la1 - la3) + x3 * (la2 - la1)) / det))
        (Fin ((x1 * (la2 * ln3 - la3 * ln2) + x2 * (la3 * ln1 - la1 * ln3)
               + x3 * (la1 * ln2 - la2 * ln1)) / det))
        (Fin ((y1 * (ln2 - ln3) + y2 * (ln3 - ln1) + y3 * (ln1 - ln2)) / det))
        (Fin ((y1 * (la3 - la2) + y2 * (la1 - la3) + y3 * (la2 - la1)) / det))
        (Fin ((y1 * (la2 * ln3 - la3 * ln2) + y2 * (la3 * ln1 - la1 * ln3)
               + y3 * (la1 * ln2 - la2 * ln1)) / det)).
Proof.
  intros Ht det.
  unfold getAffineTransform in Ht.
  cbn [length Nat.ltb Nat.leb lookup list_lookup] in Ht.
  rewrite det3_finite in Ht. fold det in Ht.
  cbn [Math.abs Num.lt] in Ht.
  destruct (Rltb (Rabs det) 1e-9) eqn:Hdet; [discriminate |].
  apply Rltb_false in Hdet. split; [exact Hdet |].
  assert (Hnz : det <> 0).
  { intros E. rewrite E, Rabs_R0 in Hdet. lra. }
  apply Reqb_false in Hnz.
  cbn [CalibrationPoint.pixel_x CalibrationPoint.pixel_y
       CalibrationPoint.lat CalibrationPoint.lng
       Num.add Num.sub Num.mul Num.neg Num.div] in Ht.
  rewrite Hnz in Ht. injection Ht as <-. reflexivity.
Qed.

(** C1. Round trip of the calibration: when the solver returns a transform
    for points with real coordinates, projecting the geographic position
    of each of the first three points gives back its pixel position,
    exactly. *)
Theorem calibration_round_trip (points : list CalibrationPoint.t)
    (t : AffineTransform.t) (i : nat) (p : CalibrationPoint.t) :
  Forall finite_point (take 3 points) ->
  getAffineTransform points = Some t ->
  (i < 3)%nat ->
  points !! i = Some p ->
  latLngToPixel (CalibrationPoint.lat p) (CalibrationPoint.lng p) (Some t)
  = Some (PixelCoord.mk (CalibrationPoint.pixel_x p) (CalibrationPoint.pixel_y p)).
Proof.
  intros Hfin Ht Hi Hp.
  destruct points as [|p1 [|p2 [|p3 rest]]];
    try (rewrite getAffineTransform_short in Ht by (simpl; lia); discriminate).
  cbn [take] in Hfin.
  apply Forall_cons in Hfin as [H1 Hfin].
  apply Forall_cons in Hfin as [H2 Hfin].
  apply Forall_cons in Hfin as [H3 _].
  apply finite_point_inv in H1 as (i1 & x1 & y1 & la1 & ln1 & ->).
  apply finite_point_inv in H2 as (i2 & x2 & y2 & la2 & ln2 & ->).
  apply finite_point_inv in H3 as (i3 & x3 & y3 & la3 & ln3 & ->).
  apply getAffineTransform_finite in Ht as [Hdet ->].
  assert (Hnz : geo_det la1 ln1 la2 ln2 la3 ln3 <> 0).
  { intros E. rewrite E, Rabs_R0 in Hdet. lra. }
  destruct i as [|[|[|i]]]; try lia; simpl in Hp; injection Hp as <-;
    simpl; unfold geo_det in *; f_equal; f_equal; f_equal; field; exact Hnz.
Qed.

(** ** Arithmetic of finite numbers *)

Lemma div_fin (r s : R) : s <> 0 -> (Fin r / Fin s)%num = Fin (r / s).
Proof. intros H. simpl. apply Reqb_false in H. now rewrite H. Qed.

Lemma sqrt_fin (r : R) : 0 <= r -> Math.sqrt (Fin r) = Fin (sqrt r).
Proof.
  intros H. simpl. destruct (Rltb r 0) eqn:E; [|reflexivity].
  apply Rltb_true in E. lra.
Qed.

Lemma sqrt_neg (r : R) : r < 0 -> Math.sqrt (Fin r) = NaN.
Proof. intros H. simpl. apply Rltb_true in H. now rewrite H. Qed.

Lemma lt_PInf_false (a b : number) : a = PInf \/ a = NaN -> (a <? b)%num = false.
Proof. intros [-> | ->]; destruct b; reflexivity. Qed.

(** ** Great-circle distance: [getDistanceMeters] *)

Lemma haversine_finite (la1 ln1 la2 ln2 : R) :
  haversine (Coord.mk (Fin la1) (Fin ln1)) (Coord.mk (Fin la2) (Fin ln2))
  = Fin (hav_R la1 ln1 la2 ln2).
Proof.
  unfold haversine, hav_R, Math.PI.
  cbn [Coord.lat Coord.lng Num.sub Num.neg Num.add Num.mul].
  rewrite !div_fin by lra.
  cbn [Math.sin Math.cos Num.mul Num.add]. reflexivity.
Qed.

Lemma hav_R_range (la1 ln1 la2 ln2 : R) : 0 <= hav_R la1 ln1 la2 ln2 <= 1.
Proof.
  unfold hav_R.
  set (u := (la2 - la1) * PI / 180 / 2).
  set (v := (la1 + la2) * PI / 180 / 2).
  set (w := (ln2 - ln1) * PI / 180 / 2).
  replace (la1 * PI / 180) with (v - u) by (unfold u, v; field).
  replace (la2 * PI / 180) with (v + u) by (unfold u, v; field).
  rewrite cos_minus, cos_plus.
  pose proof (sin2_cos2 u) as Hu. pose proof (sin2_cos2 v) as Hv.
  pose proof (sin2_cos2 w) as Hw. unfold Rsqr in *.
  generalize dependent (sin u). generalize dependent (cos u).
  generalize dependent (sin v). generalize dependent (cos v).
  generalize dependent (sin w). generalize dependent (cos w).
  intros cw sw Hw cv sv Hv cu su Hu.
  assert (HS : 0 <= sw * sw <= 1) by nra.
  assert (HX : 0 <= su * su <= 1) by nra.
  assert (HY : 0 <= cv * cv <= 1) by nra.
  assert (E : su * su + (cv * cu + sv * su) * (cv * cu - sv * su) * sw * sw
              = su * su * (1 - sw * sw) + cv * cv * (sw * sw)).
  { transitivity
      (su * su + (cv * cv * (cu * cu) - (sv * sv) * (su * su)) * (sw * sw));
      [ring |].
    replace (cu * cu) with (1 - su * su) by lra.
    replace (sv * sv) with (1 - cv * cv) by lra. ring. }
  rewrite E. nra.
Qed.

Lemma hav_R_sym (la1 ln1 la2 ln2 : R) :
  hav_R la1 ln1 la2 ln2 = hav_R la2 ln2 la1 ln1.
Proof.
  unfold hav_R.
  replace ((la1 - la2) * PI / 180 / 2) with (- ((la2 - la1) * PI / 180 / 2))
    by field.
  replace ((ln1 - ln2) * PI / 180 / 2) with (- ((ln2 - ln1) * PI / 180 / 2))
    by field.
  rewrite !sin_neg. ring.
Qed.

Lemma hav_R_refl (la ln : R) : hav_R la ln la ln = 0.
Proof.
  unfold hav_R.
  replace ((la - la) * PI / 180 / 2) with 0 by field.
  replace ((ln - ln) * PI / 180 / 2) with 0 by field.
  rewrite sin_0. ring.
Qed.

Lemma atan_nonneg (x : R) : 0 <= x -> 0 <= atan x.
Proof.
  intros [H | <-].
  - apply atan_increasing in H. rewrite atan_0 in H. lra.
  - rewrite atan_0. lra.
Qed.

(** Inside [[0,1]] the inverse-trig step gives an angle in [[0, PI]]. *)
Lemma centralAngle_range (a : R) :
  0 <= a <= 1 ->
  exists c, centralAngle (Fin a) = Fin c /\ 0 <= c <= Rtrigo1.PI.
Proof.
  intros Ha. unfold centralAngle.
  rewrite sqrt_fin by lra.
  cbn [Num.sub Num.neg Num.add]. rewrite sqrt_fin by lra.
  pose proof (sqrt_pos a) as Hy. pose proof (sqrt_pos (1 + - a)) as Hx.
  pose proof PI_RGT_0 as Hpi.
  unfold Math.atan2. case_R; cbn [Num.mul]; eexists; (split; [reflexivity |]);
    try lra.
  pose proof (atan_bound (sqrt a / sqrt (1 + - a))) as Hb.
  assert (0 <= atan (sqrt a / sqrt (1 + - a))).
  { apply atan_nonneg. apply Rle_mult_inv_pos; lra. }
  lra.
Qed.

(** Outside [[0,1]] it gives NaN: the code passes [a] to the two square
    roots as it is. *)
Lemma centralAngle_outside (a : R) :
  a < 0 \/ 1 < a -> centralAngle (Fin a) = NaN.
Proof.
  intros [Ha | Ha]; unfold centralAngle.
  - now rewrite sqrt_neg.
  - cbn [Num.sub Num.neg Num.add]. rewrite (sqrt_neg (1 + - a)) by lra.
    destruct (Math.sqrt (Fin a)); reflexivity.
Qed.

Lemma centralAngle_cases (a : number) :
  centralAngle a = NaN \/ exists c, centralAngle a = Fin c /\ 0 <= c.
Proof.
  destruct a as [r | | |]; try (left; reflexivity).
  destruct (Rlt_dec r 0) as [Hneg | Hpos].
  { left. apply centralAngle_outside. now left. }
  destruct (Rlt_dec 1 r) as [Hbig | Hsmall].
  { left. apply centralAngle_outside. now right. }
  right. destruct (centralAngle_range r) as (c & Hc & Hr); [lra |].
  exists c. split; [exact Hc | lra].
Qed.

(** The distance is a non-negative real or NaN, whatever the input. *)
Lemma getDistanceMeters_cases (c1 c2 : Coord.t) :
  getDistanceMeters c1 c2 = NaN \/
  exists d, getDistanceMeters c1 c2 = Fin d /\ 0 <= d.
Proof.
  unfold getDistanceMeters.
  destruct (centralAngle_cases (haversine c1 c2)) as [-> | (c & -> & Hc)].
  - left. reflexivity.
  - right. eexists. split; [reflexivity |]. nra.
Qed.

Lemma getDistanceMeters_finite (la1 ln1 la2 ln2 : R) :
  exists d,
    getDistanceMeters (Coord.mk (Fin la1) (Fin ln1)) (Coord.mk (Fin la2) (Fin ln2))
    = Fin d /\ 0 <= d <= 6371e3 * Rtrigo1.PI.
Proof.
  unfold getDistanceMeters. rewrite haversine_finite.
  destruct (centralAngle_range _ (hav_R_range la1 ln1 la2 ln2)) as (c & -> & Hc).
  eexists. split; [reflexivity |]. nra.
Qed.

Lemma inf_sign_not_finite (r : R) : ~ Num.is_finite (Num.inf_sign r).
Proof. unfold Num.inf_sign. case_R; simpl; tauto. Qed.

Lemma sub_not_finite (a b : number) :
  ~ Num.is_finite a \/ ~ Num.is_finite b -> ~ Num.is_finite (a - b)%num.
Proof. destruct a, b; simpl; tauto. Qed.

Lemma mul_fin_not_finite (a : number) (r : R) :
  ~ Num.is_finite a -> ~ Num.is_finite (a * Fin r)%num.
Proof.
  destruct a; cbn [Num.mul]; try (simpl; tauto);
    intros _; apply inf_sign_not_finite.
Qed.

Lemma div_fin_not_finite (a : number) (r : R) :
  ~ Num.is_finite a -> ~ Num.is_finite (a / Fin r)%num.
Proof. destruct a; cbn [Num.div]; try (simpl; tauto); case_R; simpl; tauto. Qed.

Lemma sin_not_finite (a : number) : ~ Num.is_finite a -> Math.sin a = NaN.
Proof. destruct a; simpl; tauto. Qed.

Lemma add_nan_l (a : number) : (NaN + a)%num = NaN.
Proof. reflexivity. Qed.

Lemma add_nan_r (a : number) : (a + NaN)%num = NaN.
Proof. now destruct a. Qed.

Lemma mul_nan_r (a : number) : (a * NaN)%num = NaN.
Proof. now destruct a. Qed.

(** A coordinate with a field that is not a real number gives NaN. *)
Lemma getDistanceMeters_not_finite (c1 c2 : Coord.t) :
  ~ (finite_coord c1 /\ finite_coord c2) -> getDistanceMeters c1 c2 = NaN.
Proof.
  intros Hnf.
  assert (Ha : haversine c1 c2 = NaN).
  { unfold haversine. cbv zeta.
    destruct c1 as [la1 ln1], c2 as [la2 ln2]. unfold finite_coord in Hnf.
    cbn [Coord.lat Coord.lng] in *.
    assert (Hcase : (~ Num.is_finite la2 \/ ~ Num.is_finite la1) \/
                    (~ Num.is_finite ln2 \/ ~ Num.is_finite ln1)).
    { destruct la1, la2, ln1, ln2; simpl in *; tauto. }
    destruct Hcase as [Hla | Hln].
    - rewrite (sin_not_finite ((la2 - la1) * Math.PI / Fin 180 / Fin 2)%num).
      + reflexivity.
      + now apply div_fin_not_finite, div_fin_not_finite, mul_fin_not_finite,
          sub_not_finite.
    - rewrite (sin_not_finite ((ln2 - ln1) * Math.PI / Fin 180 / Fin 2)%num).
      + now rewrite !mul_nan_r, add_nan_r.
      + now apply div_fin_not_finite, div_fin_not_finite, mul_fin_not_finite,
          sub_not_finite. }
  unfold getDistanceMeters. now rewrite Ha.
Qed.

Lemma centralAngle_0 : centralAngle (Fin 0) = Fin 0.
Proof.
  unfold centralAngle. rewrite sqrt_fin by lra.
  cbn [Num.sub Num.neg Num.add]. rewrite sqrt_fin by lra.
  replace (1 + - 0) with 1 by ring. rewrite sqrt_0, sqrt_1.
  unfold Math.atan2.
  assert (H : Rltb 0 1 = true) by (apply Rltb_true; lra). rewrite H.
  replace (0 / 1) with 0 by field. rewrite atan_0.
  cbn [Num.mul]. f_equal. ring.
Qed.

Lemma finite_coord_inv (c : Coord.t) :
  finite_coord c -> exists la ln, c = Coord.mk (Fin la) (Fin ln).
Proof.
  destruct c as [la ln]. unfold finite_coord. simpl. intros [Hla Hln].
  apply finite_inv in Hla as [a ->]. apply finite_inv in Hln as [b ->].
  now exists a, b.
Qed.

Lemma strict_eq_refl_fin (r : R) : (Fin r === Fin r)%num = true.
Proof. simpl. now apply Reqb_true. Qed.

(** In exact arithmetic, on coordinates made of real numbers, the
    distance from a point to itself is 0 and the distance is symmetric:
    the two calls return the same finite number, which [===] accepts as
    equal. *)
Theorem getDistanceMeters_zero_and_symmetric (a b : Coord.t) :
  finite_coord a ->
  finite_coord b ->
  getDistanceMeters a a = Fin 0 /\
  getDistanceMeters a b = getDistanceMeters b a /\
  (getDistanceMeters a b === getDistanceMeters b a)%num = true.
Proof.
  intros Ha Hb.
  apply finite_coord_inv in Ha as (la1 & ln1 & ->).
  apply finite_coord_inv in Hb as (la2 & ln2 & ->).
  assert (Hsym :
    getDistanceMeters (Coord.mk (Fin la1) (Fin ln1)) (Coord.mk (Fin la2) (Fin ln2))
    = getDistanceMeters (Coord.mk (Fin la2) (Fin ln2)) (Coord.mk (Fin la1) (Fin ln1))).
  { unfold getDistanceMeters. rewrite !haversine_finite.
    now rewrite (hav_R_sym la1 ln1 la2 ln2). }
  split; [| split].
  - unfold getDistanceMeters.
    rewrite haversine_finite, hav_R_refl, centralAngle_0.
    cbn [Num.mul]. f_equal. ring.
  - exact Hsym.
  - rewrite <- Hsym.
    destruct (getDistanceMeters_finite la1 ln1 la2 ln2) as (d & -> & _).
    apply strict_eq_refl_fin.
Qed.

Lemma getDistanceMeters_zero_and_symmetric_witness :
  let a := coord_of_reals 24.1 121.1 in
  let b := coord_of_reals 24.2 121.3 in
  finite_coord a /\ finite_coord b /\
  getDistanceMeters a a = Fin 0 /\
  getDistanceMeters a b = getDistanceMeters b a /\
  (getDistanceMeters a b === getDistanceMeters b a)%num = true.
Proof.
  assert (Ha : finite_coord (coord_of_reals 24.1 121.1)) by (split; exact I).
  assert (Hb : finite_coord (coord_of_reals 24.2 121.3)) by (split; exact I).
  exact (conj Ha (conj Hb
           (getDistanceMeters_zero_and_symmetric
              (coord_of_reals 24.1 121.1) (coord_of_reals 24.2 121.3) Ha Hb))).
Defined.

(** In exact arithmetic, on real coordinates, the haversine value lies in
    [[0,1]] by itself, so both square roots get a non-negative argument
    and the distance is a real number between 0 and half the
    circumference; a value outside [[0,1]] handed to the inverse-trig step
    comes out as NaN. *)
Theorem getDistanceMeters_defined_without_clamp (la1 ln1 la2 ln2 : R) :
  let c1 := Coord.mk (Fin la1) (Fin ln1) in
  let c2 := Coord.mk (Fin la2) (Fin ln2) in
  (exists a, haversine c1 c2 = Fin a /\ 0 <= a <= 1) /\
  (exists d, getDistanceMeters c1 c2 = Fin d /\ 0 <= d <= 6371e3 * Rtrigo1.PI) /\
  (forall a : R, a < 0 \/ 1 < a -> centralAngle (Fin a) = NaN).
Proof.
  intros c1 c2. split; [| split].
  - exists (hav_R la1 ln1 la2 ln2).
    split; [apply haversine_finite | apply hav_R_range].
  - apply getDistanceMeters_finite.
  - apply centralAngle_outside.
Qed.

(** In the same model, a coordinate that is not a number gives NaN, and
    the inverse-trig step turns the smallest overshoot above 1 into NaN,
    which a clamp to [[0,1]] would have turned into [PI]. *)
Lemma getDistanceMeters_nan_counterexample :
  getDistanceMeters (Coord.mk NaN (Fin 0)) (Coord.mk (Fin 0) (Fin 0)) = NaN /\
  centralAngle (Fin 1.0000000000000002) = NaN /\
  (Fin 6371e3 * centralAngle (Fin 1.0000000000000002))%num = NaN.
Proof.
  split; [reflexivity |].
  assert (H : centralAngle (Fin 1.0000000000000002) = NaN)
    by (apply centralAngle_outside; right; lra).
  split; [exact H | now rewrite H].
Qed.

Lemma sample_points_transform :
  exists t, getAffineTransform sample_points = Some t.
Proof.
  pose proof (getAffineTransform_cases
                (point_of_reals 0 0 0 0) (point_of_reals 10 0 0 1)
                (point_of_reals 0 10 1 0) [point_of_reals 7 7 5 5]) as H.
  destruct (Math.abs _ <? Fin 1e-9)%num eqn:E; [| exact H].
  unfold point_of_reals in E. apply degenerate_finite in E. unfold geo_det in E.
  replace (0 * (1 - 0) + 0 * (0 - 0) + 1 * (0 - 1)) with (-1) in E by ring.
  revert E. unfold Rabs. destruct (Rcase_abs (-1)); lra.
Qed.

Lemma calibration_round_trip_witness :
  exists t,
    Forall finite_point (take 3 sample_points) /\
    getAffineTransform sample_points = Some t /\
    (1 < 3)%nat /\
    sample_points !! 1%nat = Some (point_of_reals 10 0 0 1) /\
    latLngToPixel (Fin 0) (Fin 1) (Some t) = Some (PixelCoord.mk (Fin 10) (Fin 0)).
Proof.
  destruct sample_points_transform as [t Ht]. exists t.
  assert (Hfin : Forall finite_point (take 3 sample_points))
    by (repeat constructor).
  assert (Hi : (1 < 3)%nat) by lia.
  assert (Hp : sample_points !! 1%nat = Some (point_of_reals 10 0 0 1))
    by reflexivity.
  exact (conj Hfin (conj Ht (conj Hi (conj Hp
           (calibration_round_trip sample_points t 1
              (point_of_reals 10 0 0 1) Hfin Ht Hi Hp))))).
Defined.

(** ** Order on numbers *)

Lemma lt_irrefl (a : number) : (a <? a)%num = false.
Proof. destruct a; simpl; try reflexivity. apply Rltb_false. lra. Qed.

Lemma lt_trans (a b c : number) :
  (a <? b)%num = true -> (b <? c)%num = true -> (a <? c)%num = true.
Proof.
  destruct a, b, c; simpl; try congruence.
  rewrite !Rltb_true. lra.
Qed.

Lemma lt_asym (a b : number) : (a <? b)%num = true -> (b <? a)%num = false.
Proof.
  destruct a, b; simpl; try congruence.
  rewrite Rltb_true, Rltb_false. lra.
Qed.

Lemma lt_not_nan (a b : number) : (a <? b)%num = true -> a <> NaN /\ b <> NaN.
Proof. destruct a, b; simpl; try congruence; split; congruence. Qed.

Lemma lt_total (a b : number) :
  a <> NaN -> b <> NaN ->
  (a <? b)%num = false -> (b <? a)%num = false -> a = b.
Proof.
  destruct a, b; simpl; try congruence.
  rewrite !Rltb_false. intros _ _ H1 H2. f_equal. lra.
Qed.

(** A value that did not replace the minimum is NaN or above every value
    that is below the minimum. *)
Lemma lt_not_below (a b m : number) :
  (a <? m)%num = false -> (b <? m)%num = true ->
  a = NaN \/ (b <? a)%num = true.
Proof.
  destruct a, b, m; simpl; try congruence; auto.
  rewrite Rltb_false, !Rltb_true. intros. right. lra.
Qed.

(** ** The selection loop *)

Lemma nearestStep_pick (up : PixelCoord.t) (t : AffineTransform.t)
    (d : AppData.t) (p1 p2 : CalibrationPoint.t)
    (rest : list CalibrationPoint.t) (acc : number * option Spot.t)
    (spot : Spot.t) :
  AppData.calibration_points d = p1 :: p2 :: rest ->
  nearestStep (Some up) (Some t) d acc spot = pick (spotDistM up p1 p2) acc spot.
Proof. intros H. unfold nearestStep. rewrite H. reflexivity. Qed.

Lemma fold_left_ext_acc {A B : Type} (f g : A -> B -> A) (l : list B) (a : A) :
  (forall x y, f x y = g x y) -> fold_left f l a = fold_left g l a.
Proof.
  intros H. revert a. induction l as [|y l IH]; intros a; simpl; [reflexivity |].
  now rewrite H, IH.
Qed.

Lemma nearest_pick (up : PixelCoord.t) (t : AffineTransform.t)
    (d : AppData.t) (p1 p2 : CalibrationPoint.t)
    (rest : list CalibrationPoint.t) :
  AppData.calibration_points d = p1 :: p2 :: rest ->
  nearest (Some up) (Some t) d
  = fold_left (pick (spotDistM up p1 p2)) (AppData.spots d) (PInf, None).
Proof.
  intros H. unfold nearest. apply fold_left_ext_acc.
  intros acc spot. now apply (nearestStep_pick up t d p1 p2 rest).
Qed.

(** What the loop leaves in its accumulator: either nothing replaced the
    initial value, or the spot at some index [k] did, its distance is below
    the initial value and no distance is below it, and every earlier
    distance is NaN or strictly above it. *)
Lemma fold_pick_spec (f : Spot.t -> number) (l : list Spot.t)
    (m : number) (c : option Spot.t) :
  (fold_left (pick f) l (m, c) = (m, c) /\
   forall j s, l !! j = Some s -> (f s <? m)%num = false)
  \/
  (exists k s,
      l !! k = Some s /\
      fold_left (pick f) l (m, c) = (f s, Some s) /\
      (f s <? m)%num = true /\
      (forall j s', l !! j = Some s' -> (f s' <? f s)%num = false) /\
      (forall j s', (j < k)%nat -> l !! j = Some s' ->
                    f s' = NaN \/ (f s <? f s')%num = true)).
Proof.
  revert m c. induction l as [|x l IH]; intros m c.
  { left. split; [reflexivity |]. intros j s Hj. discriminate. }
  cbn [fold_left].
  replace (pick f (m, c) x)
    with (if (f x <? m)%num then (f x, Some x) else (m, c)) by reflexivity.
  destruct (f x <? m)%num eqn:Hx.
  - right. destruct (IH (f x) (Some x)) as [[Hfold Hall] | (k & s & Hk & Hfold & Hlt & Hmin & Hbefore)].
    + exists 0%nat, x. split; [reflexivity |]. split; [exact Hfold |].
      split; [exact Hx |]. split.
      * intros [|j] s' Hj; simpl in Hj.
        -- injection Hj as <-. apply lt_irrefl.
        -- now apply (Hall j).
      * intros j s' Hj. lia.
    + exists (S k), s. split; [exact Hk |]. split; [exact Hfold |].
      split; [now apply (lt_trans _ (f x)) |]. split.
      * intros [|j] s' Hj; simpl in Hj.
        -- injection Hj as <-. now apply lt_asym.
        -- now apply (Hmin j).
      * intros [|j] s' Hlt' Hj; simpl in Hj.
        -- injection Hj as <-. now right.
        -- apply (Hbefore j); [lia | exact Hj].
  - destruct (IH m c) as [[Hfold Hall] | (k & s & Hk & Hfold & Hlt & Hmin & Hbefore)].
    + left. split; [exact Hfold |].
      intros [|j] s' Hj; simpl in Hj.
      * now injection Hj as <-.
      * now apply (Hall j).
    + right. exists (S k), s. split; [exact Hk |]. split; [exact Hfold |].
      split; [exact Hlt |]. split.
      * intros [|j] s' Hj; simpl in Hj.
        -- injection Hj as <-.
           destruct (f x <? f s)%num eqn:E; [| reflexivity].
           rewrite (lt_trans _ _ _ E Hlt) in Hx. discriminate.
        -- now apply (Hmin j).
      * intros [|j] s' Hlt' Hj; simpl in Hj.
        -- injection Hj as <-. now apply (lt_not_below _ _ m).
        -- apply (Hbefore j); [lia | exact Hj].
Qed.
(** C7. When the scale is available, the loop selects the first spot that
    attains the smallest distance: if the spot at index [k] has a usable
    distance, no spot has a strictly smaller one, and no earlier spot has
    the same one, then [closest] is that spot and [minDist] its distance.
    Later spots at the same distance do not replace it. *)
Theorem nearest_first_minimum (up : PixelCoord.t) (t : AffineTransform.t)
    (d : AppData.t) (p1 p2 : CalibrationPoint.t)
    (rest : list CalibrationPoint.t) (k : nat) (s : Spot.t) :
  transform (Some d) = Some t ->
  AppData.calibration_points d = p1 :: p2 :: rest ->
  AppData.spots d !! k = Some s ->
  (spotDistM up p1 p2 s <? PInf)%num = true ->
  (forall j s', AppData.spots d !! j = Some s' ->
                (spotDistM up p1 p2 s' <? spotDistM up p1 p2 s)%num = false) ->
  (forall j s', (j < k)%nat -> AppData.spots d !! j = Some s' ->
                spotDistM up p1 p2 s' <> spotDistM up p1 p2 s) ->
  nearest (Some up) (transform (Some d)) d = (spotDistM up p1 p2 s, Some s).
Proof.
  intros Ht Hcps Hk Husable Hmin Hfirst.
  rewrite Ht, (nearest_pick up t d p1 p2 rest Hcps).
  set (f := spotDistM up p1 p2) in *.
  destruct (fold_pick_spec f (AppData.spots d) PInf None)
    as [[_ Hall] | (k' & s' & Hk' & Hfold & Hlt & Hmin' & Hbefore)].
  { rewrite (Hall k s Hk) in Husable. discriminate. }
  rewrite Hfold.
  destruct (lt_eq_lt_dec k' k) as [[Hlt' | ->] | Hgt].
  - exfalso. apply (Hfirst k' s' Hlt' Hk').
    apply lt_total.
    + apply (proj1 (lt_not_nan _ _ Hlt)).
    + apply (proj1 (lt_not_nan _ _ Husable)).
    + apply (Hmin k' s' Hk').
    + apply (Hmin' k s Hk).
  - rewrite Hk in Hk'. now injection Hk' as <-.
  - exfalso. destruct (Hbefore k s Hgt Hk) as [Hnan | Hbelow].
    + now apply (proj1 (lt_not_nan _ _ Husable)).
    + rewrite (Hmin k' s' Hk') in Hbelow. discriminate.
Qed.

(** ** Degenerate scale *)

Lemma sqrt_cases (a : number) :
  Math.sqrt a = NaN \/ Math.sqrt a = PInf \/
  exists r, Math.sqrt a = Fin r /\ 0 <= r.
Proof.
  destruct a as [r | | |]; simpl; auto.
  destruct (Rltb r 0); auto.
  right. right. eexists. split; [reflexivity | apply sqrt_pos].
Qed.

Lemma pow2_sub_self (a : number) :
  Math.pow (a - a) 2 = NaN \/ exists r, Math.pow (a - a) 2 = Fin r /\ r = 0.
Proof.
  destruct a as [r | | |]; simpl; auto.
  right. eexists. split; [reflexivity | ring].
Qed.

Lemma distPixels_degenerate (a b : number) :
  Math.sqrt (Math.pow (a - a) 2 + Math.pow (b - b) 2)%num = NaN \/
  exists r, Math.sqrt (Math.pow (a - a) 2 + Math.pow (b - b) 2)%num = Fin r
            /\ r = 0.
Proof.
  destruct (pow2_sub_self a) as [-> | (x & -> & ->)];
    destruct (pow2_sub_self b) as [-> | (y & -> & ->)]; auto.
  right. cbn [Num.add]. rewrite sqrt_fin by lra.
  eexists. split; [reflexivity |].
  replace (0 + 0) with 0 by ring. apply sqrt_0.
Qed.

(** With the first two calibration points at the same pixel the ratio is
    a division by zero: [Infinity] or NaN, never a number. *)
Lemma metersPerPixel_degenerate (p1 p2 : CalibrationPoint.t) :
  CalibrationPoint.pixel_x p1 = CalibrationPoint.pixel_x p2 ->
  CalibrationPoint.pixel_y p1 = CalibrationPoint.pixel_y p2 ->
  metersPerPixel p1 p2 = PInf \/ metersPerPixel p1 p2 = NaN.
Proof.
  intros Hx Hy. unfold metersPerPixel. rewrite Hx, Hy.
  destruct (distPixels_degenerate (CalibrationPoint.pixel_x p2)
              (CalibrationPoint.pixel_y p2)) as [-> | (z & -> & ->)];
    destruct (getDistanceMeters_cases
                (Coord.mk (CalibrationPoint.lat p1) (CalibrationPoint.lng p1))
                (Coord.mk (CalibrationPoint.lat p2) (CalibrationPoint.lng p2)))
      as [-> | (m & -> & Hm)]; auto.
  cbn [Num.div].
  assert (E : Reqb 0 0 = true) by now apply Reqb_true. rewrite E.
  unfold Num.inf_sign. case_R; auto. lra.
Qed.

Lemma spotDistM_degenerate (up : PixelCoord.t) (p1 p2 : CalibrationPoint.t)
    (spot : Spot.t) :
  CalibrationPoint.pixel_x p1 = CalibrationPoint.pixel_x p2 ->
  CalibrationPoint.pixel_y p1 = CalibrationPoint.pixel_y p2 ->
  spotDistM up p1 p2 spot = PInf \/ spotDistM up p1 p2 spot = NaN.
Proof.
  intros Hx Hy. unfold spotDistM, pixelDist.
  destruct (metersPerPixel_degenerate p1 p2 Hx Hy) as [-> | ->];
    destruct (sqrt_cases
      ((PixelCoord.x up - Spot.pixel_x spot) * (PixelCoord.x up - Spot.pixel_x spot) +
       (PixelCoord.y up - Spot.pixel_y spot) * (PixelCoord.y up - Spot.pixel_y spot))%num)
      as [-> | [-> | (r & -> & Hr)]]; auto.
  cbn [Num.mul]. unfold Num.inf_sign. case_R; auto. lra.
Qed.

Lemma fold_left_fixed {A B : Type} (f : A -> B -> A) (l : list B) (a : A) :
  (forall y, f a y = a) -> fold_left f l a = a.
Proof.
  intros H. induction l as [|y l IH]; simpl; [reflexivity |].
  now rewrite H.
Qed.

Lemma nearest_scale_unavailable (userPixel : option PixelCoord.t)
    (t : option AffineTransform.t) (d : AppData.t) :
  scale_unavailable d -> nearest userPixel t d = (PInf, None).
Proof.
  intros Hscale. unfold nearest. apply fold_left_fixed. intros spot.
  unfold nearestStep.
  destruct userPixel as [up |]; [| reflexivity].
  destruct t as [t |]; [| reflexivity].
  destruct Hscale as [Hlen | (p1 & p2 & rest & Hcps & Hx & Hy)].
  - destruct (Nat.leb_spec 2 (length (AppData.calibration_points d)));
      [lia | reflexivity].
  - rewrite Hcps. cbn [length Nat.leb lookup list_lookup fst].
    fold (spotDistM up p1 p2 spot).
    now rewrite lt_PInf_false by (apply spotDistM_degenerate; assumption).
Qed.

(** C5. When the scale is unavailable (the first two calibration points
    share their pixel, or there are fewer than two points) the evaluation
    finds no nearest spot: the loop leaves [(Infinity, null)], the effect
    stores an absent nearest distance, speaks nothing and leaves the
    narrated set as it was. *)
Theorem degenerate_scale_no_nearest (st : AppState.t) (d : AppData.t)
    (g : Coord.t) :
  AppState.data st = Some d ->
  AppState.userGeo st = Some g ->
  scale_unavailable d ->
  nearest (AppState.userPixel st) (transform (AppState.data st)) d = (PInf, None) /\
  AppState.nearestSpotDist (proximityEffect st).1 = None /\
  (proximityEffect st).2 = [] /\
  AppState.readSpeeches (proximityEffect st).1 = AppState.readSpeeches st.
Proof.
  intros Hd Hg Hscale.
  pose proof (nearest_scale_unavailable (AppState.userPixel st)
                (transform (AppState.data st)) d Hscale) as Hn.
  split; [exact Hn |].
  unfold proximityEffect. rewrite Hg, Hd. rewrite Hd in Hn. rewrite Hn.
  simpl. auto.
Qed.

(** ** A calibration with a known scale *)

Lemma half_circumference_pos : 0 < half_circumference.
Proof. unfold half_circumference. pose proof PI_RGT_0. lra. Qed.

Lemma hav_R_antipodal : hav_R 0 0 0 180 = 1.
Proof.
  unfold hav_R.
  replace ((0 - 0) * PI / 180 / 2) with 0 by field.
  replace (0 * PI / 180) with 0 by field.
  replace ((180 - 0) * PI / 180 / 2) with (PI / 2) by field.
  rewrite sin_0, cos_0, sin_PI2. ring.
Qed.

Lemma centralAngle_1 : centralAngle (Fin 1) = Fin Rtrigo1.PI.
Proof.
  unfold centralAngle. rewrite sqrt_fin by lra.
  cbn [Num.sub Num.neg Num.add]. rewrite sqrt_fin by lra.
  replace (1 + - (1)) with 0 by ring. rewrite sqrt_0, sqrt_1.
  unfold Math.atan2.
  assert (H0 : Rltb 0 0 = false) by (apply Rltb_false; lra).
  assert (H1 : Rltb 0 1 = true) by (apply Rltb_true; lra).
  rewrite H0, H1. cbn [Num.mul]. f_equal. field.
Qed.

Lemma getDistanceMeters_antipodal :
  getDistanceMeters (Coord.mk (Fin 0) (Fin 0)) (Coord.mk (Fin 0) (Fin 180))
  = Fin half_circumference.
Proof.
  unfold getDistanceMeters.
  now rewrite haversine_finite, hav_R_antipodal, centralAngle_1.
Qed.

Lemma sqrt_sum_squares_axis (x : R) : 0 <= x -> sqrt (x * x + 0 * 0) = x.
Proof.
  intros H. replace (x * x + 0 * 0) with (x * x) by ring.
  now apply sqrt_square.
Qed.

Lemma metersPerPixel_antipodal (w : R) :
  0 < w ->
  metersPerPixel (point_of_reals 0 0 0 0) (point_of_reals w 0 0 180)
  = Fin (half_circumference / w).
Proof.
  intros Hw. unfold metersPerPixel, point_of_reals.
  cbn [CalibrationPoint.lat CalibrationPoint.lng
       CalibrationPoint.pixel_x CalibrationPoint.pixel_y].
  rewrite getDistanceMeters_antipodal.
  cbn [Math.pow Num.sub Num.neg Num.add Num.mul].
  replace ((0 + - w) * (0 + - w) + (0 + - 0) * (0 + - 0)) with (w * w + 0 * 0)
    by ring.
  rewrite sqrt_fin by nra.
  rewrite sqrt_sum_squares_axis by lra.
  apply div_fin. lra.
Qed.

Lemma transform_antipodal (w : R) (spots : list Spot.t) :
  exists t, transform (Some (AppData.mk (antipodal_points w) spots)) = Some t.
Proof.
  unfold transform.
  cbn [AppData.calibration_points antipodal_points length Nat.ltb Nat.leb].
  pose proof (getAffineTransform_cases
                (point_of_reals 0 0 0 0) (point_of_reals w 0 0 180)
                (point_of_reals 0 w 90 0) []) as H.
  destruct (Math.abs _ <? Fin 1e-9)%num eqn:E; [| exact H].
  unfold point_of_reals in E. apply degenerate_finite in E. unfold geo_det in E.
  replace (0 * (180 - 0) + 0 * (0 - 0) + 90 * (0 - 180)) with (-16200) in E
    by ring.
  revert E. unfold Rabs. destruct (Rcase_abs (-16200)); lra.
Qed.

Lemma pixelDist_origin (id : string) (x y : R) (text : option string)
    (mission : bool) :
  pixelDist origin_pixel (spot_at id x y text mission) = Fin (sqrt (x * x + y * y)).
Proof.
  unfold pixelDist, origin_pixel, spot_at.
  cbn [PixelCoord.x PixelCoord.y Spot.pixel_x Spot.pixel_y
       Num.sub Num.neg Num.add Num.mul].
  rewrite sqrt_fin by nra. do 2 f_equal. ring.
Qed.

(** The distance the loop computes for a spot, under a scale of [m]
    meters per pixel. *)
Lemma spotDistM_with_scale (m : R) (id : string) (x y : R)
    (text : option string) (mission : bool) :
  0 < m ->
  spotDistM origin_pixel (point_of_reals 0 0 0 0)
    (point_of_reals (half_circumference / m) 0 0 180)
    (spot_at id x y text mission)
  = Fin (sqrt (x * x + y * y) * m).
Proof.
  intros Hm. pose proof half_circumference_pos as Hc.
  unfold spotDistM. rewrite pixelDist_origin, metersPerPixel_antipodal.
  - cbn [Num.mul]. f_equal. f_equal. field. lra.
  - apply Rdiv_lt_0_compat; lra.
Qed.

Lemma spotDistM_far :
  spotDistM origin_pixel (point_of_reals 0 0 0 0)
    (point_of_reals (half_circumference / 1) 0 0 180) spot_far = Fin 10.
Proof.
  unfold spot_far. rewrite spotDistM_with_scale by lra.
  replace (10 * 10 + 0 * 0) with (10 * 10) by ring.
  rewrite sqrt_square by lra. f_equal. ring.
Qed.

Lemma spotDistM_first :
  spotDistM origin_pixel (point_of_reals 0 0 0 0)
    (point_of_reals (half_circumference / 1) 0 0 180) spot_first = Fin 5.
Proof.
  unfold spot_first. rewrite spotDistM_with_scale by lra.
  replace (5 * 5 + 0 * 0) with (5 * 5) by ring.
  rewrite sqrt_square by lra. f_equal. ring.
Qed.

Lemma spotDistM_second :
  spotDistM origin_pixel (point_of_reals 0 0 0 0)
    (point_of_reals (half_circumference / 1) 0 0 180) spot_second = Fin 5.
Proof.
  unfold spot_second. rewrite spotDistM_with_scale by lra.
  replace (0 * 0 + 5 * 5) with (5 * 5) by ring.
  rewrite sqrt_square by lra. f_equal. ring.
Qed.

(** The example of the specification: pixel distances 10, 5, 5 in
    insertion order under a scale of 1 meter per pixel; the second spot,
    the first at distance 5, is selected. *)
Lemma nearest_first_minimum_witness :
  let d := data_with_scale 1 [spot_far; spot_first; spot_second] in
  AppData.spots d !! 1%nat = Some spot_first /\
  nearest (Some origin_pixel) (transform (Some d)) d = (Fin 5, Some spot_first).
Proof.
  intros d. split; [reflexivity |].
  destruct (transform_antipodal (half_circumference / 1)
              [spot_far; spot_first; spot_second]) as [t Ht].
  rewrite <- spotDistM_first.
  apply (nearest_first_minimum origin_pixel t d
           (point_of_reals 0 0 0 0)
           (point_of_reals (half_circumference / 1) 0 0 180)
           [point_of_reals 0 (half_circumference / 1) 90 0] 1 spot_first).
  - exact Ht.
  - reflexivity.
  - reflexivity.
  - now rewrite spotDistM_first.
  - intros [|[|[|j]]] s' Hj; simpl in Hj; try discriminate;
      injection Hj as <-;
      rewrite ?spotDistM_far, ?spotDistM_first, ?spotDistM_second;
      simpl; apply Rltb_false; lra.
  - intros [|j] s' Hlt Hj; [| lia].
    simpl in Hj. injection Hj as <-.
    rewrite spotDistM_far, spotDistM_first. intros E. injection E. lra.
Defined.

Lemma degenerate_scale_no_nearest_witness :
  let st := visitor_state degenerate_data None ∅ in
  scale_unavailable degenerate_data /\
  nearest (AppState.userPixel st) (transform (AppState.data st)) degenerate_data
  = (PInf, None) /\
  AppState.nearestSpotDist (proximityEffect st).1 = None /\
  (proximityEffect st).2 = [] /\
  AppState.readSpeeches (proximityEffect st).1 = AppState.readSpeeches st.
Proof.
  intros st.
  assert (Hscale : scale_unavailable degenerate_data).
  { right. exists (point_of_reals 3 4 0 0), (point_of_reals 3 4 0 1),
      [point_of_reals 0 10 1 0]. repeat split; reflexivity. }
  exact (conj Hscale
           (degenerate_scale_no_nearest st degenerate_data (coord_of_reals 0 0)
              eq_refl eq_refl Hscale)).
Defined.

(** ** Narration: one run of the effect *)

(** What one run of the effect does to the narrated set and which event
    it produces, by the spot that is due. *)
Lemma proximityEffect_due (st : AppState.t) :
  match dueSpot st with
  | Some (s, text) =>
      if bool_decide (Spot.id s ∈ AppState.readSpeeches st) then
        (proximityEffect st).2 = [] /\
        AppState.readSpeeches (proximityEffect st).1 = AppState.readSpeeches st
      else
        (proximityEffect st).2 = [Speak (Spot.id s) text] /\
        AppState.readSpeeches (proximityEffect st).1
        = {[ Spot.id s ]} ∪ AppState.readSpeeches st
  | None =>
      (proximityEffect st).2 = [] /\
      AppState.readSpeeches (proximityEffect st).1 = AppState.readSpeeches st
  end.
Proof.
  unfold dueSpot, proximityEffect.
  destruct (AppState.userGeo st) as [g |]; [| auto].
  destruct (AppState.data st) as [d |]; [| auto].
  destruct (nearest _ _ d) as [minDist [s |]]; [| auto].
  destruct (minDist <? AUTO_SPEECH_DISTANCE)%num; [| auto].
  destruct (spoken_text s) as [text |]; [| auto].
  destruct (bool_decide (Spot.id s ∈ AppState.readSpeeches st)); auto.
Qed.

Lemma narrates_nil (id : string) : ~ narrates [] id.
Proof. intros [text H]. now apply elem_of_nil in H. Qed.

Lemma narrates_singleton (id id' : string) (text : string) :
  narrates [Speak id' text] id <-> id' = id.
Proof.
  split.
  - intros [text' H]. apply list_elem_of_singleton in H. congruence.
  - intros ->. exists text. now apply list_elem_of_singleton.
Qed.

Lemma proximityEffect_narrates (st : AppState.t) (id : string) :
  narrates (proximityEffect st).2 id <->
  narrationDue st id /\ id ∉ AppState.readSpeeches st.
Proof.
  pose proof (proximityEffect_due st) as H. unfold narrationDue.
  destruct (dueSpot st) as [[s text] |].
  - destruct (bool_decide_reflect (Spot.id s ∈ AppState.readSpeeches st))
      as [Hin | Hout]; destruct H as [-> _].
    + split; [intros Hn; now apply narrates_nil in Hn |].
      intros [(s' & text' & E & <-) Hnot]. injection E as <- <-. contradiction.
    + rewrite narrates_singleton. split.
      * intros <-. split; [now exists s, text | exact Hout].
      * intros [(s' & text' & E & <-) _]. now injection E as <- <-.
  - destruct H as [-> _]. split; [intros Hn; now apply narrates_nil in Hn |].
    intros [(s' & text' & E & _) _]. discriminate.
Qed.

Lemma proximityEffect_read (st : AppState.t) (id : string) :
  id ∈ AppState.readSpeeches (proximityEffect st).1 <->
  id ∈ AppState.readSpeeches st \/ narrationDue st id.
Proof.
  pose proof (proximityEffect_due st) as H. unfold narrationDue.
  destruct (dueSpot st) as [[s text] |].
  - destruct (bool_decide_reflect (Spot.id s ∈ AppState.readSpeeches st))
      as [Hin | Hout]; destruct H as [_ ->].
    + split; [auto |].
      intros [Hid | (s' & text' & E & <-)]; [exact Hid |].
      now injection E as <- <-.
    + rewrite elem_of_union, elem_of_singleton. split.
      * intros [-> | Hid]; [right; now exists s, text | now left].
      * intros [Hid | (s' & text' & E & <-)]; [now right |].
        injection E as <- <-. now left.
  - destruct H as [_ ->]. split; [auto |].
    intros [Hid | (s' & text' & E & _)]; [exact Hid | discriminate].
Qed.

Lemma proximityEffect_one_event (st : AppState.t) :
  (length (proximityEffect st).2 <= 1)%nat.
Proof.
  pose proof (proximityEffect_due st) as H.
  destruct (dueSpot st) as [[s text] |].
  - destruct (bool_decide (Spot.id s ∈ AppState.readSpeeches st));
      destruct H as [-> _]; simpl; lia.
  - destruct H as [-> _]. simpl; lia.
Qed.

(** ** Narration: a whole session *)

Lemma runSession_cons (st : AppState.t) (u : Update.t) (us : list Update.t) :
  runSession st (u :: us)
  = (applyUpdate st u, (proximityEffect (applyUpdate st u)).2)
      :: runSession (proximityEffect (applyUpdate st u)).1 us.
Proof. reflexivity. Qed.

(** The narrated set seen by the [k]-th run of the effect: what the
    session started with, and the spots that were due in an earlier run. *)
Lemma runSession_read (us : list Update.t) :
  forall (st0 : AppState.t) (k : nat) (stk : AppState.t) (evs : list Event)
         (id : string),
    runSession st0 us !! k = Some (stk, evs) ->
    (id ∈ AppState.readSpeeches stk <->
     id ∈ AppState.readSpeeches st0 \/
     exists j stj evsj,
       (j < k)%nat /\ runSession st0 us !! j = Some (stj, evsj) /\
       narrationDue stj id).
Proof.
  induction us as [|u us IH]; intros st0 k stk evs id Hk; [discriminate |].
  rewrite runSession_cons in *.
  destruct k as [|k]; simpl in Hk.
  - injection Hk as <- <-. simpl. split; [auto |].
    intros [H | (j & _ & _ & Hj & _)]; [exact H | lia].
  - rewrite (IH _ _ _ _ id Hk), proximityEffect_read. simpl. split.
    + intros [[H | H] | (j & stj & evsj & Hj & Hlook & Hdue)].
      * now left.
      * right. exists 0%nat, (applyUpdate st0 u),
          (proximityEffect (applyUpdate st0 u)).2.
        split; [lia |]. split; [reflexivity | exact H].
      * right. exists (S j), stj, evsj. split; [lia |]. now split.
    + intros [H | (j & stj & evsj & Hj & Hlook & Hdue)]; [now left; left |].
      destruct j as [|j]; simpl in Hlook.
      * injection Hlook as <- <-. left. now right.
      * right. exists j, stj, evsj. split; [lia |]. now split.
Qed.

Lemma runSession_events (us : list Update.t) (st0 : AppState.t) (k : nat)
    (stk : AppState.t) (evs : list Event) :
  runSession st0 us !! k = Some (stk, evs) -> evs = (proximityEffect stk).2.
Proof.
  revert st0 k. induction us as [|u us IH]; intros st0 k Hk; [discriminate |].
  rewrite runSession_cons in Hk. destruct k as [|k]; simpl in Hk.
  - now injection Hk as <- <-.
  - exact (IH _ k Hk).
Qed.

Lemma narrates_iff_first_due (us : list Update.t) (k : nat)
    (stk : AppState.t) (evs : list Event) (id : string) :
  runSession initialState us !! k = Some (stk, evs) ->
  (narrates evs id <->
   narrationDue stk id /\
   forall j stj evsj,
     (j < k)%nat -> runSession initialState us !! j = Some (stj, evsj) ->
     ~ narrationDue stj id).
Proof.
  intros Hk. rewrite (runSession_events _ _ _ _ _ Hk).
  rewrite proximityEffect_narrates, (runSession_read us _ _ _ _ id Hk).
  simpl. split.
  - intros [Hdue Hnot]. split; [exact Hdue |].
    intros j stj evsj Hj Hlook Hd. apply Hnot. right. now exists j, stj, evsj.
  - intros [Hdue Hnone]. split; [exact Hdue |].
    intros [Hin | (j & stj & evsj & Hj & Hlook & Hd)].
    + now apply elem_of_empty in Hin.
    + now apply (Hnone j stj evsj).
Qed.

(** C6. In a session that starts with nothing narrated, the narration of
    a spot fires in a run of the effect exactly when the spot is due in
    that run (it is the nearest spot, below 20 meters, with a text) and was
    not due in any earlier run: it fires on the first such update and in no
    other run.  A run produces at most one event, and the narrated set only
    grows. *)
Theorem narration_exactly_once (us : list Update.t) (k : nat)
    (stk : AppState.t) (evs : list Event) (id : string) :
  runSession initialState us !! k = Some (stk, evs) ->
  (narrates evs id <->
   narrationDue stk id /\
   forall j stj evsj,
     (j < k)%nat -> runSession initialState us !! j = Some (stj, evsj) ->
     ~ narrationDue stj id) /\
  (narrates evs id ->
   forall j stj evsj,
     j <> k -> runSession initialState us !! j = Some (stj, evsj) ->
     ~ narrates evsj id) /\
  (length evs <= 1)%nat /\
  (forall j stj evsj,
     (j <= k)%nat -> runSession initialState us !! j = Some (stj, evsj) ->
     AppState.readSpeeches stj ⊆ AppState.readSpeeches stk) /\
  AppState.readSpeeches stk ⊆ AppState.readSpeeches (proximityEffect stk).1.
Proof.
  intros Hk. split; [now apply narrates_iff_first_due |].
  split; [| split; [| split]].
  - intros Hfire j stj evsj Hne Hj Hfire'.
    apply (narrates_iff_first_due us k stk evs id Hk) in Hfire as [Hdue Hfirst].
    apply (narrates_iff_first_due us j stj evsj id Hj) in Hfire' as [Hdue' Hfirst'].
    destruct (Nat.lt_total j k) as [Hlt | [Heq | Hgt]].
    + now apply (Hfirst j stj evsj).
    + contradiction.
    + now apply (Hfirst' k stk evs).
  - rewrite (runSession_events _ _ _ _ _ Hk). apply proximityEffect_one_event.
  - intros j stj evsj Hle Hj x Hx.
    apply (runSession_read us _ _ _ _ x Hj) in Hx.
    apply (runSession_read us _ _ _ _ x Hk).
    destruct Hx as [Hx | (i & sti & evsi & Hi & Hlook & Hdue)]; [now left |].
    right. exists i, sti, evsi. split; [lia |]. now split.
  - intros x Hx. apply proximityEffect_read. now left.
Qed.

(** ** Running the effect on a concrete map *)

Lemma nearest_single (m : R) (id : string) (x y : R) (text : option string)
    (mission : bool) :
  0 < m ->
  let s := spot_at id x y text mission in
  let d := data_with_scale m [s] in
  nearest (Some origin_pixel) (transform (Some d)) d
  = (Fin (sqrt (x * x + y * y) * m), Some s).
Proof.
  intros Hm s d.
  destruct (transform_antipodal (half_circumference / m) [s]) as [t Ht].
  unfold d, data_with_scale. rewrite Ht.
  rewrite (nearest_pick origin_pixel t _ (point_of_reals 0 0 0 0)
             (point_of_reals (half_circumference / m) 0 0 180)
             [point_of_reals 0 (half_circumference / m) 90 0]) by reflexivity.
  cbn [AppData.spots fold_left]. unfold pick, s.
  now rewrite spotDistM_with_scale.
Qed.

Lemma dueSpot_guide (st : AppState.t) :
  AppState.data st = Some (data_with_scale 1 [spot_guide]) ->
  AppState.userGeo st = Some (coord_of_reals 0 0) ->
  AppState.userPixel st = Some origin_pixel ->
  dueSpot st = Some (spot_guide, "welcome"%string).
Proof.
  intros Hd Hg Hp. unfold dueSpot. rewrite Hg, Hd, Hp.
  unfold spot_guide. rewrite nearest_single by lra.
  replace (5 * 5 + 0 * 0) with (5 * 5) by ring. rewrite sqrt_square by lra.
  cbn [Num.lt AUTO_SPEECH_DISTANCE].
  assert (H : Rltb (5 * 1) 20 = true) by (apply Rltb_true; lra).
  now rewrite H.
Qed.

(** Two consecutive updates within 20 meters of a spot with a narration:
    the narration fires on the first one only. *)
Lemma narration_two_updates :
  (runSession initialState [update_near_guide; update_near_guide]).*2
  = [ [Speak "guide" "welcome"]; [] ].
Proof.
  rewrite !runSession_cons. cbn [fmap list_fmap snd runSession].
  set (st1 := applyUpdate initialState update_near_guide).
  pose proof (proximityEffect_due st1) as H1.
  rewrite (dueSpot_guide st1) in H1 by reflexivity.
  destruct (bool_decide_reflect (Spot.id spot_guide ∈ AppState.readSpeeches st1))
    as [Hin | _].
  { now apply elem_of_empty in Hin. }
  destruct H1 as [E1 R1].
  set (st2 := applyUpdate (proximityEffect st1).1 update_near_guide).
  pose proof (proximityEffect_due st2) as H2.
  rewrite (dueSpot_guide st2) in H2 by reflexivity.
  destruct (bool_decide_reflect (Spot.id spot_guide ∈ AppState.readSpeeches st2))
    as [_ | Hout].
  - destruct H2 as [E2 _]. now rewrite E1, E2.
  - exfalso. apply Hout. unfold st2. cbn [applyUpdate AppState.readSpeeches].
    rewrite R1. apply elem_of_union_l. now apply elem_of_singleton.
Qed.

Lemma narration_exactly_once_witness :
  let us := [update_near_guide; update_near_guide] in
  exists stk evs,
    runSession initialState us !! 1%nat = Some (stk, evs) /\
    (narrates evs "guide" <->
     narrationDue stk "guide" /\
     forall j stj evsj,
       (j < 1)%nat -> runSession initialState us !! j = Some (stj, evsj) ->
       ~ narrationDue stj "guide") /\
    (forall j stj evsj,
       (j <= 1)%nat -> runSession initialState us !! j = Some (stj, evsj) ->
       AppState.readSpeeches stj ⊆ AppState.readSpeeches stk).
Proof.
  intros us.
  destruct (runSession initialState us !! 1%nat) as [[stk evs] |] eqn:Hk;
    [| discriminate].
  exists stk, evs. split; [reflexivity |].
  destruct (narration_exactly_once us 1 stk evs "guide" Hk)
    as (Hiff & _ & _ & Hmono & _).
  split; [exact Hiff | exact Hmono].
Defined.
(** ** Check-in eligibility *)

(** The effect on a map with one spot and a visitor at the origin: the
    nearest distance it stores. *)
Lemma proximityEffect_single (m : R) (id : string) (x y : R)
    (text : option string) (mission : bool) (selected : option Spot.t)
    (read : gset string) :
  0 < m ->
  let s := spot_at id x y text mission in
  let st := (proximityEffect (visitor_state (data_with_scale m [s]) selected read)).1 in
  AppState.nearestSpotDist st = Some (Fin (sqrt (x * x + y * y) * m)) /\
  AppState.selectedSpot st = selected /\
  AppState.userPixel st = Some origin_pixel.
Proof.
  intros Hm s st. unfold st, proximityEffect, visitor_state.
  cbn [AppState.userGeo AppState.data AppState.userPixel].
  unfold s. rewrite nearest_single by exact Hm.
  cbn [Num.strict_eq].
  destruct (_ <? AUTO_SPEECH_DISTANCE)%num; [| now cbn].
  destruct (spoken_text _); [| now cbn].
  destruct (bool_decide _); now cbn.
Qed.

Lemma userDistance_origin (st : AppState.t) (id : string) (x y : R)
    (text : option string) (mission : bool) (nd : number) :
  AppState.selectedSpot st = Some (spot_at id x y text mission) ->
  AppState.nearestSpotDist st = Some nd ->
  AppState.userPixel st = Some origin_pixel ->
  Num.truthy nd = true ->
  userDistance st = Some (Fin (sqrt (x * x + y * y))).
Proof.
  intros Hs Hn Hp Ht. unfold userDistance. rewrite Hs, Hn, Hp, Ht.
  unfold spot_at, origin_pixel.
  cbn [Spot.pixel_x Spot.pixel_y PixelCoord.x PixelCoord.y Math.pow
       Num.sub Num.neg Num.add Num.mul].
  rewrite sqrt_fin by nra. do 3 f_equal. ring.
Qed.

(** The threshold of the detail view is strict. *)
Lemma isNear_threshold :
  isNear (Some (Fin 30)) = false /\ isNear (Some (Fin 29.99)) = true /\
  isNear None = false.
Proof.
  simpl. split; [apply Rltb_false; lra |].
  split; [apply Rltb_true; lra | reflexivity].
Qed.

(** Whatever the scale [m], a mission spot 20 pixels from the visitor is
    at [20 * m] meters for the proximity effect and at 20 for the detail
    view, which reports it as near. *)
Lemma checkin_distance_without_scale (m : R) :
  0 < m ->
  let st :=
    (proximityEffect
       (visitor_state (data_with_scale m [spot_mission]) (Some spot_mission) ∅)).1 in
  AppState.nearestSpotDist st = Some (Fin (20 * m)) /\
  userDistance st = Some (Fin 20) /\
  isNear (userDistance st) = true.
Proof.
  intros Hm st.
  assert (Hsq : sqrt (20 * 20 + 0 * 0) = 20) by (apply sqrt_sum_squares_axis; lra).
  destruct (proximityEffect_single m "mission" 20 0 None true
              (Some spot_mission) ∅) as (Hn & Hs & Hp); [lra |].
  fold spot_mission in Hn, Hs, Hp. fold st in Hn, Hs, Hp.
  rewrite Hsq in Hn.
  assert (Hd : userDistance st = Some (Fin 20)).
  { rewrite (userDistance_origin st "mission" 20 0 None true (Fin (20 * m)));
      try assumption; [now rewrite Hsq |].
    simpl. apply negb_true_iff, Reqb_false. nra. }
  split; [exact Hn |]. split; [exact Hd |].
  rewrite Hd. simpl. apply Rltb_true. lra.
Qed.

(** C3 (the code at the failing input).  On a map with a scale of 2
    meters per pixel and a mission spot 20 pixels from the visitor, the
    proximity effect computes 40 meters for that spot, while the detail
    view is handed 20, the pixel distance without the scale, and reports
    the spot as near enough to check in. *)
Theorem checkin_uses_pixel_distance :
  let st :=
    (proximityEffect
       (visitor_state (data_with_scale 2 [spot_mission]) (Some spot_mission) ∅)).1 in
  AppState.nearestSpotDist st = Some (Fin 40) /\
  userDistance st = Some (Fin 20) /\
  isNear (userDistance st) = true.
Proof.
  intros st.
  destruct (checkin_distance_without_scale 2) as (Hn & Hd & Hnear); [lra |].
  fold st in Hn, Hd, Hnear.
  replace (20 * 2) with 40 in Hn by ring.
  now repeat split.
Qed.

(** C10. When the stored nearest distance is exactly 0 the detail view is
    handed no distance, and the spot is reported as not near enough to
    check in, although 0 is below the threshold of 30. *)
Theorem zero_distance_not_eligible (st : AppState.t) :
  AppState.nearestSpotDist st = Some (Fin 0) ->
  userDistance st = None /\
  isNear (userDistance st) = false /\
  (Fin 0 <? Fin 30)%num = true.
Proof.
  intros Hn.
  assert (Hd : userDistance st = None).
  { unfold userDistance. rewrite Hn.
    destruct (AppState.selectedSpot st); [| reflexivity].
    destruct (AppState.userPixel st); [| reflexivity].
    assert (Hz : Num.truthy (Fin 0) = false)
      by (simpl; apply negb_false_iff, Reqb_true; reflexivity).
    now rewrite Hz. }
  split; [exact Hd |]. split; [now rewrite Hd |].
  simpl. apply Rltb_true. lra.
Qed.

(** A visitor standing exactly on a mission spot: the effect stores a
    nearest distance of 0, and the detail view of that spot gets none. *)
Lemma zero_distance_not_eligible_witness :
  let st :=
    (proximityEffect
       (visitor_state (data_with_scale 1 [spot_here]) (Some spot_here) ∅)).1 in
  AppState.nearestSpotDist st = Some (Fin 0) /\
  AppState.selectedSpot st = Some spot_here /\
  userDistance st = None /\
  isNear (userDistance st) = false /\
  (Fin 0 <? Fin 30)%num = true.
Proof.
  intros st.
  destruct (proximityEffect_single 1 "here" 0 0 None true
              (Some spot_here) ∅) as (Hn & Hs & _); [lra |].
  fold spot_here in Hn, Hs. fold st in Hn, Hs.
  replace (sqrt (0 * 0 + 0 * 0) * 1) with 0 in Hn
    by (rewrite sqrt_sum_squares_axis by lra; ring).
  exact (conj Hn (conj Hs (zero_distance_not_eligible st Hn))).
Defined.

(** * The distance in the arithmetic of the code *)

(** ** Binary64 numbers through their specification *)

Lemma is_nan_spec (x : float) :
  is_nan x = match Prim2SF x with S754_nan => true | _ => false end.
Proof.
  unfold is_nan. rewrite FloatAxioms.eqb_spec. unfold SFeqb, SFcompare.
  destruct (Prim2SF x) as [s | s | | s m e]; try (destruct s; reflexivity).
  - reflexivity.
  - destruct s; rewrite Z.compare_refl, Pos.compare_cont_refl; reflexivity.
Qed.

Lemma shr_1_bounds (mrs : shr_record) :
  (0 <= shr_m mrs)%Z -> (0 <= shr_m (shr_1 mrs) <= shr_m mrs)%Z.
Proof.
  destruct mrs as [m r s]. simpl.
  destruct m as [| p | p]; [simpl; lia | | lia].
  destruct p; simpl; lia.
Qed.

Lemma iter_shr_1_bounds (p : positive) :
  forall mrs : shr_record,
    (0 <= shr_m mrs)%Z ->
    (0 <= shr_m (SpecFloat.iter_pos shr_1 p mrs) <= shr_m mrs)%Z.
Proof.
  induction p as [p IH | p IH |]; intros mrs H; simpl.
  - pose proof (shr_1_bounds mrs H) as H1.
    pose proof (IH _ (proj1 H1)) as H2.
    pose proof (IH _ (proj1 H2)) as H3. lia.
  - pose proof (IH _ H) as H2.
    pose proof (IH _ (proj1 H2)) as H3. lia.
  - now apply shr_1_bounds.
Qed.

Lemma shr_fexp_bounds (m e : Z) (l : location) :
  (0 <= m)%Z -> (0 <= shr_m (fst (shr_fexp prec emax m e l)) <= m)%Z.
Proof.
  intros Hm. unfold shr_fexp, shr.
  assert (Hrec : shr_m (shr_record_of_loc m l) = m)
    by (destruct l as [| []]; reflexivity).
  destruct (fexp prec emax (Zdigits2 m + e) - e)%Z as [| p | p]; simpl;
    rewrite ?Hrec; try lia.
  pose proof (iter_shr_1_bounds p (shr_record_of_loc m l)) as H.
  rewrite Hrec in H. now apply H.
Qed.

Lemma shr_fexp_exponent (m e : Z) (l : location) :
  snd (shr_fexp prec emax m e l)
  = Z.max e (fexp prec emax (Zdigits2 m + e)).
Proof.
  unfold shr_fexp, shr.
  destruct (fexp prec emax (Zdigits2 m + e) - e)%Z as [| p | p] eqn:E;
    simpl; lia.
Qed.

Lemma round_nearest_even_bounds (m : Z) (l : location) :
  (m <= round_nearest_even m l <= m + 1)%Z.
Proof.
  unfold round_nearest_even.
  destruct l as [| []]; try destruct (Z.even m); lia.
Qed.

(** Rounding never produces NaN. *)
Lemma binary_round_aux_not_nan (s : bool) (m e : Z) (l : location) :
  (0 <= m)%Z -> binary_round_aux prec emax s m e l <> S754_nan.
Proof.
  intros Hm. unfold binary_round_aux.
  pose proof (shr_fexp_bounds m e l Hm) as H1.
  destruct (shr_fexp prec emax m e l) as [mrs' e']. simpl in H1.
  pose proof (round_nearest_even_bounds (shr_m mrs') (loc_of_shr_record mrs')) as H2.
  pose proof (shr_fexp_bounds
                (round_nearest_even (shr_m mrs') (loc_of_shr_record mrs')) e'
                loc_Exact ltac:(lia)) as H3.
  destruct (shr_fexp prec emax _ e' loc_Exact) as [mrs'' e'']. simpl in H3.
  destruct (shr_m mrs'') as [| p | p]; [discriminate | | lia].
  destruct (e'' <=? emax - prec)%Z; discriminate.
Qed.

Lemma binary_round_not_nan (s : bool) (m : positive) (e : Z) :
  binary_round prec emax s m e <> S754_nan.
Proof.
  unfold binary_round.
  destruct (shl_align m e _) as [mz ez].
  apply binary_round_aux_not_nan. lia.
Qed.

Lemma binary_normalize_not_nan (m e : Z) (szero : bool) :
  binary_normalize prec emax m e szero <> S754_nan.
Proof.
  destruct m; simpl; [discriminate | apply binary_round_not_nan ..].
Qed.








Lemma SFsub_diag (x : spec_float) :
  match x with S754_zero _ | S754_finite _ _ _ => True | _ => False end ->
  SF64sub x x = S754_zero false.
Proof.
  unfold SF64sub.
  destruct x as [s | s | | s m e]; simpl; try contradiction; intros _.
  - now destruct s.
  - now rewrite Z.sub_diag.
Qed.

(** ** Binary64 numbers *)







Lemma is_finite_spec (x : float) :
  is_finite x = true ->
  match Prim2SF x with
  | S754_zero _ | S754_finite _ _ _ => True
  | _ => False
  end.
Proof.
  unfold is_finite, is_infinity.
  rewrite is_nan_spec, FloatAxioms.eqb_spec, FloatAxioms.abs_spec.
  destruct (Prim2SF x) as [s | s | | s m e]; simpl; try easy.
Qed.

Lemma sub_diag_float (x : float) : is_finite x = true -> (x - x)%float = 0%float.
Proof.
  intros H. apply Prim2SF_inj. rewrite FloatAxioms.sub_spec.
  now rewrite SFsub_diag by now apply is_finite_spec.
Qed.

(** NaN comes out of a product by a finite non-zero factor, or of a
    difference from a finite number, only if it went in. *)
Lemma is_nan_mul_finite (c x : float) :
  match Prim2SF c with S754_finite _ _ _ => True | _ => False end ->
  is_nan (c * x) = is_nan x.
Proof.
  intros Hc. rewrite !is_nan_spec, FloatAxioms.mul_spec.
  destruct (Prim2SF c) as [s | s | | s m e]; try contradiction.
  unfold SF64mul.
  destruct (Prim2SF x) as [sx | sx | | sx mx ex]; simpl; try reflexivity.
  pose proof (binary_round_aux_not_nan (xorb s sx) (Z.pos (m * mx)) (e + ex)
                loc_Exact ltac:(lia)) as H.
  destruct (binary_round_aux _ _ _ _ _ _); easy.
Qed.

Lemma is_nan_sub_finite (c x : float) :
  match Prim2SF c with S754_finite _ _ _ => True | _ => False end ->
  is_nan (c - x) = is_nan x.
Proof.
  intros Hc. rewrite !is_nan_spec, FloatAxioms.sub_spec.
  destruct (Prim2SF c) as [s | s | | s m e]; try contradiction.
  unfold SF64sub.
  destruct (Prim2SF x) as [sx | sx | | sx mx ex]; simpl; try reflexivity.
  match goal with
  | |- context [binary_normalize ?p ?q ?z ?ez ?b] =>
      pose proof (binary_normalize_not_nan z ez b) as H;
      destruct (binary_normalize p q z ez b); easy
  end.
Qed.

(** [Math.sqrt] gives NaN for NaN and for the numbers below zero, and for
    nothing else. *)
Lemma is_nan_sqrt (x : float) :
  is_nan (PrimFloat.sqrt x) = is_nan x || (x <? 0)%float.
Proof.
  rewrite !is_nan_spec, FloatAxioms.sqrt_spec, FloatAxioms.ltb_spec.
  replace (Prim2SF 0%float) with (S754_zero false) by reflexivity.
  unfold SF64sqrt, SFsqrt, SFltb, SFcompare.
  destruct (Prim2SF x) as [s | s | | s m e]; simpl;
    try reflexivity; try (destruct s; reflexivity).
  destruct s; [reflexivity |].
  destruct (SFsqrt_core_binary prec emax (Z.pos m) e) as [[mz ez] lz] eqn:E.
  assert (Hmz : (0 <= mz)%Z).
  { unfold SFsqrt_core_binary in E.
    set (m' := match (e - 2 * _)%Z with Z.pos _ => _ | Z0 => _ | Z.neg _ => _ end) in E.
    assert (Hm' : (0 <= m')%Z).
    { subst m'. destruct (e - 2 * _)%Z; try lia. apply Z.shiftl_nonneg. lia. }
    pose proof (Z.sqrtrem_spec m' Hm') as Hs.
    destruct (Z.sqrtrem m') as [q r]. injection E as <- _ _. nia. }
  pose proof (binary_round_aux_not_nan false mz ez lz Hmz) as H.
  destruct (binary_round_aux _ _ _ _ _ _); easy.
Qed.

(** The product of two numbers of magnitude at most 1 is finite. *)
Lemma digits2_pos_bounds (p : positive) :
  (2 ^ (Z.pos (digits2_pos p) - 1) <= Z.pos p < 2 ^ Z.pos (digits2_pos p))%Z.
Proof.
  induction p as [p IH | p IH |]; simpl digits2_pos.
  - rewrite Pos2Z.inj_succ.
    replace (Z.succ (Z.pos (digits2_pos p)) - 1)%Z
      with (Z.succ (Z.pos (digits2_pos p) - 1))%Z by lia.
    rewrite !Z.pow_succ_r by lia. lia.
  - rewrite Pos2Z.inj_succ.
    replace (Z.succ (Z.pos (digits2_pos p)) - 1)%Z
      with (Z.succ (Z.pos (digits2_pos p) - 1))%Z by lia.
    rewrite !Z.pow_succ_r by lia. lia.
  - simpl. lia.
Qed.

Lemma Zdigits2_le (m k : Z) :
  (0 <= k)%Z -> (0 <= m < 2 ^ k)%Z -> (Zdigits2 m <= k)%Z.
Proof.
  intros Hk [Hm0 Hm]. destruct m as [| p | p]; simpl; [lia | | lia].
  pose proof (digits2_pos_bounds p) as [Hlo _].
  assert (H : (2 ^ (Z.pos (digits2_pos p) - 1) < 2 ^ k)%Z) by lia.
  apply Z.pow_lt_mono_r_iff in H; lia.
Qed.

Lemma le_one_spec (c : float) :
  (abs c <=? 1)%float = true ->
  match Prim2SF c with
  | S754_zero _ => True
  | S754_finite _ m e => (Z.pos m < 2 ^ 53)%Z /\ (e <= -52)%Z
  | _ => False
  end.
Proof.
  rewrite FloatAxioms.leb_spec, FloatAxioms.abs_spec.
  replace (Prim2SF 1%float) with (S754_finite false 4503599627370496 (-52))
    by reflexivity.
  pose proof (Prim2SF_valid c) as Hv.
  destruct (Prim2SF c) as [s | s | | s m e]; simpl; try easy.
  unfold SFleb, SFcompare. intros H.
  assert (He : (e <= -52)%Z).
  { destruct (Z.compare_spec e (-52)); try lia; discriminate. }
  split; [| exact He].
  simpl in Hv. unfold bounded, canonical_mantissa in Hv.
  apply andb_true_iff in Hv as [Hc _]. apply Z.eqb_eq in Hc.
  unfold fexp in Hc.
  pose proof (digits2_pos_bounds m) as [_ Hhi].
  assert (Hd : (Z.pos (digits2_pos m) <= 53)%Z) by (unfold prec in Hc; lia).
  eapply Z.lt_le_trans; [exact Hhi |].
  apply Z.pow_le_mono_r; lia.
Qed.

Lemma SFmul_small (sx sy : bool) (mx my : positive) (ex ey : Z) :
  (Z.pos mx < 2 ^ 53)%Z -> (ex <= -52)%Z ->
  (Z.pos my < 2 ^ 53)%Z -> (ey <= -52)%Z ->
  match SF64mul (S754_finite sx mx ex) (S754_finite sy my ey) with
  | S754_zero _ | S754_finite _ _ _ => True
  | _ => False
  end.
Proof.
  intros Hmx Hex Hmy Hey. unfold SF64mul, SFmul, binary_round_aux.
  remember (Z.pos (mx * my)) as m eqn:Em.
  remember (ex + ey)%Z as e eqn:Ee.
  assert (Hm : (0 <= m < 2 ^ 106)%Z).
  { subst m. rewrite Pos2Z.inj_mul. split; [lia |].
    replace (2 ^ 106)%Z with (2 ^ 53 * 2 ^ 53)%Z by reflexivity. nia. }
  pose proof (shr_fexp_bounds m e loc_Exact (proj1 Hm)) as H1.
  pose proof (shr_fexp_exponent m e loc_Exact) as E1.
  destruct (shr_fexp prec emax m e loc_Exact) as [mrs' e']. simpl in H1, E1.
  pose proof (round_nearest_even_bounds (shr_m mrs') (loc_of_shr_record mrs')) as H2.
  remember (round_nearest_even (shr_m mrs') (loc_of_shr_record mrs')) as m1
    eqn:Em1.
  pose proof (shr_fexp_bounds m1 e' loc_Exact ltac:(lia)) as H3.
  pose proof (shr_fexp_exponent m1 e' loc_Exact) as E2.
  destruct (shr_fexp prec emax m1 e' loc_Exact) as [mrs'' e'']. simpl in H3, E2.
  assert (Hd : (Zdigits2 m <= 106)%Z) by (apply Zdigits2_le; lia).
  assert (Hd1 : (Zdigits2 m1 <= 107)%Z).
  { apply Zdigits2_le; [lia |]. split; [lia |].
    replace (2 ^ 107)%Z with (2 * 2 ^ 106)%Z by reflexivity. lia. }
  assert (He'' : (e'' <= emax - prec)%Z).
  { subst e'' e'. unfold fexp, SpecFloat.emin, prec, emax. lia. }
  destruct (shr_m mrs'') as [| p | p]; [exact I | | lia].
  apply Z.leb_le in He''. now rewrite He''.
Qed.

Lemma mul_le_one_spec (x y : float) :
  (abs x <=? 1)%float = true ->
  (abs y <=? 1)%float = true ->
  match Prim2SF (x * y) with
  | S754_zero _ | S754_finite _ _ _ => True
  | _ => False
  end.
Proof.
  intros Hx Hy. apply le_one_spec in Hx, Hy. rewrite FloatAxioms.mul_spec.
  destruct (Prim2SF x) as [sx | sx | | sx mx ex]; try contradiction;
    destruct (Prim2SF y) as [sy | sy | | sy my ey]; try contradiction;
    try exact I.
  destruct Hx, Hy. now apply SFmul_small.
Qed.

(** A finite number times [+0], times [+0], added to [+0], is [+0]. *)
Lemma add_zero_mul_zero_zero (p : float) :
  match Prim2SF p with
  | S754_zero _ | S754_finite _ _ _ => True
  | _ => False
  end ->
  (0 + p * 0 * 0)%float = 0%float.
Proof.
  intros Hp. apply Prim2SF_inj.
  rewrite FloatAxioms.add_spec, !FloatAxioms.mul_spec.
  replace (Prim2SF 0%float) with (S754_zero false) by reflexivity.
  destruct (Prim2SF p) as [s | s | | s m e]; try contradiction;
    now destruct s.
Qed.

(** ** [getDistanceMeters] over binary64 numbers *)




(** Coincident points: [a] is exactly [+0]. *)
Lemma haversine_coincident (Math : Double.MathLib.t) (c : Double.Coord.t) :
  is_finite (Double.Coord.lat c) = true ->
  is_finite (Double.Coord.lng c) = true ->
  Double.MathLib.sin Math 0%float = 0%float ->
  (abs (Double.MathLib.cos Math (Double.Coord.lat c * Double.Math_PI / 180))
   <=? 1)%float = true ->
  Double.haversine Math c c = 0%float.
Proof.
  intros Hlat Hlng Hsin Hcos. unfold Double.haversine.
  rewrite (sub_diag_float _ Hlat), (sub_diag_float _ Hlng).
  replace (0 * Double.Math_PI / 180 / 2)%float with 0%float by reflexivity.
  rewrite Hsin.
  replace (0 * 0)%float with 0%float by reflexivity.
  apply add_zero_mul_zero_zero.
  now apply mul_le_one_spec.
Qed.


(** When the result is NaN. *)
Lemma getDistanceMeters_is_nan (Math : Double.MathLib.t)
    (c1 c2 : Double.Coord.t) :
  let a := Double.haversine Math c1 c2 in
  is_nan (Double.MathLib.atan2 Math (Double.Math_sqrt a)
            (Double.Math_sqrt (1 - a)))
  = is_nan (Double.Math_sqrt a) || is_nan (Double.Math_sqrt (1 - a)) ->
  is_nan (Double.getDistanceMeters Math c1 c2)
  = is_nan a || (a <? 0)%float || (1 - a <? 0)%float.
Proof.
  intros a Hatan. unfold Double.getDistanceMeters, Double.centralAngle.
  fold a.
  rewrite (is_nan_mul_finite 6371e3) by exact I.
  rewrite (is_nan_mul_finite 2) by exact I.
  rewrite Hatan. unfold Double.Math_sqrt. rewrite !is_nan_sqrt.
  rewrite (is_nan_sub_finite 1 a) by exact I.
  destruct (is_nan a), (a <? 0)%float, (1 - a <? 0)%float; reflexivity.
Qed.

(** C4 (as the code has it).  The code has no clamp: [Math.sqrt] gets [a]
    and [1 - a] as they were computed.  Whenever [Math.atan2] follows its
    NaN rule on the two square roots (its result is NaN exactly when one
    of its arguments is), the distance is NaN exactly when the computed
    [a] is NaN, [a] is below zero or [1 - a] is below zero, that is,
    exactly when [a] is NaN or a square root is taken of a number below
    zero.  For coincident points with finite coordinates, [Math.sin(0)]
    being [0] and the cosine of the latitude being at most 1 in magnitude,
    [a] is exactly [0]. *)
Theorem getDistanceMeters_nan_without_clamp (Math : Double.MathLib.t)
    (c1 c2 c : Double.Coord.t) :
  let a := Double.haversine Math c1 c2 in
  is_nan (Double.MathLib.atan2 Math (Double.Math_sqrt a)
            (Double.Math_sqrt (1 - a)))
  = is_nan (Double.Math_sqrt a) || is_nan (Double.Math_sqrt (1 - a)) ->
  is_finite (Double.Coord.lat c) = true ->
  is_finite (Double.Coord.lng c) = true ->
  Double.MathLib.sin Math 0%float = 0%float ->
  (abs (Double.MathLib.cos Math (Double.Coord.lat c * Double.Math_PI / 180))
   <=? 1)%float = true ->
  is_nan (Double.getDistanceMeters Math c1 c2)
  = is_nan a || (a <? 0)%float || (1 - a <? 0)%float /\
  Double.haversine Math c c = 0%float.
Proof.
  intros a Hatan Hlat Hlng Hsin Hcos. split.
  - now apply getDistanceMeters_is_nan.
  - now apply haversine_coincident.
Qed.

Lemma getDistanceMeters_nan_without_clamp_witness :
  let c1 := Double.Coord.mk 8 0 in
  let c2 := Double.Coord.mk (-8) 180 in
  let a := Double.haversine Fdlibm.host c1 c2 in
  a = 0x1.0000000000001p+0%float /\
  (is_nan (Double.getDistanceMeters Fdlibm.host c1 c2)
   = is_nan a || (a <? 0)%float || (1 - a <? 0)%float /\
   Double.haversine Fdlibm.host c1 c1 = 0%float).
Proof.
  split; [vm_compute; reflexivity |].
  apply (getDistanceMeters_nan_without_clamp Fdlibm.host
           (Double.Coord.mk 8 0) (Double.Coord.mk (-8) 180)
           (Double.Coord.mk 8 0));
    vm_compute; reflexivity.
Defined.

(** C4 fails as stated.  For the antipodal points (8, 0) and (-8, 180),
    with fdlibm's sine and cosine, the computed [a] is
    1.0000000000000002, the next number above 1: [1 - a] is below zero,
    its square root is NaN and so is the distance, in both orders of the
    arguments, where the inverse-trig step on an [a] clamped to 1 gives
    20015086.79602057 meters.  The four calls of [sin] and [cos] are
    within the range given above. *)
Lemma getDistanceMeters_antipodal_nan_counterexample :
  let c1 := Double.Coord.mk 8 0 in
  let c2 := Double.Coord.mk (-8) 180 in
  let a := Double.haversine Fdlibm.host c1 c2 in
  Fdlibm.sin (-0x1.1df46a2529d39p-3) = Some (-0x1.1d06c968d9e19p-3)%float /\
  Fdlibm.cos 0x1.1df46a2529d39p-3 = Some 0x1.fb046a930947ap-1%float /\
  Fdlibm.cos (-0x1.1df46a2529d39p-3) = Some 0x1.fb046a930947ap-1%float /\
  Fdlibm.sin 0x1.921fb54442d18p+0 = Some 1%float /\
  a = 0x1.0000000000001p+0%float /\
  (1 - a <? 0)%float = true /\
  is_nan (Double.Math_sqrt (1 - a)) = true /\
  is_nan (Double.getDistanceMeters Fdlibm.host c1 c2) = true /\
  is_nan (Double.getDistanceMeters Fdlibm.host c2 c1) = true /\
  (6371e3 * Double.centralAngle Fdlibm.host 1)%float
  = 0x1.3167eecbc8011p+24%float.
Proof. vm_compute. repeat split; reflexivity. Qed.




(** * Further properties of the code *)

(** ** Zoom *)

Lemma handleWheel_step (deltaY : number) (prev : ViewState.t) :
  ViewState.scale prev <> NaN ->
  exists r,
    ViewState.scale (handleWheel deltaY prev) = Fin r /\ 0.5 <= r <= 5 /\
    (forall s, ViewState.scale prev = Fin s -> 0.5 <= s <= 5 ->
               if (Fin 0 <? deltaY)%num then r <= s else s <= r).
Proof.
  intros Hnan. unfold handleWheel. cbn [ViewState.scale].
  destruct (ViewState.scale prev) as [s | | |]; [| | | congruence];
    destruct (Fin 0 <? deltaY)%num;
    cbn [Num.mul]; unfold Num.inf_sign, Math_max, Math_min; cbn [Num.lt];
    case_R; cbn [Num.lt]; case_R;
    try lra; eexists; (split; [reflexivity |]); (split; [lra |]);
    intros s' Hs' Hrange; try discriminate; injection Hs' as <-; lra.
Qed.

(** X1. Zoom bounds.  After any non-empty sequence of wheel events on a
    view whose scale is not NaN, the scale is a real number between 0.5
    and 5 and the translation is what it was. *)
Theorem handleWheel_keeps_scale_in_range (deltas : list number)
    (vs : ViewState.t) :
  ViewState.scale vs <> NaN ->
  deltas <> [] ->
  let vs' := fold_left (fun v deltaY => handleWheel deltaY v) deltas vs in
  (exists r, ViewState.scale vs' = Fin r /\ 0.5 <= r <= 5) /\
  ViewState.x vs' = ViewState.x vs /\ ViewState.y vs' = ViewState.y vs.
Proof.
  intros Hnan Hne. destruct deltas as [|d deltas]; [congruence |]. clear Hne.
  cbn [fold_left].
  destruct (handleWheel_step d vs Hnan) as (r & Hr & Hrange & _).
  assert (Hx : ViewState.x (handleWheel d vs) = ViewState.x vs) by reflexivity.
  assert (Hy : ViewState.y (handleWheel d vs) = ViewState.y vs) by reflexivity.
  revert Hr Hrange Hx Hy. generalize (handleWheel d vs). clear d Hnan.
  revert r. induction deltas as [|d deltas IH]; intros r v Hr Hrange Hx Hy.
  - cbn. split; [now exists r | now split].
  - cbn [fold_left].
    assert (Hnan : ViewState.scale v <> NaN) by (rewrite Hr; discriminate).
    destruct (handleWheel_step d v Hnan) as (r' & Hr' & Hrange' & _).
    apply (IH r'); try assumption; cbn [handleWheel ViewState.x ViewState.y];
      assumption.
Qed.

Lemma handleWheel_keeps_scale_in_range_witness :
  let vs := ViewState.mk (Fin 12) (Fin (-7)) (Fin 4.8) in
  let deltas := [Fin (-100); Fin (-100); Fin 53] in
  ViewState.scale vs <> NaN /\ deltas <> [] /\
  let vs' := fold_left (fun v deltaY => handleWheel deltaY v) deltas vs in
  (exists r, ViewState.scale vs' = Fin r /\ 0.5 <= r <= 5) /\
  ViewState.x vs' = Fin 12 /\ ViewState.y vs' = Fin (-7).
Proof.
  intros vs deltas.
  assert (Hnan : ViewState.scale vs <> NaN) by discriminate.
  assert (Hne : deltas <> []) by discriminate.
  exact (conj Hnan (conj Hne
           (handleWheel_keeps_scale_in_range deltas vs Hnan Hne))).
Defined.

(** X2. Zoom direction.  On a scale within the range, a wheel event with
    a positive [deltaY] never increases the scale and any other event
    never decreases it. *)
Theorem handleWheel_direction (deltaY : number) (vs : ViewState.t) (s : R) :
  ViewState.scale vs = Fin s ->
  0.5 <= s <= 5 ->
  exists r,
    ViewState.scale (handleWheel deltaY vs) = Fin r /\
    (if (Fin 0 <? deltaY)%num then r <= s else s <= r).
Proof.
  intros Hs Hrange.
  assert (Hnan : ViewState.scale vs <> NaN) by (rewrite Hs; discriminate).
  destruct (handleWheel_step deltaY vs Hnan) as (r & Hr & _ & Hdir).
  exists r. split; [exact Hr |]. now apply (Hdir s).
Qed.

Lemma handleWheel_direction_witness :
  let vs := ViewState.mk (Fin 0) (Fin 0) (Fin 1) in
  ViewState.scale vs = Fin 1 /\ 0.5 <= 1 <= 5 /\
  exists r,
    ViewState.scale (handleWheel (Fin 3) vs) = Fin r /\
    (if (Fin 0 <? Fin 3)%num then r <= 1 else 1 <= r).
Proof.
  intros vs.
  assert (Hs : ViewState.scale vs = Fin 1) by reflexivity.
  assert (Hrange : 0.5 <= 1 <= 5) by lra.
  exact (conj Hs (conj Hrange (handleWheel_direction (Fin 3) vs 1 Hs Hrange))).
Defined.


(** ** Pan *)

Lemma last_cons_default {A : Type} (a : A) (l : list A) (d : A) :
  List.last (a :: l) d = List.last l a.
Proof.
  revert a d. induction l as [|b l IH]; intros a d; [reflexivity |].
  change (List.last (a :: b :: l) d) with (List.last (b :: l) d).
  now rewrite !IH.
Qed.

Lemma pointerMoves_dragging (moves : list (R * R)) (vx vy : R) (sc : number)
    (lx ly : R) :
  pointerMoves moves
    (MapView.mk (ViewState.mk (Fin vx) (Fin vy) sc) true
       (ScreenPos.mk (Fin lx) (Fin ly)))
  = MapView.mk
      (ViewState.mk (Fin (vx + ((List.last moves (lx, ly)).1 - lx)))
                    (Fin (vy + ((List.last moves (lx, ly)).2 - ly))) sc)
      true
      (ScreenPos.mk (Fin (List.last moves (lx, ly)).1) (Fin (List.last moves (lx, ly)).2)).
Proof.
  revert vx vy lx ly. induction moves as [|[px py] moves IH]; intros vx vy lx ly.
  - cbn. f_equal; f_equal; f_equal; ring.
  - unfold pointerMoves in *. cbn [fold_left].
    unfold handlePointerMove at 2.
    cbn [MapView.isDragging negb MapView.lastPos MapView.viewState
         ScreenPos.x ScreenPos.y ViewState.x ViewState.y ViewState.scale
         Num.sub Num.neg Num.add fst snd].
    rewrite IH.
    rewrite (last_cons_default (px, py) moves (lx, ly)).
    f_equal; f_equal; f_equal; ring.
Qed.

(** X3. The map follows the pointer.  After a pointer down and any
    sequence of pointer moves, the translation of the view has changed by
    exactly the displacement of the pointer since the pointer down, and the
    scale has not changed; once the pointer is up, moves change nothing. *)
Theorem drag_follows_pointer (vx vy : R) (sc : number) (dragging : bool)
    (last0 : ScreenPos.t) (downX downY : R) (moves : list (R * R)) :
  let v := MapView.mk (ViewState.mk (Fin vx) (Fin vy) sc) dragging last0 in
  let dragged := pointerMoves moves (handlePointerDown (Fin downX) (Fin downY) v) in
  let final := List.last moves (downX, downY) in
  MapView.viewState dragged
  = ViewState.mk (Fin (vx + (final.1 - downX))) (Fin (vy + (final.2 - downY))) sc /\
  (forall moves' : list (R * R),
      MapView.viewState (pointerMoves moves' (handlePointerUp dragged))
      = MapView.viewState dragged).
Proof.
  intros v dragged final. unfold dragged, v, handlePointerDown.
  cbn [MapView.viewState]. rewrite pointerMoves_dragging.
  split; [reflexivity |].
  intros moves'. unfold handlePointerUp. cbn [MapView.viewState MapView.lastPos].
  generalize (ScreenPos.mk (Fin (List.last moves (downX, downY)).1)
                           (Fin (List.last moves (downX, downY)).2)).
  generalize (ViewState.mk (Fin (vx + ((List.last moves (downX, downY)).1 - downX)))
                (Fin (vy + ((List.last moves (downX, downY)).2 - downY))) sc).
  intros vs lp. unfold pointerMoves.
  induction moves' as [|p moves' IH]; [reflexivity |].
  cbn [fold_left]. exact IH.
Qed.

(** ** The screen transform *)

(** X4. A click is read back where the image is drawn.  In exact
    arithmetic, for a non-zero scale, [screenToNatural] and
    [naturalToScreen] are inverse of each other.  This is an identity
    between real numbers; the rounding of the code's division and
    multiplication is outside it. *)
Theorem screen_natural_round_trip (vx vy s : R) (px py : R) :
  s <> 0 ->
  let vs := view_of_reals vx vy s in
  naturalToScreen vs (screenToNatural vs (ScreenPos.mk (Fin px) (Fin py)))
  = ScreenPos.mk (Fin px) (Fin py) /\
  screenToNatural vs (naturalToScreen vs (PixelCoord.mk (Fin px) (Fin py)))
  = PixelCoord.mk (Fin px) (Fin py).
Proof.
  intros Hs vs. unfold naturalToScreen, screenToNatural, vs, view_of_reals.
  cbn [ViewState.x ViewState.y ViewState.scale ScreenPos.x ScreenPos.y
       PixelCoord.x PixelCoord.y Num.sub Num.neg Num.add Num.mul].
  rewrite !div_fin by exact Hs.
  cbn [Num.mul Num.add]. split; f_equal; f_equal; field; exact Hs.
Qed.

Lemma screen_natural_round_trip_witness :
  let vs := view_of_reals 30 (-12) 2.5 in
  2.5 <> 0 /\
  naturalToScreen vs (screenToNatural vs (ScreenPos.mk (Fin 400) (Fin 300)))
  = ScreenPos.mk (Fin 400) (Fin 300) /\
  screenToNatural vs (naturalToScreen vs (PixelCoord.mk (Fin 400) (Fin 300)))
  = PixelCoord.mk (Fin 400) (Fin 300).
Proof.
  intros vs.
  assert (Hs : 2.5 <> 0) by lra.
  exact (conj Hs (screen_natural_round_trip 30 (-12) 2.5 400 300 Hs)).
Defined.

(** X5. Centring on the user.  In exact arithmetic, with a position, a
    projected pixel and a non-zero scale the button moves the view so that
    the user's pixel is drawn at the centre of the container, at the same
    scale; with a scale of 0 it leaves the view alone.  The centre is met
    as an identity between real numbers; the rounding of the code's
    operations is outside it. *)
Theorem centerOnUser_centres (cw ch vx vy s ux uy : R) (g : Coord.t) :
  s <> 0 ->
  let up := PixelCoord.mk (Fin ux) (Fin uy) in
  (exists vs',
      centerOnUser (Fin cw) (Fin ch) (Some g) (Some up) (view_of_reals vx vy s)
      = Some vs' /\
      ViewState.scale vs' = Fin s /\
      naturalToScreen vs' up = ScreenPos.mk (Fin (cw / 2)) (Fin (ch / 2))) /\
  centerOnUser (Fin cw) (Fin ch) (Some g) (Some up) (view_of_reals vx vy 0) = None.
Proof.
  intros Hs up. split.
  - unfold centerOnUser, view_of_reals. cbn [ViewState.scale Num.truthy].
    apply Reqb_false in Hs. rewrite Hs. cbn [negb].
    eexists. split; [reflexivity |]. split; [reflexivity |].
    unfold naturalToScreen, up.
    cbn [ViewState.x ViewState.y ViewState.scale PixelCoord.x PixelCoord.y
         Num.mul].
    rewrite !div_fin by lra.
    cbn [Num.sub Num.neg Num.add]. f_equal; f_equal; ring.
  - unfold centerOnUser, view_of_reals. cbn [ViewState.scale Num.truthy].
    assert (H0 : Reqb 0 0 = true) by now apply Reqb_true.
    now rewrite H0.
Qed.

Lemma centerOnUser_centres_witness :
  let up := PixelCoord.mk (Fin 120) (Fin 80) in
  2 <> 0 /\
  (exists vs',
      centerOnUser (Fin 800) (Fin 600) (Some (coord_of_reals 24 121)) (Some up)
        (view_of_reals 5 5 2) = Some vs' /\
      ViewState.scale vs' = Fin 2 /\
      naturalToScreen vs' up = ScreenPos.mk (Fin (800 / 2)) (Fin (600 / 2))) /\
  centerOnUser (Fin 800) (Fin 600) (Some (coord_of_reals 24 121)) (Some up)
    (view_of_reals 5 5 0) = None.
Proof.
  intros up.
  assert (Hs : 2 <> 0) by lra.
  exact (conj Hs (centerOnUser_centres 800 600 5 5 2 120 80
                    (coord_of_reals 24 121) Hs)).
Defined.

(** X6. The initial view fits and centres the image.  In exact
    arithmetic, for an image and a container of positive sizes,
    [handleImageLoad] sets a positive scale under which the scaled image
    is no larger than the container and as large as it in one direction at
    least, with equal margins on both sides: the corners of the image land
    at [(x, y)] and at [(cw - x, ch - y)] with [x] and [y] non-negative.
    The margins are real numbers here; the rounding of the code's
    quotient and product, which can leave a margin a rounding error below
    zero, is outside the statement. *)
Theorem handleImageLoad_fits (nw nh cw ch : R) (vs : ViewState.t) :
  0 < nw -> 0 < nh -> 0 < cw -> 0 < ch ->
  exists x y s,
    handleImageLoad (Fin nw) (Fin nh) (Some (Fin cw, Fin ch)) vs
    = view_of_reals x y s /\
    0 < s /\ 0 <= x /\ 0 <= y /\ (x = 0 \/ y = 0) /\
    naturalToScreen (view_of_reals x y s) (PixelCoord.mk (Fin 0) (Fin 0))
    = ScreenPos.mk (Fin x) (Fin y) /\
    naturalToScreen (view_of_reals x y s) (PixelCoord.mk (Fin nw) (Fin nh))
    = ScreenPos.mk (Fin (cw - x)) (Fin (ch - y)).
Proof.
  intros Hnw Hnh Hcw Hch. unfold handleImageLoad.
  rewrite !div_fin by lra.
  assert (Hqw : 0 < cw / nw) by (apply Rdiv_lt_0_compat; lra).
  assert (Hqh : 0 < ch / nh) by (apply Rdiv_lt_0_compat; lra).
  assert (Hw : nw * (cw / nw) = cw) by (field; lra).
  assert (Hh : nh * (ch / nh) = ch) by (field; lra).
  unfold Math_min. cbn [Num.lt].
  destruct (Rltb (ch / nh) (cw / nw)) eqn:E;
    [apply Rltb_true in E | apply Rltb_false in E];
    cbn [Num.mul Num.sub Num.neg Num.add]; rewrite !div_fin by lra;
    eexists _, _, _; (split; [unfold view_of_reals; reflexivity |]);
    unfold naturalToScreen, view_of_reals;
    cbn [ViewState.x ViewState.y ViewState.scale PixelCoord.x PixelCoord.y
         Num.mul Num.add].
  - split; [lra |]. split; [nra |]. split; [nra |]. split; [right; nra |].
    split; f_equal; f_equal; nra.
  - split; [lra |]. split; [nra |]. split; [nra |]. split; [left; nra |].
    split; f_equal; f_equal; nra.
Qed.

Lemma handleImageLoad_fits_witness :
  0 < 2000 /\ 0 < 1000 /\ 0 < 400 /\ 0 < 800 /\
  exists x y s,
    handleImageLoad (Fin 2000) (Fin 1000) (Some (Fin 400, Fin 800))
      (view_of_reals 0 0 1)
    = view_of_reals x y s /\
    0 < s /\ 0 <= x /\ 0 <= y /\ (x = 0 \/ y = 0) /\
    naturalToScreen (view_of_reals x y s) (PixelCoord.mk (Fin 0) (Fin 0))
    = ScreenPos.mk (Fin x) (Fin y) /\
    naturalToScreen (view_of_reals x y s) (PixelCoord.mk (Fin 2000) (Fin 1000))
    = ScreenPos.mk (Fin (400 - x)) (Fin (800 - y)).
Proof.
  assert (H1 : 0 < 2000) by lra. assert (H2 : 0 < 1000) by lra.
  assert (H3 : 0 < 400) by lra. assert (H4 : 0 < 800) by lra.
  exact (conj H1 (conj H2 (conj H3 (conj H4
           (handleImageLoad_fits 2000 1000 400 800 (view_of_reals 0 0 1)
              H1 H2 H3 H4))))).
Defined.

(** ** Markers *)

(** X7. Size of a marker on the screen.  In exact arithmetic, the
    counter-scale of a marker is at least 0.5; up to a zoom of 2 it
    cancels the zoom exactly (the marker keeps its size on the screen),
    above 2 it stays at 0.5 and the marker grows with the zoom.  The
    product [s * (1 / s)] is 1 as a real number; the rounding of the
    code's quotient is outside the statement. *)
Theorem inverseScale_cancels_zoom_up_to_2 (s : R) :
  0 < s ->
  exists k,
    inverseScale (Fin s) = Fin k /\ 0.5 <= k /\
    (s <= 2 -> s * k = 1) /\ (2 <= s -> k = 0.5 /\ s * k = s / 2).
Proof.
  intros Hs. unfold inverseScale. rewrite div_fin by lra.
  assert (Hinv : 0 < 1 / s) by (apply Rdiv_lt_0_compat; lra).
  assert (Hmul : s * (1 / s) = 1) by (field; lra).
  unfold Math_max. cbn [Num.lt].
  destruct (Rltb 0.5 (1 / s)) eqn:E;
    [apply Rltb_true in E | apply Rltb_false in E];
    eexists; (split; [reflexivity |]).
  - split; [lra |]. split; [intros _; exact Hmul |]. intros H2. nra.
  - split; [lra |]. split; [intros H2; nra |]. intros _. split; lra.
Qed.

Lemma inverseScale_cancels_zoom_up_to_2_witness :
  0 < 5 /\
  exists k,
    inverseScale (Fin 5) = Fin k /\ 0.5 <= k /\
    (5 <= 2 -> 5 * k = 1) /\ (2 <= 5 -> k = 0.5 /\ 5 * k = 5 / 2).
Proof.
  assert (H : 0 < 5) by lra.
  exact (conj H (inverseScale_cancels_zoom_up_to_2 5 H)).
Defined.

(** ** More on the solver *)

(** X8. The solver interpolates linearly.  In exact arithmetic, when the
    solver returns a transform for three points with real coordinates, a
    position that is a weighted average of the three geographic positions
    (weights summing to 1) is projected on the same weighted average of
    the three pixels.  The equality is between real numbers; the rounding
    of the solver and of the projection is outside it. *)
Theorem barycentric_projection (i1 i2 i3 : number)
    (x1 y1 la1 ln1 x2 y2 la2 ln2 x3 y3 la3 ln3 : R)
    (rest : list CalibrationPoint.t) (t : AffineTransform.t) (a b c : R) :
  getAffineTransform
    (CalibrationPoint.mk i1 (Fin x1) (Fin y1) (Fin la1) (Fin ln1) ::
     CalibrationPoint.mk i2 (Fin x2) (Fin y2) (Fin la2) (Fin ln2) ::
     CalibrationPoint.mk i3 (Fin x3) (Fin y3) (Fin la3) (Fin ln3) :: rest)
  = Some t ->
  a + b + c = 1 ->
  latLngToPixel (Fin (a * la1 + b * la2 + c * la3))
                (Fin (a * ln1 + b * ln2 + c * ln3)) (Some t)
  = Some (PixelCoord.mk (Fin (a * x1 + b * x2 + c * x3))
                        (Fin (a * y1 + b * y2 + c * y3))).
Proof.
  intros Ht Hsum.
  apply getAffineTransform_finite in Ht as [Hdet ->].
  assert (Hnz : geo_det la1 ln1 la2 ln2 la3 ln3 <> 0).
  { intros E. rewrite E, Rabs_R0 in Hdet. lra. }
  replace c with (1 - a - b) by lra.
  simpl; unfold geo_det in *; f_equal; f_equal; f_equal; field; exact Hnz.
Qed.

Lemma barycentric_projection_witness :
  exists t,
    getAffineTransform sample_points = Some t /\
    / 2 + / 4 + / 4 = 1 /\
    latLngToPixel (Fin (/ 2 * 0 + / 4 * 0 + / 4 * 1))
                  (Fin (/ 2 * 0 + / 4 * 1 + / 4 * 0)) (Some t)
    = Some (PixelCoord.mk (Fin (/ 2 * 0 + / 4 * 10 + / 4 * 0))
                          (Fin (/ 2 * 0 + / 4 * 0 + / 4 * 10))).
Proof.
  destruct sample_points_transform as [t Ht]. exists t.
  assert (Hsum : / 2 + / 4 + / 4 = 1) by lra.
  exact (conj Ht (conj Hsum
           (barycentric_projection (Fin 0) (Fin 0) (Fin 0)
              0 0 0 0 10 0 0 1 0 10 1 0 [point_of_reals 7 7 5 5] t
              (/ 2) (/ 4) (/ 4) Ht Hsum))).
Defined.

(** X9. The transform is the only one.  In exact arithmetic, when the
    solver returns a transform for three points with real coordinates,
    every transform with real coefficients that projects each of the three
    geographic positions on its pixel is that transform.  Uniqueness is
    over the real numbers; with rounded operations several transforms can
    project the three positions on their pixels. *)
Theorem getAffineTransform_unique (i1 i2 i3 : number)
    (x1 y1 la1 ln1 x2 y2 la2 ln2 x3 y3 la3 ln3 : R)
    (rest : list CalibrationPoint.t) (t : AffineTransform.t)
    (A B C D E F : R) :
  let t' := AffineTransform.mk (Fin A) (Fin B) (Fin C) (Fin D) (Fin E) (Fin F) in
  getAffineTransform
    (CalibrationPoint.mk i1 (Fin x1) (Fin y1) (Fin la1) (Fin ln1) ::
     CalibrationPoint.mk i2 (Fin x2) (Fin y2) (Fin la2) (Fin ln2) ::
     CalibrationPoint.mk i3 (Fin x3) (Fin y3) (Fin la3) (Fin ln3) :: rest)
  = Some t ->
  latLngToPixel (Fin la1) (Fin ln1) (Some t')
  = Some (PixelCoord.mk (Fin x1) (Fin y1)) ->
  latLngToPixel (Fin la2) (Fin ln2) (Some t')
  = Some (PixelCoord.mk (Fin x2) (Fin y2)) ->
  latLngToPixel (Fin la3) (Fin ln3) (Some t')
  = Some (PixelCoord.mk (Fin x3) (Fin y3)) ->
  t' = t.
Proof.
  intros t' Ht H1 H2 H3.
  apply getAffineTransform_finite in Ht as [Hdet ->].
  assert (Hnz : geo_det la1 ln1 la2 ln2 la3 ln3 <> 0).
  { intros E0. rewrite E0, Rabs_R0 in Hdet. lra. }
  unfold t' in *. cbn in H1, H2, H3.
  injection H1 as <- <-. injection H2 as <- <-. injection H3 as <- <-.
  unfold geo_det in *. f_equal; f_equal; field; exact Hnz.
Qed.

Lemma getAffineTransform_unique_witness :
  exists t,
    getAffineTransform sample_points = Some t /\
    AffineTransform.mk (Fin 0) (Fin 10) (Fin 0) (Fin 10) (Fin 0) (Fin 0) = t.
Proof.
  destruct sample_points_transform as [t Ht]. exists t. split; [exact Ht |].
  apply (getAffineTransform_unique (Fin 0) (Fin 0) (Fin 0)
           0 0 0 0 10 0 0 1 0 10 1 0 [point_of_reals 7 7 5 5] t
           0 10 0 10 0 0 Ht);
    cbn; f_equal; f_equal; f_equal; ring.
Defined.

(** ** More on the great-circle distance *)

Lemma cos_zero_quarter (x : R) : 0 <= x <= PI / 2 -> cos x <= 0 -> x = PI / 2.
Proof.
  intros Hx Hc. destruct (Rlt_dec x (PI / 2)) as [Hlt | Hge]; [| lra].
  pose proof (cos_gt_0 x) as H. lra.
Qed.

(** From the square of the sine of half the angle back to the angle. *)
Lemma centralAngle_sin2 (x : R) :
  0 <= x <= PI / 2 -> centralAngle (Fin (sin x * sin x)) = Fin (2 * x).
Proof.
  intros Hx. pose proof PI_RGT_0 as Hpi.
  assert (Hsin : 0 <= sin x) by (apply sin_ge_0; lra).
  assert (Hcos : 0 <= cos x) by (apply cos_ge_0; lra).
  pose proof (sin2_cos2 x) as Hsc. unfold Rsqr in Hsc.
  unfold centralAngle. rewrite sqrt_fin by nra.
  cbn [Num.sub Num.neg Num.add]. rewrite sqrt_fin by nra.
  rewrite sqrt_square by exact Hsin.
  replace (1 + - (sin x * sin x)) with (cos x * cos x) by lra.
  rewrite sqrt_square by exact Hcos.
  unfold Math.atan2. case_R; try lra; cbn [Num.mul]; f_equal.
  - change (sin x / cos x) with (tan x).
    rewrite atan_tan; [lra |].
    split; [lra |]. destruct (Rlt_dec x (PI / 2)) as [Hlt' | Hge]; [exact Hlt' |].
    exfalso. assert (x = PI / 2) by lra. subst x. rewrite cos_PI2 in Hlt. lra.
  - rewrite (cos_zero_quarter x Hx) by lra. field.
  - exfalso. nra.
Qed.

Lemma centralAngle_sin2_abs (x : R) :
  Rabs x <= PI / 2 -> centralAngle (Fin (sin x * sin x)) = Fin (2 * Rabs x).
Proof.
  intros Hx. unfold Rabs in *. destruct (Rcase_abs x) as [Hneg | Hpos].
  - replace (sin x * sin x) with (sin (- x) * sin (- x))
      by (rewrite sin_neg; ring).
    apply centralAngle_sin2. lra.
  - apply centralAngle_sin2. lra.
Qed.

(** X10. Arc length.  Between two points of one meridian at most 180
    degrees of latitude apart, and between two points of the equator at
    most 180 degrees of longitude apart, the distance is the length of the
    arc: the radius times the angle in radians. *)
Theorem getDistanceMeters_arc_length (la1 la2 ln d1 d2 : R) :
  Rabs (la2 - la1) <= 180 ->
  Rabs (d2 - d1) <= 180 ->
  getDistanceMeters (coord_of_reals la1 ln) (coord_of_reals la2 ln)
  = Fin (6371e3 * (Rabs (la2 - la1) * PI / 180)) /\
  getDistanceMeters (coord_of_reals 0 d1) (coord_of_reals 0 d2)
  = Fin (6371e3 * (Rabs (d2 - d1) * PI / 180)).
Proof.
  intros Hla Hd. pose proof PI_RGT_0 as Hpi.
  assert (Hscale : forall u, Rabs (u * PI / 180 / 2) = Rabs u * PI / 180 / 2).
  { intros u. unfold Rabs. destruct (Rcase_abs u) as [Hu | Hu];
      destruct (Rcase_abs (u * PI / 180 / 2)) as [Hv | Hv]; try lra; nra. }
  unfold getDistanceMeters, coord_of_reals. rewrite !haversine_finite. split.
  - assert (Ha : hav_R la1 ln la2 ln
                 = sin ((la2 - la1) * PI / 180 / 2) * sin ((la2 - la1) * PI / 180 / 2)).
    { unfold hav_R. replace ((ln - ln) * PI / 180 / 2) with 0 by field.
      rewrite sin_0. ring. }
    rewrite Ha, centralAngle_sin2_abs by (rewrite Hscale; nra).
    cbn [Num.mul]. f_equal. rewrite Hscale. field.
  - assert (Ha : hav_R 0 d1 0 d2
                 = sin ((d2 - d1) * PI / 180 / 2) * sin ((d2 - d1) * PI / 180 / 2)).
    { unfold hav_R. replace ((0 - 0) * PI / 180 / 2) with 0 by field.
      replace (0 * PI / 180) with 0 by field.
      rewrite sin_0, cos_0. ring. }
    rewrite Ha, centralAngle_sin2_abs by (rewrite Hscale; nra).
    cbn [Num.mul]. f_equal. rewrite Hscale. field.
Qed.

Lemma getDistanceMeters_arc_length_witness :
  Rabs (0.01 - 0) <= 180 /\ Rabs (121.5 - 121) <= 180 /\
  getDistanceMeters (coord_of_reals 0 0) (coord_of_reals 0.01 0)
  = Fin (6371e3 * (Rabs (0.01 - 0) * PI / 180)) /\
  getDistanceMeters (coord_of_reals 0 121) (coord_of_reals 0 121.5)
  = Fin (6371e3 * (Rabs (121.5 - 121) * PI / 180)).
Proof.
  assert (H1 : Rabs (0.01 - 0) <= 180)
    by (unfold Rabs; destruct (Rcase_abs (0.01 - 0)); lra).
  assert (H2 : Rabs (121.5 - 121) <= 180)
    by (unfold Rabs; destruct (Rcase_abs (121.5 - 121)); lra).
  exact (conj H1 (conj H2 (getDistanceMeters_arc_length 0 0.01 0 121 121.5 H1 H2))).
Defined.

(** ** More on the nearest spot *)

Lemma metersPerPixel_cases (p1 p2 : CalibrationPoint.t) :
  metersPerPixel p1 p2 = NaN \/ metersPerPixel p1 p2 = PInf \/
  exists r, metersPerPixel p1 p2 = Fin r /\ 0 <= r.
Proof.
  unfold metersPerPixel.
  destruct (getDistanceMeters_cases
              (Coord.mk (CalibrationPoint.lat p1) (CalibrationPoint.lng p1))
              (Coord.mk (CalibrationPoint.lat p2) (CalibrationPoint.lng p2)))
    as [-> | (m & -> & Hm)]; [now left |].
  destruct (sqrt_cases
              (Math.pow (CalibrationPoint.pixel_x p1 - CalibrationPoint.pixel_x p2) 2 +
               Math.pow (CalibrationPoint.pixel_y p1 - CalibrationPoint.pixel_y p2) 2)%num)
    as [-> | [-> | (r & -> & Hr)]]; cbn [Num.div]; auto.
  - right. right. exists 0. split; [reflexivity | lra].
  - destruct (Reqb r 0) eqn:E; [apply Reqb_true in E | apply Reqb_false in E].
    + unfold Num.inf_sign. case_R; auto. lra.
    + right. right. eexists. split; [reflexivity |].
      assert (0 < r) by (destruct Hr as [Hr | Hr]; [exact Hr | congruence]).
      apply Rle_mult_inv_pos; lra.
Qed.

Lemma spotDistM_cases (up : PixelCoord.t) (p1 p2 : CalibrationPoint.t)
    (spot : Spot.t) :
  spotDistM up p1 p2 spot = NaN \/ spotDistM up p1 p2 spot = PInf \/
  exists r, spotDistM up p1 p2 spot = Fin r /\ 0 <= r.
Proof.
  unfold spotDistM, pixelDist.
  destruct (metersPerPixel_cases p1 p2) as [-> | [-> | (m & -> & Hm)]];
    destruct (sqrt_cases
      ((PixelCoord.x up - Spot.pixel_x spot) * (PixelCoord.x up - Spot.pixel_x spot) +
       (PixelCoord.y up - Spot.pixel_y spot) * (PixelCoord.y up - Spot.pixel_y spot))%num)
      as [-> | [-> | (r & -> & Hr)]]; cbn [Num.mul]; auto;
    unfold Num.inf_sign; case_R; auto; try lra.
  right. right. eexists. split; [reflexivity | nra].
Qed.

Lemma nearest_unguarded (userPixel : option PixelCoord.t)
    (t : option AffineTransform.t) (d : AppData.t) :
  userPixel = None \/ t = None \/
  (length (AppData.calibration_points d) < 2)%nat ->
  nearest userPixel t d = (PInf, None).
Proof.
  intros H. unfold nearest. apply fold_left_fixed. intros spot.
  unfold nearestStep.
  destruct userPixel as [up |]; [| reflexivity].
  destruct t as [tr |]; [| reflexivity].
  destruct H as [H | [H | H]]; try discriminate.
  destruct (Nat.leb_spec 2 (length (AppData.calibration_points d)));
    [lia | reflexivity].
Qed.

(** What [nearest] returns, in every case. *)
Lemma nearest_cases (userPixel : option PixelCoord.t)
    (t : option AffineTransform.t) (d : AppData.t) :
  nearest userPixel t d = (PInf, None) \/
  exists up tr p1 p2 rest k s r,
    userPixel = Some up /\ t = Some tr /\
    AppData.calibration_points d = p1 :: p2 :: rest /\
    AppData.spots d !! k = Some s /\
    spotDistM up p1 p2 s = Fin r /\ 0 <= r /\
    nearest userPixel t d = (Fin r, Some s) /\
    (forall j s', AppData.spots d !! j = Some s' ->
                  (spotDistM up p1 p2 s' <? Fin r)%num = false).
Proof.
  destruct userPixel as [up |]; [| left; apply nearest_unguarded; auto].
  destruct t as [tr |]; [| left; apply nearest_unguarded; auto].
  destruct (AppData.calibration_points d) as [|p1 [|p2 rest]] eqn:Hcps;
    try (left; apply nearest_unguarded; right; right; rewrite Hcps; simpl; lia).
  rewrite (nearest_pick up tr d p1 p2 rest Hcps).
  destruct (fold_pick_spec (spotDistM up p1 p2) (AppData.spots d) PInf None)
    as [[Hfold _] | (k & s & Hk & Hfold & Hlt & Hmin & _)]; [now left |].
  right.
  destruct (spotDistM_cases up p1 p2 s) as [E | [E | (r & E & Hr)]];
    try (rewrite E in Hlt; discriminate).
  exists up, tr, p1, p2, rest, k, s, r.
  rewrite Hfold, E in *. repeat split; auto.
Qed.

(** X11. What the loop returns.  [nearest] returns either [(Infinity,
    null)] or one of the spots of the data together with its distance; that
    distance is a non-negative real number and no spot of the data has a
    strictly smaller one. *)
Theorem nearest_sound (userPixel : option PixelCoord.t)
    (t : option AffineTransform.t) (d : AppData.t) :
  nearest userPixel t d = (PInf, None) \/
  exists up p1 p2 rest s r,
    userPixel = Some up /\
    AppData.calibration_points d = p1 :: p2 :: rest /\
    s ∈ AppData.spots d /\
    nearest userPixel t d = (Fin r, Some s) /\
    spotDistM up p1 p2 s = Fin r /\ 0 <= r /\
    (forall s', s' ∈ AppData.spots d ->
                (spotDistM up p1 p2 s' <? Fin r)%num = false).
Proof.
  destruct (nearest_cases userPixel t d)
    as [H | (up & tr & p1 & p2 & rest & k & s & r
             & Hup & Ht & Hcps & Hk & Hd & Hr & Hn & Hmin)]; [now left |].
  right. exists up, p1, p2, rest, s, r. repeat split; auto.
  - apply list_elem_of_lookup. now exists k.
  - intros s' Hs'. apply list_elem_of_lookup in Hs' as [j Hj]. now apply (Hmin j).
Qed.

(** X12. What the effect stores.  When a position and the data are
    present, the nearest distance stored by the effect is either absent or
    a non-negative real number: never Infinity, never NaN. *)
Theorem proximityEffect_stores_distance (st : AppState.t) (d : AppData.t)
    (g : Coord.t) :
  AppState.data st = Some d ->
  AppState.userGeo st = Some g ->
  AppState.nearestSpotDist (proximityEffect st).1 = None \/
  exists r, AppState.nearestSpotDist (proximityEffect st).1 = Some (Fin r)
            /\ 0 <= r.
Proof.
  intros Hd Hg. unfold proximityEffect. rewrite Hg, Hd.
  destruct (nearest_cases (AppState.userPixel st) (transform (Some d)) d)
    as [-> | (up & tr & p1 & p2 & rest & k & s & r
             & _ & _ & _ & _ & _ & Hr & -> & _)].
  - left. reflexivity.
  - right. exists r. split; [| exact Hr]. cbn [Num.strict_eq].
    destruct (Fin r <? AUTO_SPEECH_DISTANCE)%num; [| reflexivity].
    destruct (spoken_text s); [| reflexivity].
    destruct (bool_decide _); reflexivity.
Qed.

Lemma proximityEffect_stores_distance_witness :
  let st := visitor_state (data_with_scale 1 [spot_guide]) None ∅ in
  AppState.data st = Some (data_with_scale 1 [spot_guide]) /\
  AppState.userGeo st = Some (coord_of_reals 0 0) /\
  (AppState.nearestSpotDist (proximityEffect st).1 = None \/
   exists r, AppState.nearestSpotDist (proximityEffect st).1 = Some (Fin r)
             /\ 0 <= r).
Proof.
  intros st.
  exact (conj eq_refl (conj eq_refl
           (proximityEffect_stores_distance st
              (data_with_scale 1 [spot_guide]) (coord_of_reals 0 0)
              eq_refl eq_refl))).
Defined.


(** ** More on narration *)

Lemma dueSpot_inv (st : AppState.t) (s : Spot.t) (text : string) :
  dueSpot st = Some (s, text) ->
  exists d g m,
    AppState.data st = Some d /\ AppState.userGeo st = Some g /\
    nearest (AppState.userPixel st) (transform (AppState.data st)) d = (m, Some s) /\
    (m <? AUTO_SPEECH_DISTANCE)%num = true /\
    Spot.speech_text s = Some text /\ text <> EmptyString.
Proof.
  unfold dueSpot. intros H.
  destruct (AppState.userGeo st) as [g |]; [| discriminate].
  destruct (AppState.data st) as [d |]; [| discriminate].
  destruct (nearest _ _ d) as [m [s' |]] eqn:Hn; [| discriminate].
  destruct (m <? AUTO_SPEECH_DISTANCE)%num eqn:Hm; [| discriminate].
  unfold spoken_text in H.
  destruct (Spot.speech_text s') as [t |] eqn:Ht; [| discriminate].
  destruct (bool_decide_reflect (t = EmptyString)) as [He | Hne]; [discriminate |].
  injection H as -> ->. exists d, g, m. repeat split; auto.
Qed.

(** X13. Narration is sound.  Every narration event of the effect speaks
    the non-empty text of a spot of the data that had not been narrated,
    whose computed distance is a real number below 20 and is the stored
    nearest distance; the spot is recorded as narrated. *)
Theorem narration_sound (st : AppState.t) (id text : string) :
  Speak id text ∈ (proximityEffect st).2 ->
  exists d up p1 p2 rest s r,
    AppState.data st = Some d /\ AppState.userPixel st = Some up /\
    AppData.calibration_points d = p1 :: p2 :: rest /\
    s ∈ AppData.spots d /\ Spot.id s = id /\
    Spot.speech_text s = Some text /\ text <> EmptyString /\
    spotDistM up p1 p2 s = Fin r /\ 0 <= r < 20 /\
    AppState.nearestSpotDist (proximityEffect st).1 = Some (Fin r) /\
    (id ∉ AppState.readSpeeches st) /\
    (id ∈ AppState.readSpeeches (proximityEffect st).1).
Proof.
  intros Hev. pose proof (proximityEffect_due st) as Hdue.
  destruct (dueSpot st) as [[s t] |] eqn:Hds;
    [| destruct Hdue as [E _]; rewrite E in Hev; now apply elem_of_nil in Hev].
  destruct (bool_decide_reflect (Spot.id s ∈ AppState.readSpeeches st))
    as [Hin | Hout]; destruct Hdue as [E R];
    [rewrite E in Hev; now apply elem_of_nil in Hev |].
  rewrite E in Hev. apply list_elem_of_singleton in Hev.
  injection Hev as Hid Htext. subst id text.
  apply dueSpot_inv in Hds as (d & g & m & Hd & Hg & Hn & Hm & Ht & Hne).
  destruct (nearest_cases (AppState.userPixel st) (transform (AppState.data st)) d)
    as [Hnone | (up & tr & p1 & p2 & rest & k & s' & r
                 & Hup & _ & Hcps & Hk & Hdist & Hr & Hn' & _)];
    [rewrite Hnone in Hn; discriminate |].
  rewrite Hn' in Hn. injection Hn as Hm' Hs'. subst m s'.
  exists d, up, p1, p2, rest, s, r.
  repeat split; auto.
  - apply list_elem_of_lookup. now exists k.
  - simpl in Hm. apply Rltb_true in Hm. exact Hm.
  - unfold proximityEffect. rewrite Hg, Hd. rewrite Hd in Hn'. rewrite Hn'.
    cbn [Num.strict_eq].
    destruct (Fin r <? AUTO_SPEECH_DISTANCE)%num; [| reflexivity].
    destruct (spoken_text s); [| reflexivity].
    destruct (bool_decide _); reflexivity.
  - rewrite R. apply elem_of_union_l. now apply elem_of_singleton.
Qed.

Lemma narration_sound_witness :
  let st := applyUpdate initialState update_near_guide in
  Speak "guide" "welcome" ∈ (proximityEffect st).2 /\
  exists d up p1 p2 rest s r,
    AppState.data st = Some d /\ AppState.userPixel st = Some up /\
    AppData.calibration_points d = p1 :: p2 :: rest /\
    s ∈ AppData.spots d /\ Spot.id s = "guide"%string /\
    Spot.speech_text s = Some "welcome"%string /\
    "welcome"%string <> EmptyString /\
    spotDistM up p1 p2 s = Fin r /\ 0 <= r < 20 /\
    AppState.nearestSpotDist (proximityEffect st).1 = Some (Fin r) /\
    ("guide"%string ∉ AppState.readSpeeches st) /\
    ("guide"%string ∈ AppState.readSpeeches (proximityEffect st).1).
Proof.
  intros st.
  assert (Hev : Speak "guide" "welcome" ∈ (proximityEffect st).2).
  { pose proof (proximityEffect_due st) as H.
    rewrite (dueSpot_guide st) in H by reflexivity.
    case_bool_decide as Hin.
    - now apply elem_of_empty in Hin.
    - destruct H as [-> _]. now apply list_elem_of_singleton. }
  exact (conj Hev (narration_sound st "guide" "welcome" Hev)).
Defined.

(** X14. Nothing without a calibration.  With fewer than three calibration
    points there is no transform, and the effect finds no nearest spot,
    speaks nothing, and leaves the detail view without a distance, so that
    no check-in is possible; the projection effect leaves the user's
    pixel as it was. *)
Theorem uncalibrated_nothing_near (st : AppState.t) (d : AppData.t)
    (g : Coord.t) :
  AppState.data st = Some d ->
  AppState.userGeo st = Some g ->
  (length (AppData.calibration_points d) < 3)%nat ->
  let st' := (proximityEffect st).1 in
  transform (AppState.data st) = None /\
  latLngToPixel (Coord.lat g) (Coord.lng g) (transform (AppState.data st)) = None /\
  projectionEffect st = st /\
  AppState.nearestSpotDist st' = None /\
  (proximityEffect st).2 = [] /\
  userDistance st' = None /\
  checkInEnabled st' = false.
Proof.
  intros Hd Hg Hlen st'.
  assert (Ht : transform (AppState.data st) = None).
  { rewrite Hd. unfold transform.
    destruct (Nat.ltb_spec (length (AppData.calibration_points d)) 3);
      [reflexivity | lia]. }
  assert (Hn : nearest (AppState.userPixel st) (transform (AppState.data st)) d
               = (PInf, None))
    by (apply nearest_unguarded; auto).
  assert (Hst : st' = AppState.mk (AppState.data st) (AppState.selectedSpot st)
                        (AppState.completedMissions st) (AppState.readSpeeches st)
                        (AppState.userGeo st) (AppState.userPixel st) None
                /\ (proximityEffect st).2 = []).
  { unfold st', proximityEffect. rewrite Hg, Hd. rewrite Hd in Hn. rewrite Hn.
    split; reflexivity. }
  destruct Hst as [Hst Hev].
  assert (Hud : userDistance st' = None).
  { rewrite Hst. unfold userDistance. cbn [AppState.selectedSpot AppState.nearestSpotDist].
    destruct (AppState.selectedSpot st); reflexivity. }
  repeat split; auto.
  - now rewrite Ht.
  - unfold projectionEffect. rewrite Hg, Ht. reflexivity.
  - now rewrite Hst.
  - unfold checkInEnabled. rewrite Hud.
    destruct (AppState.selectedSpot st'); [| reflexivity].
    cbn [isNear]. now rewrite andb_false_r.
Qed.

Lemma uncalibrated_nothing_near_witness :
  let d := AppData.mk [point_of_reals 0 0 0 0; point_of_reals 10 0 0 1] [spot_mission] in
  let st := visitor_state d (Some spot_mission) ∅ in
  (length (AppData.calibration_points d) < 3)%nat /\
  transform (AppState.data st) = None /\
  latLngToPixel (Fin 0) (Fin 0) (transform (AppState.data st)) = None /\
  projectionEffect st = st /\
  AppState.nearestSpotDist (proximityEffect st).1 = None /\
  (proximityEffect st).2 = [] /\
  userDistance (proximityEffect st).1 = None /\
  checkInEnabled (proximityEffect st).1 = false.
Proof.
  intros d st.
  assert (Hlen : (length (AppData.calibration_points d) < 3)%nat) by (simpl; lia).
  exact (conj Hlen
           (uncalibrated_nothing_near st d (coord_of_reals 0 0)
              eq_refl eq_refl Hlen)).
Defined.

(** ** Check-in during a visit *)

Lemma proximityEffect_completed (st : AppState.t) :
  AppState.completedMissions (proximityEffect st).1 = AppState.completedMissions st.
Proof.
  unfold proximityEffect.
  destruct (AppState.userGeo st); [| reflexivity].
  destruct (AppState.data st); [| reflexivity].
  destruct (nearest _ _ _) as [m [s |]]; [| reflexivity].
  destruct (m <? AUTO_SPEECH_DISTANCE)%num; [| reflexivity].
  destruct (spoken_text s); [| reflexivity].
  destruct (bool_decide _); reflexivity.
Qed.

Lemma visitStep_completed_mono (st : AppState.t) (ev : VisitEvent) :
  AppState.completedMissions st ⊆ AppState.completedMissions (visitStep st ev).1.
Proof.
  destruct ev as [u |]; cbn [visitStep fst].
  - now rewrite proximityEffect_completed.
  - destruct (AppState.selectedSpot st) as [spot |] eqn:Hs; [| reflexivity].
    destruct (checkInEnabled st); [| reflexivity].
    unfold onCheckIn. rewrite Hs. cbn [fst AppState.completedMissions].
    apply union_subseteq_r.
Qed.

Lemma visitStep_completion (st : AppState.t) (ev : VisitEvent) (id : string) :
  (visitStep st ev).2 = Some id ->
  exists spot dist,
    AppState.selectedSpot st = Some spot /\ Spot.id spot = id /\
    Spot.has_mission spot = true /\
    userDistance st = Some dist /\ (dist <? Fin 30)%num = true /\
    (id ∉ AppState.completedMissions st) /\
    (id ∈ AppState.completedMissions (visitStep st ev).1).
Proof.
  destruct ev as [u |]; cbn [visitStep snd fst]; [discriminate |].
  destruct (AppState.selectedSpot st) as [spot |] eqn:Hs; [| discriminate].
  destruct (checkInEnabled st) eqn:Hen; [| discriminate].
  intros H. injection H as <-.
  unfold checkInEnabled, isCompleted in Hen. rewrite Hs in Hen.
  apply andb_true_iff in Hen as [Hen Hnear].
  apply andb_true_iff in Hen as [Hmission Hdone].
  apply negb_true_iff, bool_decide_eq_false in Hdone.
  unfold isNear in Hnear.
  destruct (userDistance st) as [dist |] eqn:Hd; [| discriminate].
  exists spot, dist. repeat split; auto.
  unfold onCheckIn. rewrite Hs. cbn [fst AppState.completedMissions].
  apply elem_of_union_l. now apply elem_of_singleton.
Qed.

Lemma runVisit_lookup (evs : list VisitEvent) :
  forall (st : AppState.t) (k : nat) (stk : AppState.t) (r : option string),
    runVisit st evs !! k = Some (stk, r) ->
    AppState.completedMissions st ⊆ AppState.completedMissions stk /\
    exists ev evs',
      r = (visitStep stk ev).2 /\
      forall j stj r', runVisit (visitStep stk ev).1 evs' !! j = Some (stj, r') ->
                       runVisit st evs !! (S k + j)%nat = Some (stj, r').
Proof.
  induction evs as [|ev evs IH]; intros st k stk r Hk; [discriminate |].
  destruct k as [|k]; cbn [runVisit] in Hk; simpl in Hk.
  - injection Hk as <- <-. split; [reflexivity |].
    exists ev, evs. split; [reflexivity |]. intros j stj r' Hj. exact Hj.
  - destruct (IH _ _ _ _ Hk) as (Hsub & ev' & evs' & Hr & Hnext).
    split.
    + etransitivity; [apply (visitStep_completed_mono st ev) | exact Hsub].
    + exists ev', evs'. split; [exact Hr |].
      intros j stj r' Hj. apply Hnext in Hj. exact Hj.
Qed.

Lemma runVisit_later (evs : list VisitEvent) :
  forall (st : AppState.t) (i j : nat) (sti stj : AppState.t)
         (ri rj : option string),
    (i < j)%nat ->
    runVisit st evs !! i = Some (sti, ri) ->
    runVisit st evs !! j = Some (stj, rj) ->
    exists ev,
      ri = (visitStep sti ev).2 /\
      AppState.completedMissions (visitStep sti ev).1
      ⊆ AppState.completedMissions stj.
Proof.
  induction evs as [|ev evs IH]; intros st i j sti stj ri rj Hlt Hi Hj;
    [discriminate |].
  destruct j as [|j]; [lia |]. cbn [runVisit] in Hi, Hj. simpl in Hj.
  destruct i as [|i]; simpl in Hi.
  - injection Hi as <- <-. exists ev. split; [reflexivity |].
    now apply (runVisit_lookup evs _ j stj rj).
  - apply (IH (visitStep st ev).1 i j sti stj ri rj); [lia | exact Hi | exact Hj].
Qed.

(** X15. A mission is completed once, from nearby.  Whatever the events of
    a visit, a check-in that completes a mission happens on a selected
    mission spot that was not completed yet, with a distance handed to the
    detail view that is below 30; from then on the mission stays in the
    completed set and no later event completes it again. *)
Theorem checkin_once_from_nearby (st0 : AppState.t) (evs : list VisitEvent)
    (i : nat) (sti : AppState.t) (id : string) :
  runVisit st0 evs !! i = Some (sti, Some id) ->
  (exists spot dist,
      AppState.selectedSpot sti = Some spot /\ Spot.id spot = id /\
      Spot.has_mission spot = true /\
      userDistance sti = Some dist /\ (dist <? Fin 30)%num = true /\
      id ∉ AppState.completedMissions sti) /\
  (forall j stj rj,
      (i < j)%nat -> runVisit st0 evs !! j = Some (stj, rj) ->
      id ∈ AppState.completedMissions stj /\ rj <> Some id).
Proof.
  intros Hi. split.
  - destruct (runVisit_lookup evs st0 i sti (Some id) Hi) as (_ & ev & _ & Hr & _).
    symmetry in Hr.
    destruct (visitStep_completion sti ev id Hr)
      as (spot & dist & H1 & H2 & H3 & H4 & H5 & H6 & _).
    exists spot, dist. repeat split; auto.
  - intros j stj rj Hlt Hj.
    destruct (runVisit_later evs st0 i j sti stj (Some id) rj Hlt Hi Hj)
      as (ev & Hr & Hsub).
    symmetry in Hr.
    destruct (visitStep_completion sti ev id Hr) as (_ & _ & _ & _ & _ & _ & _ & _ & Hin).
    assert (Hdone : id ∈ AppState.completedMissions stj) by (apply Hsub, Hin).
    split; [exact Hdone |].
    intros ->.
    destruct (runVisit_lookup evs st0 j stj (Some id) Hj) as (_ & ev' & _ & Hr' & _).
    symmetry in Hr'.
    destruct (visitStep_completion stj ev' id Hr')
      as (_ & _ & _ & _ & _ & _ & _ & Hnot & _).
    contradiction.
Qed.


Lemma checkin_once_from_nearby_witness :
  exists sti,
    runVisit initialState visit_with_two_presses !! 1%nat = Some (sti, Some "mission"%string) /\
    (exists spot dist,
        AppState.selectedSpot sti = Some spot /\ Spot.id spot = "mission"%string /\
        Spot.has_mission spot = true /\
        userDistance sti = Some dist /\ (dist <? Fin 30)%num = true /\
        ("mission"%string ∉ AppState.completedMissions sti)) /\
    (forall j stj rj,
        (1 < j)%nat ->
        runVisit initialState visit_with_two_presses !! j = Some (stj, rj) ->
        "mission"%string ∈ AppState.completedMissions stj /\
        rj <> Some "mission"%string).
Proof.
  set (st1 := (proximityEffect
                 (visitor_state (data_with_scale 2 [spot_mission])
                    (Some spot_mission) ∅)).1).
  assert (Hlook : runVisit initialState visit_with_two_presses !! 1%nat
                  = Some (st1, Some "mission"%string)).
  { change (runVisit initialState visit_with_two_presses !! 1%nat)
      with (Some (st1, (visitStep st1 PressCheckIn).2)).
    do 2 f_equal. cbn [visitStep].
    destruct (checkin_distance_without_scale 2) as (_ & Hd & Hnear); [lra |].
    fold st1 in Hd, Hnear.
    destruct (proximityEffect_single 2 "mission" 20 0 None true
                (Some spot_mission) ∅) as (_ & Hs & _); [lra |].
    fold spot_mission in Hs. fold st1 in Hs.
    rewrite Hs. unfold checkInEnabled, isCompleted. rewrite Hs, Hnear.
    unfold st1. rewrite proximityEffect_completed.
    cbn [visitor_state AppState.completedMissions].
    case_bool_decide as Hin; [now apply elem_of_empty in Hin |].
    reflexivity. }
  exists st1. split; [exact Hlook |].
  exact (checkin_once_from_nearby initialState visit_with_two_presses 1 st1
           "mission" Hlook).
Defined.


(** ** The administrator's clicks *)

Lemma nearest_same_calibration (up : option PixelCoord.t)
    (t : option AffineTransform.t) (d d' : AppData.t) :
  AppData.spots d' = AppData.spots d ->
  take 2 (AppData.calibration_points d') = take 2 (AppData.calibration_points d) ->
  nearest up t d' = nearest up t d.
Proof.
  intros Hspots Hcps. unfold nearest. rewrite Hspots.
  apply fold_left_ext_acc. intros acc spot. unfold nearestStep.
  destruct up as [p |]; [| reflexivity]. destruct t as [tr |]; [| reflexivity].
  destruct (AppData.calibration_points d) as [|p1 [|p2 rest]];
    destruct (AppData.calibration_points d') as [|q1 [|q2 rest']];
    simpl in Hcps; try discriminate; try reflexivity.
  now injection Hcps as -> ->.
Qed.

Lemma transform_append (d : AppData.t) (p : CalibrationPoint.t) :
  (3 <= length (AppData.calibration_points d))%nat ->
  transform (Some (AppData.mk (AppData.calibration_points d ++ [p]) (AppData.spots d)))
  = transform (Some d).
Proof.
  intros Hlen. unfold transform. cbn [AppData.calibration_points].
  destruct (AppData.calibration_points d) as [|p1 [|p2 [|p3 rest]]];
    simpl in Hlen; try lia.
  cbn [app length Nat.ltb Nat.leb]. now rewrite !getAffineTransform_cons3.
Qed.

(** X16. Clicks do not disturb a complete calibration.  Once the data
    holds three calibration points, no click on the map, in any mode and
    with any answers to the dialogs, changes the transform, the spots, or
    the nearest spot found for any user pixel. *)
Theorem handleMapClick_keeps_calibration (parseFloat : string -> number)
    (clientX clientY : number) (rect : option (number * number))
    (confirmed : bool) (manual : option string) (now : number) (ui : Ui.t)
    (d : AppData.t) :
  AppState.data (Ui.app ui) = Some d ->
  (3 <= length (AppData.calibration_points d))%nat ->
  exists d',
    AppState.data
      (Ui.app (handleMapClick parseFloat clientX clientY rect confirmed manual
                 now ui)) = Some d' /\
    transform (Some d') = transform (Some d) /\
    AppData.spots d' = AppData.spots d /\
    (forall up, nearest up (transform (Some d')) d'
                = nearest up (transform (Some d)) d).
Proof.
  intros Hd Hlen.
  assert (Hsame : exists d', Some d = Some d' /\
            transform (Some d') = transform (Some d) /\
            AppData.spots d' = AppData.spots d /\
            (forall up, nearest up (transform (Some d')) d'
                        = nearest up (transform (Some d)) d))
    by (exists d; auto).
  unfold handleMapClick.
  destruct (MapView.isDragging (Ui.view ui)); [now rewrite Hd |].
  destruct rect as [[rl rt] |]; [| now rewrite Hd].
  destruct (Ui.mode ui); cbn [Ui.app]; try (now rewrite Hd).
  rewrite Hd.
  destruct (calibrationLatLng parseFloat _ confirmed manual) as [[lat lng] |];
    [| now rewrite Hd].
  cbn [setData Ui.app AppState.data].
  eexists. split; [reflexivity |].
  rewrite (transform_append d _ Hlen). split; [reflexivity |].
  split; [reflexivity |].
  intros up. apply nearest_same_calibration; [reflexivity |].
  cbn [AppData.calibration_points].
  destruct (AppData.calibration_points d) as [|p1 [|p2 rest]];
    simpl in Hlen; try lia. reflexivity.
Qed.

Lemma handleMapClick_keeps_calibration_witness :
  let d := AppData.mk sample_points [spot_far] in
  let ui := calibrating_ui d (view_of_reals 0 0 1) in
  AppState.data (Ui.app ui) = Some d /\
  (3 <= length (AppData.calibration_points d))%nat /\
  exists d',
    AppState.data
      (Ui.app (handleMapClick (fun _ => Fin 24) (Fin 50) (Fin 60)
                 (Some (Fin 0, Fin 0)) false (Some "24,121"%string) (Fin 1) ui))
    = Some d' /\
    transform (Some d') = transform (Some d) /\
    AppData.spots d' = AppData.spots d /\
    (forall up, nearest up (transform (Some d')) d'
                = nearest up (transform (Some d)) d).
Proof.
  intros d ui.
  assert (Hlen : (3 <= length (AppData.calibration_points d))%nat)
    by (simpl; lia).
  exact (conj eq_refl (conj Hlen
           (handleMapClick_keeps_calibration (fun _ => Fin 24) (Fin 50) (Fin 60)
              (Some (Fin 0, Fin 0)) false (Some "24,121"%string) (Fin 1) ui d
              eq_refl Hlen))).
Defined.

Lemma projection_of_first_three (i1 i2 i3 : number)
    (x1 y1 la1 ln1 x2 y2 la2 ln2 x3 y3 la3 ln3 : R)
    (rest : list CalibrationPoint.t) (t : AffineTransform.t) :
  getAffineTransform
    (CalibrationPoint.mk i1 (Fin x1) (Fin y1) (Fin la1) (Fin ln1) ::
     CalibrationPoint.mk i2 (Fin x2) (Fin y2) (Fin la2) (Fin ln2) ::
     CalibrationPoint.mk i3 (Fin x3) (Fin y3) (Fin la3) (Fin ln3) :: rest)
  = Some t ->
  latLngToPixel (Fin la1) (Fin ln1) (Some t) = Some (PixelCoord.mk (Fin x1) (Fin y1)) /\
  latLngToPixel (Fin la2) (Fin ln2) (Some t) = Some (PixelCoord.mk (Fin x2) (Fin y2)) /\
  latLngToPixel (Fin la3) (Fin ln3) (Some t) = Some (PixelCoord.mk (Fin x3) (Fin y3)).
Proof.
  intros Ht. apply getAffineTransform_finite in Ht as [Hdet ->].
  assert (Hnz : geo_det la1 ln1 la2 ln2 la3 ln3 <> 0).
  { intros E. rewrite E, Rabs_R0 in Hdet. lra. }
  repeat split; simpl; unfold geo_det in *; f_equal; f_equal; f_equal; field;
    exact Hnz.
Qed.

(** One calibrating click, evaluated. *)
Lemma calibrateHere_eval (parseFloat : string -> number)
    (la ln cx cy rl rt vx vy s : R) (now : number) (d : AppData.t)
    (sel : option Spot.t) (cm rs : gset string) (g : option Coord.t)
    (up : option PixelCoord.t) (nsd : option number) (lp : ScreenPos.t)
    (nsp : option PixelCoord.t) :
  s <> 0 ->
  calibrateHere parseFloat (Fin la) (Fin ln) (Fin cx) (Fin cy) (Fin rl, Fin rt) now
    (Ui.mk (AppState.mk (Some d) sel cm rs g up nsd) ADMIN_CALIBRATE
       (MapView.mk (view_of_reals vx vy s) false lp) nsp)
  = Ui.mk
      (AppState.mk
         (Some (AppData.mk
                  (AppData.calibration_points d ++
                   [CalibrationPoint.mk now (Fin ((cx - rl - vx) / s))
                      (Fin ((cy - rt - vy) / s)) (Fin la) (Fin ln)])
                  (AppData.spots d)))
         sel cm rs (Some (Coord.mk (Fin la) (Fin ln))) up nsd)
      ADMIN_CALIBRATE (MapView.mk (view_of_reals vx vy s) false lp) nsp.
Proof.
  intros Hs. unfold calibrateHere, withPosition, handleMapClick.
  cbn [Ui.view Ui.app Ui.mode Ui.newSpotPos MapView.isDragging MapView.viewState
       AppState.data AppState.userGeo AppState.selectedSpot
       AppState.completedMissions AppState.readSpeeches AppState.userPixel
       AppState.nearestSpotDist calibrationLatLng Coord.lat Coord.lng].
  unfold screenToNatural, view_of_reals.
  cbn [ViewState.x ViewState.y ViewState.scale ScreenPos.x ScreenPos.y
       Num.sub Num.neg Num.add].
  rewrite !div_fin by exact Hs.
  cbn [PixelCoord.x PixelCoord.y setData Ui.app Ui.mode Ui.view Ui.newSpotPos
       AppState.selectedSpot AppState.completedMissions AppState.readSpeeches
       AppState.userGeo AppState.userPixel AppState.nearestSpotDist].
  reflexivity.
Qed.

Lemma projectionEffect_withPosition (la ln : number) (ui : Ui.t)
    (t : AffineTransform.t) :
  transform (AppState.data (Ui.app ui)) = Some t ->
  AppState.userPixel (projectionEffect (Ui.app (withPosition la ln ui)))
  = latLngToPixel la ln (Some t).
Proof.
  intros Ht. unfold projectionEffect, withPosition.
  cbn [Ui.app AppState.userGeo AppState.data]. rewrite Ht. reflexivity.
Qed.

(** X17. Calibrating by clicking where one stands.  In exact arithmetic,
    starting without calibration points, the administrator stands at three
    positions in turn and clicks the map each time, confirming the use of
    the position.  If the resulting calibration gives a transform, then
    whenever the position stream later delivers one of the three
    positions, the projection effect sets the user's pixel to a pixel that
    is drawn, under the view of the clicks, where the administrator
    clicked for that position.  The equalities are between real numbers;
    the rounding of the click conversion, of the solver and of the
    projection is outside them. *)
Theorem calibrating_by_three_clicks (parseFloat : string -> number)
    (vx vy s rl rt : R) (spots : list Spot.t) (now1 now2 now3 : number)
    (la1 ln1 cx1 cy1 la2 ln2 cx2 cy2 la3 ln3 cx3 cy3 : R)
    (t : AffineTransform.t) :
  s <> 0 ->
  let vs := view_of_reals vx vy s in
  let rect := (Fin rl, Fin rt) in
  let ui1 := calibrateHere parseFloat (Fin la1) (Fin ln1) (Fin cx1) (Fin cy1)
               rect now1 (calibrating_ui (AppData.mk [] spots) vs) in
  let ui2 := calibrateHere parseFloat (Fin la2) (Fin ln2) (Fin cx2) (Fin cy2)
               rect now2 ui1 in
  let ui3 := calibrateHere parseFloat (Fin la3) (Fin ln3) (Fin cx3) (Fin cy3)
               rect now3 ui2 in
  let drawn la ln :=
    AppState.userPixel (projectionEffect (Ui.app (withPosition (Fin la) (Fin ln) ui3))) in
  transform (AppState.data (Ui.app ui3)) = Some t ->
  (exists p, drawn la1 ln1 = Some p /\
             naturalToScreen vs p = ScreenPos.mk (Fin (cx1 - rl)) (Fin (cy1 - rt))) /\
  (exists p, drawn la2 ln2 = Some p /\
             naturalToScreen vs p = ScreenPos.mk (Fin (cx2 - rl)) (Fin (cy2 - rt))) /\
  (exists p, drawn la3 ln3 = Some p /\
             naturalToScreen vs p = ScreenPos.mk (Fin (cx3 - rl)) (Fin (cy3 - rt))).
Proof.
  intros Hs vs rect ui1 ui2 ui3 drawn Ht.
  assert (Hdrawn : forall la ln, drawn la ln = latLngToPixel (Fin la) (Fin ln) (Some t))
    by (intros la ln; now apply projectionEffect_withPosition).
  rewrite !Hdrawn. clear Hdrawn drawn.
  unfold ui3, ui2, ui1, calibrating_ui, vs, rect in Ht.
  rewrite !calibrateHere_eval in Ht by exact Hs.
  cbn [Ui.app AppState.data AppData.calibration_points AppData.spots app
       transform length Nat.ltb Nat.leb] in Ht.
  apply projection_of_first_three in Ht as (H1 & H2 & H3).
  assert (Hdraw : forall cx cy,
            naturalToScreen vs
              (PixelCoord.mk (Fin ((cx - rl - vx) / s)) (Fin ((cy - rt - vy) / s)))
            = ScreenPos.mk (Fin (cx - rl)) (Fin (cy - rt))).
  { intros cx cy. unfold naturalToScreen, vs, view_of_reals.
    cbn [ViewState.x ViewState.y ViewState.scale PixelCoord.x PixelCoord.y
         Num.mul Num.add].
    f_equal; f_equal; field; exact Hs. }
  repeat split; eexists; (split; [eassumption | apply Hdraw]).
Qed.

Lemma calibrating_by_three_clicks_witness :
  let vs := view_of_reals 0 0 1 in
  let rect := (Fin 0, Fin 0) in
  let pf := fun _ : string => NaN in
  let ui1 := calibrateHere pf (Fin 0) (Fin 0) (Fin 0) (Fin 0) rect (Fin 1)
               (calibrating_ui (AppData.mk [] []) vs) in
  let ui2 := calibrateHere pf (Fin 0) (Fin 1) (Fin 10) (Fin 0) rect (Fin 2) ui1 in
  let ui3 := calibrateHere pf (Fin 1) (Fin 0) (Fin 0) (Fin 10) rect (Fin 3) ui2 in
  1 <> 0 /\
  exists t,
    transform (AppState.data (Ui.app ui3)) = Some t /\
    (exists p,
        AppState.userPixel
          (projectionEffect (Ui.app (withPosition (Fin 0) (Fin 1) ui3))) = Some p /\
        naturalToScreen vs p = ScreenPos.mk (Fin (10 - 0)) (Fin (0 - 0))).
Proof.
  intros vs rect pf ui1 ui2 ui3.
  assert (Hs : 1 <> 0) by lra.
  split; [exact Hs |].
  assert (Ht : exists t, transform (AppState.data (Ui.app ui3)) = Some t).
  { unfold ui3, ui2, ui1, calibrating_ui, vs, rect.
    rewrite !calibrateHere_eval by exact Hs.
    cbn [Ui.app AppState.data AppData.calibration_points AppData.spots app
         transform length Nat.ltb Nat.leb].
    match goal with
    | |- exists t, getAffineTransform (?p1 :: ?p2 :: ?p3 :: ?rest) = Some t =>
        pose proof (getAffineTransform_cases p1 p2 p3 rest) as H
    end.
    destruct (Math.abs _ <? Fin 1e-9)%num eqn:E; [| exact H].
    apply degenerate_finite in E. unfold geo_det in E.
    replace (0 * (1 - 0) + 0 * (0 - 0) + 1 * (0 - 1)) with (-1) in E by ring.
    revert E. unfold Rabs. destruct (Rcase_abs (-1)); lra. }
  destruct Ht as [t Ht]. exists t. split; [exact Ht |].
  exact (proj1 (proj2
           (calibrating_by_three_clicks pf 0 0 1 0 0 [] (Fin 1) (Fin 2) (Fin 3)
              0 0 0 0 0 1 10 0 1 0 0 10 t Hs Ht))).
Defined.

(** ** Creating a spot *)

(** X18. A new spot is stored where the administrator clicked.  In
    spot-creation mode, a click followed by the submission of a form with a
    non-empty name appends one spot to the data: its id is ["spot_"]
    followed by the time stamp, it carries the fields of the form, and its
    pixel is the position of the click in the image as [handleMapClick]
    computes it, [((clientX - rect.left) - x) / scale] and likewise for
    [y].  The earlier spots, the calibration points and the transform are
    unchanged, and the pending position is cleared. *)
Theorem new_spot_lands_where_clicked (parseFloat : string -> number)
    (clientX clientY rectLeft rectTop : number) (vs : ViewState.t)
    (confirmed : bool) (manual : option string)
    (now : number) (d : AppData.t) (form : SpotForm.t) (stamp : string) :
  SpotForm.name form <> EmptyString ->
  let clicked := handleMapClick parseFloat clientX clientY
                   (Some (rectLeft, rectTop)) confirmed manual now
                   (adding_spot_ui d vs) in
  exists spotData newSpot,
    handleSubmit form = Some spotData /\
    AppState.data (Ui.app (handleSaveSpot stamp spotData clicked))
    = Some (AppData.mk (AppData.calibration_points d)
              (AppData.spots d ++ [newSpot])) /\
    Ui.newSpotPos (handleSaveSpot stamp spotData clicked) = None /\
    Spot.id newSpot = ("spot_" ++ stamp)%string /\
    Spot.name newSpot = SpotForm.name form /\
    Spot.desc newSpot = SpotForm.desc form /\
    Spot.speech_text newSpot = Some (SpotForm.speechText form) /\
    Spot.has_mission newSpot = SpotForm.hasMission form /\
    Spot.type newSpot = SpotForm.type form /\
    Spot.pixel_x newSpot
    = ((clientX - rectLeft - ViewState.x vs) / ViewState.scale vs)%num /\
    Spot.pixel_y newSpot
    = ((clientY - rectTop - ViewState.y vs) / ViewState.scale vs)%num /\
    transform (AppState.data (Ui.app (handleSaveSpot stamp spotData clicked)))
    = transform (Some d).
Proof.
  intros Hname clicked.
  unfold handleSubmit.
  destruct (bool_decide_reflect (SpotForm.name form = EmptyString));
    [contradiction |].
  eexists. eexists. split; [reflexivity |].
  unfold clicked, handleMapClick, adding_spot_ui, handleSaveSpot.
  cbn [Ui.view Ui.mode Ui.app Ui.newSpotPos MapView.isDragging
       MapView.viewState AppState.data setData].
  unfold screenToNatural.
  cbn [ScreenPos.x ScreenPos.y PixelCoord.x PixelCoord.y Ui.app Ui.newSpotPos
       AppState.data SpotData.name SpotData.desc SpotData.speech_text
       SpotData.has_mission SpotData.type].
  split; [reflexivity |]. split; [reflexivity |].
  cbn [Spot.id Spot.name Spot.desc Spot.speech_text Spot.has_mission Spot.type
       Spot.pixel_x Spot.pixel_y].
  repeat (split; [reflexivity |]). reflexivity.
Qed.

Lemma new_spot_lands_where_clicked_witness :
  let form := SpotForm.mk "Riverside" "" "" facility true in
  let vs := view_of_reals 20 10 2 in
  let clicked := handleMapClick (fun _ => NaN) (Fin 300) (Fin 200)
                   (Some (Fin 0, Fin 40)) false None (Fin 1)
                   (adding_spot_ui (AppData.mk sample_points [spot_far]) vs) in
  SpotForm.name form <> EmptyString /\
  exists spotData newSpot,
    handleSubmit form = Some spotData /\
    AppState.data (Ui.app (handleSaveSpot "1700000000000" spotData clicked))
    = Some (AppData.mk sample_points ([spot_far] ++ [newSpot])) /\
    Spot.id newSpot = "spot_1700000000000"%string /\
    Spot.pixel_x newSpot = ((Fin 300 - Fin 0 - Fin 20) / Fin 2)%num /\
    Spot.pixel_y newSpot = ((Fin 200 - Fin 40 - Fin 10) / Fin 2)%num.
Proof.
  intros form vs clicked.
  assert (Hname : SpotForm.name form <> EmptyString) by discriminate.
  split; [exact Hname |].
  destruct (new_spot_lands_where_clicked (fun _ => NaN) (Fin 300) (Fin 200)
              (Fin 0) (Fin 40) vs false None (Fin 1)
              (AppData.mk sample_points [spot_far]) form
              "1700000000000" Hname)
    as (spotData & newSpot & H1 & H2 & _ & H4 & _ & _ & _ & _ & _ & H10 & H11 & _).
  exists spotData, newSpot. repeat split; assumption.
Defined.





(** ** Persistence *)

Lemma spreadOver_toPartial (DEFAULT_DATA d : AppData.t) :
  spreadOver DEFAULT_DATA (Some (toPartial d)) = d.
Proof. now destruct d. Qed.

Lemma fetchAppData_offline (DEFAULT_DATA : AppData.t)
    (stringify : PartialData.t -> string) (parse : string -> Body)
    (response : Fetched) (value : string) (full : bool) (c : PartialData.t) :
  offline response ->
  value <> EmptyString ->
  parse value = BodyObject c ->
  fetchAppData DEFAULT_DATA stringify parse response
    (LocalStorage.mk (Some value) full)
  = (spreadOver DEFAULT_DATA (Some c), LocalStorage.mk (Some value) full).
Proof.
  intros Hoff Hne Hparse. unfold fetchAppData.
  assert (Hcloud :
    match response with
    | Responded true (BodyObject c0) =>
        (Some c0, setItem (stringify c0) (LocalStorage.mk (Some value) full))
    | _ => (None, LocalStorage.mk (Some value) full)
    end = (None, LocalStorage.mk (Some value) full)).
  { destruct response as [| [|] [| | c0]]; simpl in Hoff; try reflexivity.
    contradiction. }
  rewrite Hcloud. cbn [LocalStorage.item].
  destruct (bool_decide_reflect (value = EmptyString)); [contradiction |].
  now rewrite Hparse.
Qed.

(** X20. Data saved survive without the network.  When the local storage
    accepts writes and the JSON text of the data parses back to the data,
    [saveAppData] followed by a [fetchAppData] that gets nothing from the
    network (an error, a refusal, an unreadable or empty body) returns the
    data that were saved, whatever the outcome of the POST was and whatever
    the storage held before. *)
Theorem saved_data_survive_offline (DEFAULT_DATA : AppData.t)
    (stringify : PartialData.t -> string) (parse : string -> Body)
    (d : AppData.t) (posted fetched : Fetched) (storage : LocalStorage.t) :
  LocalStorage.full storage = false ->
  stringify (toPartial d) <> EmptyString ->
  parse (stringify (toPartial d)) = BodyObject (toPartial d) ->
  offline fetched ->
  (fetchAppData DEFAULT_DATA stringify parse fetched
     (saveAppData stringify d posted storage).2).1 = d.
Proof.
  intros Hfull Hne Hparse Hoff.
  assert (Hsaved : (saveAppData stringify d posted storage).2
                   = LocalStorage.mk (Some (stringify (toPartial d))) false).
  { unfold saveAppData, setItem. rewrite Hfull. now destruct posted. }
  rewrite Hsaved.
  rewrite (fetchAppData_offline _ _ _ _ _ _ (toPartial d) Hoff Hne Hparse).
  apply spreadOver_toPartial.
Qed.

Lemma saved_data_survive_offline_witness :
  let storage := LocalStorage.mk None false in
  LocalStorage.full storage = false /\
  toy_stringify (toPartial stored_data) <> EmptyString /\
  toy_parse (toy_stringify (toPartial stored_data)) = BodyObject (toPartial stored_data) /\
  offline NetworkError /\
  (fetchAppData (AppData.mk [] []) toy_stringify toy_parse NetworkError
     (saveAppData toy_stringify stored_data NetworkError storage).2).1
  = stored_data.
Proof.
  intros storage.
  assert (Hne : toy_stringify (toPartial stored_data) <> EmptyString)
    by discriminate.
  exact (conj eq_refl (conj Hne (conj eq_refl (conj I
           (saved_data_survive_offline (AppData.mk [] []) toy_stringify toy_parse
              stored_data NetworkError NetworkError storage
              eq_refl Hne eq_refl I))))).
Defined.

(** X21. Data fetched are cached.  When the network answers with an
    object, [fetchAppData] returns that object spread over the defaults,
    whatever the local storage holds; if the storage accepts writes and the
    JSON text of the object parses back to it, a later [fetchAppData] that
    gets nothing from the network returns the same data. *)
Theorem fetched_data_are_cached (DEFAULT_DATA : AppData.t)
    (stringify : PartialData.t -> string) (parse : string -> Body)
    (c : PartialData.t) (later : Fetched) (storage : LocalStorage.t) :
  LocalStorage.full storage = false ->
  stringify c <> EmptyString ->
  parse (stringify c) = BodyObject c ->
  offline later ->
  let first := fetchAppData DEFAULT_DATA stringify parse
                 (Responded true (BodyObject c)) storage in
  first.1 = spreadOver DEFAULT_DATA (Some c) /\
  (fetchAppData DEFAULT_DATA stringify parse later first.2).1 = first.1.
Proof.
  intros Hfull Hne Hparse Hoff first.
  assert (Hfirst : first = (spreadOver DEFAULT_DATA (Some c),
                            LocalStorage.mk (Some (stringify c)) false)).
  { unfold first, fetchAppData, setItem. now rewrite Hfull. }
  rewrite Hfirst. cbn [fst snd]. split; [reflexivity |].
  now rewrite (fetchAppData_offline _ _ _ _ _ _ c Hoff Hne Hparse).
Qed.

Lemma fetched_data_are_cached_witness :
  let storage := LocalStorage.mk (Some "old"%string) false in
  let c := toPartial stored_data in
  let first := fetchAppData (AppData.mk [] []) toy_stringify toy_parse
                 (Responded true (BodyObject c)) storage in
  LocalStorage.full storage = false /\
  toy_stringify c <> EmptyString /\
  toy_parse (toy_stringify c) = BodyObject c /\
  offline (Responded false BodyNull) /\
  first.1 = spreadOver (AppData.mk [] []) (Some c) /\
  (fetchAppData (AppData.mk [] []) toy_stringify toy_parse
     (Responded false BodyNull) first.2).1 = first.1.
Proof.
  intros storage c first.
  assert (Hne : toy_stringify c <> EmptyString) by discriminate.
  exact (conj eq_refl (conj Hne (conj eq_refl (conj I
           (fetched_data_are_cached (AppData.mk [] []) toy_stringify toy_parse
              c (Responded false BodyNull) storage eq_refl Hne eq_refl I))))).
Defined.

(** X22. Without network and without a usable local copy, the defaults.
    When [fetchAppData] gets nothing from the network and the local entry
    is absent, empty, unreadable or [null], it returns [DEFAULT_DATA] and
    leaves the storage as it is. *)
Theorem fetchAppData_falls_back_to_default (DEFAULT_DATA : AppData.t)
    (stringify : PartialData.t -> string) (parse : string -> Body)
    (response : Fetched) (storage : LocalStorage.t) :
  offline response ->
  match LocalStorage.item storage with
  | Some local =>
      local = EmptyString \/ parse local = BodyInvalid \/ parse local = BodyNull
  | None => True
  end ->
  fetchAppData DEFAULT_DATA stringify parse response storage
  = (DEFAULT_DATA, storage).
Proof.
  intros Hoff Hlocal. unfold fetchAppData.
  assert (Hcloud :
    match response with
    | Responded true (BodyObject c0) => (Some c0, setItem (stringify c0) storage)
    | _ => (None, storage)
    end = (None, storage)).
  { destruct response as [| [|] [| | c0]]; simpl in Hoff; try reflexivity.
    contradiction. }
  rewrite Hcloud.
  destruct (LocalStorage.item storage) as [local |]; [| reflexivity].
  destruct (bool_decide_reflect (local = EmptyString)); [reflexivity |].
  destruct Hlocal as [H | [H | H]]; [contradiction | |]; now rewrite H.
Qed.

Lemma fetchAppData_falls_back_to_default_witness :
  let storage := LocalStorage.mk (Some "not json"%string) true in
  offline (Responded true BodyInvalid) /\
  fetchAppData stored_data toy_stringify (fun _ => BodyInvalid)
    (Responded true BodyInvalid) storage
  = (stored_data, storage).
Proof.
  intros storage.
  assert (Hlocal : match LocalStorage.item storage with
                   | Some local =>
                       local = EmptyString \/
                       (fun _ : string => BodyInvalid) local = BodyInvalid \/
                       (fun _ : string => BodyInvalid) local = BodyNull
                   | None => True
                   end) by (right; left; reflexivity).
  exact (conj I
           (fetchAppData_falls_back_to_default stored_data toy_stringify
              (fun _ => BodyInvalid) (Responded true BodyInvalid) storage
              I Hlocal)).
Defined.

(** ** Geolocation tracking *)

Lemma lastPosition_snoc (evs : list GeoEvent) (ev : GeoEvent) :
  lastPosition (evs ++ [ev])
  = match ev with
    | Position latitude longitude accuracy =>
        Some (Coord.mk latitude longitude, accuracy)
    | Failure _ _ => lastPosition evs
    end.
Proof.
  induction evs as [|e evs IH]; simpl.
  - now destruct ev.
  - rewrite IH. destruct ev; [reflexivity |].
    destruct (lastPosition evs); reflexivity.
Qed.

(** X23. A failure keeps the last known position.  After any sequence of
    positions and failures, the position and accuracy are those of the
    last position delivered (the initial ones if there was none), and an
    error message is shown exactly when the last event was a failure (or,
    without events, when one was shown before). *)
Theorem geolocation_keeps_last_position (evs : list GeoEvent)
    (s : GeoStatus.t) :
  let s' := fold_left geoStep evs s in
  (GeoStatus.userGeo s', GeoStatus.gpsAccuracy s')
  = match lastPosition evs with
    | Some (c, a) => (Some c, Some a)
    | None => (GeoStatus.userGeo s, GeoStatus.gpsAccuracy s)
    end /\
  (GeoStatus.geoError s' = None <->
   match List.last (map Some evs) None with
   | Some (Position _ _ _) => True
   | Some (Failure _ _) => False
   | None => GeoStatus.geoError s = None
   end).
Proof.
  induction evs as [|ev evs IH] using rev_ind; [cbn; tauto |].
  cbn zeta in *. rewrite fold_left_app, lastPosition_snoc, map_app.
  cbn [fold_left map]. rewrite last_last. destruct IH as [IHpos _].
  destruct ev as [la ln acc | code msg]; cbn [geoStep handleSuccess handleError
    GeoStatus.userGeo GeoStatus.gpsAccuracy GeoStatus.geoError].
  - split; [reflexivity | tauto].
  - split; [exact IHpos |]. split; [discriminate | contradiction].
Qed.

(** ** The scale and the choice of the nearest spot *)



